(** * ppdet.data.samplers.Sampler: a shallow embedding

    The distributed batch sampler of [ppdet/data/samplers.py], method by
    method, in a state-and-exception monad, followed by the properties of
    its epoch schedule, padding, sharding and cursor.

    Conventions of the embedding.
    - A Python attribute that may be missing ([hasattr]) is an [option]
      field; reading a missing one raises [AttributeError].
    - An exception leaves every mutation made before it in place, so a
      computation returns the new world together with either a value or
      the exception raised.
    - Sizes, ranks and counters are natural numbers; dataset indices and
      pad amounts are integers (the sentinel is [-1], and Python slices
      accept a negative bound).
    - Aspect ratios and thresholds are rationals, compared exactly.
    - [math.ceil(a / b)] on counts is read as the exact ceiling of the
      quotient, [ceil_div]; the float64 computation itself is
      [math_ceil_div], and [math_ceil_div_exact] proves the two equal
      for counts up to [2 ** 53].  What is stated about the value of
      line 64 carries that bound.
    - numpy's generators are an interface: a state type, the seeding
      constructor and a draw that returns a permutation of [0..n-1]
      together with the successor state.  The warning that [setup]
      prints is not part of the state. *)

From Stdlib Require Import List ZArith QArith Lia Bool Arith Permutation.
Import ListNotations.

Local Open Scope nat_scope.

(* ------------------------------------------------------------------ *)
(** ** Exceptions and results *)

Inductive exn : Type :=
| AssertionError
| ZeroDivisionError
| ValueError
| IndexError
| AttributeError
| StopIteration
| OverflowError.

Inductive result (A : Type) : Type :=
| Ok (a : A)
| Raise (e : exn).

Arguments Ok {A} a.
Arguments Raise {A} e.

Definition is_ok {A} (r : result A) : bool :=
  match r with Ok _ => true | Raise _ => false end.

(* ------------------------------------------------------------------ *)
(** ** Python and numpy primitives used by the sampler *)

(** [math.ceil(a / b)] under true division, with the quotient taken
    exactly.  This is the value line 64 stores as long as
    [len(dataset)] does not exceed [2 ** 53] ([math_ceil_div] below is
    the float computation itself, [math_ceil_div_exact] the agreement
    of the two); the sampler is read with it. *)
Definition ceil_div (a b : nat) : result nat :=
  if b =? 0 then Raise ZeroDivisionError
  else Ok (if a mod b =? 0 then a / b else S (a / b)).

(** [math.ceil(s / whole_batch_size)] for [s] an element of
    [np.bincount(...)]: a numpy integer divided by zero is [inf], or
    [nan] when it is zero itself, and [math.ceil] refuses both. *)
Definition np_ceil_div (s b : nat) : result nat :=
  if b =? 0 then Raise (if s =? 0 then ValueError else OverflowError)
  else Ok (if s mod b =? 0 then s / b else S (s / b)).





(** [l[:k]] for an integer [k]: a negative bound counts from the end. *)
Definition slice_to {A} (l : list A) (k : Z) : list A :=
  if (0 <=? k)%Z then firstn (Z.to_nat k) l
  else firstn (length l - Z.to_nat (- k)) l.

(** [[x] * k]: empty when [k] is not positive. *)
Definition list_times {A} (x : A) (k : Z) : list A := repeat x (Z.to_nat k).

(** [np.arange(n)]. *)
Definition arange (n : nat) : list Z := map Z.of_nat (seq 0 n).

(** Fancy indexing [x[p]] for in-range positions. *)
Definition take_at {A} (x : list A) (p : list nat) : list A :=
  flat_map (fun i => match nth_error x i with Some a => [a] | None => [] end) p.

(** Rows of [count] consecutive groups of [size] elements: the C-order
    layout behind [reshape]. *)
Fixpoint rows {A} (size count : nat) (l : list A) : list (list A) :=
  match count with
  | 0 => []
  | S c => firstn size l :: rows size c (skipn size l)
  end.

(** [a.reshape(-1, cols)] on a one-dimensional array. *)
Definition reshape_rows {A} (cols : nat) (l : list A) : result (list (list A)) :=
  if cols =? 0 then Raise ValueError
  else if length l mod cols =? 0 then Ok (rows cols (length l / cols) l)
  else Raise ValueError.

(** [a.reshape(groups, -1, cols)] on an array of rows of [cols] elements,
    [cols > 0]: the rows are split into [groups] equal runs. *)
Definition reshape_shards {A} (groups : nat) (l : list (list A))
  : result (list (list (list A))) :=
  if groups =? 0 then Raise ValueError
  else if length l mod groups =? 0 then Ok (rows (length l / groups) groups l)
  else Raise ValueError.

(** [a[i]] on the first axis. *)
Definition index {A} (l : list A) (i : nat) : result A :=
  match nth_error l i with
  | Some a => Ok a
  | None => Raise IndexError
  end.

(** The direction numpy finds in the bin edges: [1] when they never
    decrease (also when empty or constant), [-1] when they never
    increase, [0] otherwise. *)
Fixpoint nondecreasing (l : list Q) : bool :=
  match l with
  | a :: (b :: _) as t => Qle_bool a b && nondecreasing t
  | _ => true
  end.

Fixpoint nonincreasing (l : list Q) : bool :=
  match l with
  | a :: (b :: _) as t => Qle_bool b a && nonincreasing t
  | _ => true
  end.

Definition monotonicity (bins : list Q) : Z :=
  if nondecreasing bins then 1%Z
  else if nonincreasing bins then (-1)%Z
  else 0%Z.

(** [np.searchsorted(bins, x, side='right')] on edges that never
    decrease: the position of the first edge above [x]. *)
Fixpoint searchsorted_right (bins : list Q) (x : Q) : nat :=
  match bins with
  | [] => 0
  | b :: t => if Qle_bool b x then S (searchsorted_right t x) else 0
  end.

(** [np.digitize(xs, bins)]. *)
Definition digitize (xs bins : list Q) : result (list nat) :=
  match monotonicity bins with
  | 0%Z => Raise ValueError
  | 1%Z => Ok (map (searchsorted_right bins) xs)
  | _ => Ok (map (fun x => length bins - searchsorted_right (rev bins) x) xs)
  end.

(** [np.bincount(flags)]: one counter per value from [0] to the largest
    flag; no counter at all for an empty input. *)
Definition bincount (flags : list nat) : list nat :=
  map (count_occ Nat.eq_dec flags)
      (seq 0 (fold_right (fun f m => Nat.max (S f) m) 0 flags)).

(** [np.where(flags == idx)[0]]. *)
Definition where_eq (flags : list nat) (idx : nat) : list Z :=
  map Z.of_nat
      (filter (fun i => nth i flags 0 =? idx) (seq 0 (length flags))).

(** [result] as an error monad, for the comprehensions of [setup]. *)
Fixpoint map_result {A B} (f : A -> result B) (l : list A) : result (list B) :=
  match l with
  | [] => Ok []
  | a :: t =>
      match f a with
      | Raise e => Raise e
      | Ok b =>
          match map_result f t with
          | Raise e => Raise e
          | Ok bs => Ok (b :: bs)
          end
      end
  end.

(* ------------------------------------------------------------------ *)
(** ** The random generators of numpy, as an interface *)

Class RandomGen : Type := {
  rng : Type;
  (** [np.random.RandomState(seed)]; numpy rejects some seeds. *)
  RandomState : Z -> result rng;
  (** One draw for an array of [n] rows: the positions in their new
      order, and the generator after the draw. *)
  permutation : rng -> nat -> list nat * rng;
  permutation_spec : forall g n, Permutation (seq 0 n) (fst (permutation g n))
}.

(* ------------------------------------------------------------------ *)
(** ** Data model *)

(** The dataset as the sampler sees it: [len(dataset)] and, when the
    attribute exists, [dataset.aspect_ratios]. *)
Record Dataset : Type := {
  dataset_len : nat;
  aspect_ratios : option (list Q)
}.

(** The attributes of a [Sampler] object.  The first nine are set by the
    constructor and never assigned again; the last five exist only once
    [setup] or [reset] has assigned them. *)
Record Sampler : Type := {
  dataset : Dataset;
  batch_size : nat;
  shuffle : bool;
  aspect_ratio_thresholds : option (list Q);
  pad_batch : bool;
  sync_seed_schedule : bool;
  rank : nat;
  world_size : nat;
  init_seed : Z;
  epoch : nat;
  _step : nat;
  num_batches : option nat;
  bucket_flags : option (list nat);
  bucket_sizes : option (list nat);
  pad_lengths : option (list Z);
  _shard : option (list (list Z))
}.

Definition set_epoch (v : nat) (s : Sampler) : Sampler :=
  {| dataset := dataset s; batch_size := batch_size s; shuffle := shuffle s;
     aspect_ratio_thresholds := aspect_ratio_thresholds s;
     pad_batch := pad_batch s; sync_seed_schedule := sync_seed_schedule s;
     rank := rank s; world_size := world_size s; init_seed := init_seed s;
     epoch := v; _step := _step s; num_batches := num_batches s;
     bucket_flags := bucket_flags s; bucket_sizes := bucket_sizes s;
     pad_lengths := pad_lengths s; _shard := _shard s |}.

Definition set_step (v : nat) (s : Sampler) : Sampler :=
  {| dataset := dataset s; batch_size := batch_size s; shuffle := shuffle s;
     aspect_ratio_thresholds := aspect_ratio_thresholds s;
     pad_batch := pad_batch s; sync_seed_schedule := sync_seed_schedule s;
     rank := rank s; world_size := world_size s; init_seed := init_seed s;
     epoch := epoch s; _step := v; num_batches := num_batches s;
     bucket_flags := bucket_flags s; bucket_sizes := bucket_sizes s;
     pad_lengths := pad_lengths s; _shard := _shard s |}.

Definition set_num_batches (v : nat) (s : Sampler) : Sampler :=
  {| dataset := dataset s; batch_size := batch_size s; shuffle := shuffle s;
     aspect_ratio_thresholds := aspect_ratio_thresholds s;
     pad_batch := pad_batch s; sync_seed_schedule := sync_seed_schedule s;
     rank := rank s; world_size := world_size s; init_seed := init_seed s;
     epoch := epoch s; _step := _step s; num_batches := Some v;
     bucket_flags := bucket_flags s; bucket_sizes := bucket_sizes s;
     pad_lengths := pad_lengths s; _shard := _shard s |}.

Definition set_bucket_flags (v : list nat) (s : Sampler) : Sampler :=
  {| dataset := dataset s; batch_size := batch_size s; shuffle := shuffle s;
     aspect_ratio_thresholds := aspect_ratio_thresholds s;
     pad_batch := pad_batch s; sync_seed_schedule := sync_seed_schedule s;
     rank := rank s; world_size := world_size s; init_seed := init_seed s;
     epoch := epoch s; _step := _step s; num_batches := num_batches s;
     bucket_flags := Some v; bucket_sizes := bucket_sizes s;
     pad_lengths := pad_lengths s; _shard := _shard s |}.

Definition set_bucket_sizes (v : list nat) (s : Sampler) : Sampler :=
  {| dataset := dataset s; batch_size := batch_size s; shuffle := shuffle s;
     aspect_ratio_thresholds := aspect_ratio_thresholds s;
     pad_batch := pad_batch s; sync_seed_schedule := sync_seed_schedule s;
     rank := rank s; world_size := world_size s; init_seed := init_seed s;
     epoch := epoch s; _step := _step s; num_batches := num_batches s;
     bucket_flags := bucket_flags s; bucket_sizes := Some v;
     pad_lengths := pad_lengths s; _shard := _shard s |}.

Definition set_pad_lengths (v : list Z) (s : Sampler) : Sampler :=
  {| dataset := dataset s; batch_size := batch_size s; shuffle := shuffle s;
     aspect_ratio_thresholds := aspect_ratio_thresholds s;
     pad_batch := pad_batch s; sync_seed_schedule := sync_seed_schedule s;
     rank := rank s; world_size := world_size s; init_seed := init_seed s;
     epoch := epoch s; _step := _step s; num_batches := num_batches s;
     bucket_flags := bucket_flags s; bucket_sizes := bucket_sizes s;
     pad_lengths := Some v; _shard := _shard s |}.

Definition set_shard (v : list (list Z)) (s : Sampler) : Sampler :=
  {| dataset := dataset s; batch_size := batch_size s; shuffle := shuffle s;
     aspect_ratio_thresholds := aspect_ratio_thresholds s;
     pad_batch := pad_batch s; sync_seed_schedule := sync_seed_schedule s;
     rank := rank s; world_size := world_size s; init_seed := init_seed s;
     epoch := epoch s; _step := _step s; num_batches := num_batches s;
     bucket_flags := bucket_flags s; bucket_sizes := bucket_sizes s;
     pad_lengths := pad_lengths s; _shard := Some v |}.

(** The same sampler on another rank. *)
Definition with_rank (r : nat) (s : Sampler) : Sampler :=
  {| dataset := dataset s; batch_size := batch_size s; shuffle := shuffle s;
     aspect_ratio_thresholds := aspect_ratio_thresholds s;
     pad_batch := pad_batch s; sync_seed_schedule := sync_seed_schedule s;
     rank := r; world_size := world_size s; init_seed := init_seed s;
     epoch := epoch s; _step := _step s; num_batches := num_batches s;
     bucket_flags := bucket_flags s; bucket_sizes := bucket_sizes s;
     pad_lengths := pad_lengths s; _shard := _shard s |}.

(** Python truth value of [aspect_ratio_thresholds]: [None] and the
    empty sequence are false. *)
Definition truthy (t : option (list Q)) : bool :=
  match t with
  | Some (_ :: _) => true
  | _ => false
  end.

(** [isinstance(t, Sequence)]; the values modelled are [None] and
    sequences of numbers. *)
Definition is_sequence (t : option (list Q)) : bool :=
  match t with
  | Some _ => true
  | None => false
  end.

Definition has {A} (o : option A) : bool :=
  match o with Some _ => true | None => false end.

(** The object [__init__] leaves behind when both assertions pass. *)
Definition fresh (dataset : Dataset) (batch_size : nat) (shuffle : bool)
    (aspect_ratio_thresholds : option (list Q)) (pad_batch : bool)
    (sync_seed_schedule : bool) (rank world_size : nat) (init_seed : Z)
  : Sampler :=
  {| dataset := dataset; batch_size := batch_size; shuffle := shuffle;
     aspect_ratio_thresholds := aspect_ratio_thresholds;
     pad_batch := pad_batch; sync_seed_schedule := sync_seed_schedule;
     rank := rank; world_size := world_size; init_seed := init_seed;
     epoch := 0; _step := 0; num_batches := None;
     bucket_flags := None; bucket_sizes := None;
     pad_lengths := None; _shard := None |}.

(** [Sampler.__init__]. *)
Definition __init__ (dataset : Dataset) (batch_size : nat) (shuffle : bool)
    (aspect_ratio_thresholds : option (list Q)) (pad_batch : bool)
    (sync_seed_schedule : bool) (rank world_size : nat) (init_seed : Z)
  : result Sampler :=
  if negb (negb (truthy aspect_ratio_thresholds)
           || is_sequence aspect_ratio_thresholds)
  then Raise AssertionError
  else if negb (pad_batch || negb (truthy aspect_ratio_thresholds))
  then Raise AssertionError
  else Ok (fresh dataset batch_size shuffle aspect_ratio_thresholds pad_batch
             sync_seed_schedule rank world_size init_seed).

(* ------------------------------------------------------------------ *)
(** ** The methods, over a world of one sampler and the process-wide
       generator behind [np.random.permutation] *)

Section Methods.

Context {G : RandomGen}.

Record World : Type := {
  np_random : rng;
  self : Sampler
}.

(** State that survives exceptions. *)
Definition M (A : Type) : Type := World -> World * result A.

Definition ret {A} (a : A) : M A := fun w => (w, Ok a).

Definition bind {A B} (m : M A) (k : A -> M B) : M B :=
  fun w =>
    match m w with
    | (w', Ok a) => k a w'
    | (w', Raise e) => (w', Raise e)
    end.

Definition raise {A} (e : exn) : M A := fun w => (w, Raise e).

Definition lift {A} (r : result A) : M A := fun w => (w, r).

Definition get_self : M Sampler := fun w => (w, Ok (self w)).

Definition modify_self (f : Sampler -> Sampler) : M unit :=
  fun w => ({| np_random := np_random w; self := f (self w) |}, Ok tt).

(** Reading an attribute that may not exist yet. *)
Definition getattr {A} (o : option A) : M A :=
  match o with
  | Some a => ret a
  | None => raise AttributeError
  end.

Notation "x <- m ;; k" := (bind m (fun x => k))
  (at level 61, m at next level, right associativity).
Notation "' pat <- m ;; k" := (bind m (fun x => match x with pat => k end))
  (at level 61, pat pattern, m at next level, right associativity).
Notation "m ;;; k" := (bind m (fun _ => k))
  (at level 61, right associativity).

(** [Sampler.setup]. *)
Definition setup : M unit :=
  s <- get_self ;;
  let whole_batch_size := world_size s * batch_size s in
  match aspect_ratio_thresholds s with
  | None =>
      n <- lift (ceil_div (dataset_len (dataset s)) whole_batch_size) ;;
      modify_self (set_num_batches n)
  | Some thresholds =>
      ratios <- match aspect_ratios (dataset s) with
                | Some r => ret r
                | None => raise AssertionError
                end ;;
      flags <- lift (digitize ratios thresholds) ;;
      modify_self (set_bucket_flags flags) ;;;
      let sizes := bincount flags in
      modify_self (set_bucket_sizes sizes) ;;;
      pads <- lift (map_result
                      (fun sz =>
                         match np_ceil_div sz whole_batch_size with
                         | Ok c => Ok (Z.of_nat (c * whole_batch_size) - Z.of_nat sz)%Z
                         | Raise e => Raise e
                         end) sizes) ;;
      modify_self (set_pad_lengths pads) ;;;
      counts <- lift (map_result (fun sz => np_ceil_div sz whole_batch_size) sizes) ;;
      modify_self (set_num_batches (list_sum counts))
  end.

(** The guard [if not hasattr(self, 'num_batches'): self.setup()] that
    opens [reset], [__iter__] and [__len__]. *)
Definition ensure_setup : M unit :=
  s <- get_self ;;
  if has (num_batches s) then ret tt else setup.

(** [Sampler.__len__]. *)
Definition __len__ : M nat :=
  ensure_setup ;;;
  s <- get_self ;;
  getattr (num_batches s).

(** What [rand_perm] is bound to inside [reset]: the identity, the
    [permutation] method of a generator made for this call (with its
    current state), or [np.random.permutation] on the process-wide
    generator. *)
Inductive perm_src : Type :=
| Identity
| Seeded (g : rng)
| Shared.

(** One call [rand_perm(x)]; a draw advances the generator it uses. *)
Definition rand_perm {A} (src : perm_src) (x : list A) : M (list A * perm_src) :=
  match src with
  | Identity => ret (x, Identity)
  | Seeded g =>
      let d := permutation g (length x) in
      ret (take_at x (fst d), Seeded (snd d))
  | Shared =>
      fun w =>
        let d := permutation (np_random w) (length x) in
        ({| np_random := snd d; self := self w |}, Ok (take_at x (fst d), Shared))
  end.

(** [reset], lines 83-93: the choice of [rand_perm]; the epoch counter
    moves in the seeded branch only. *)
Definition choose_rand_perm : M perm_src :=
  s <- get_self ;;
  if negb (shuffle s) then ret Identity
  else if sync_seed_schedule s then
    let seed := (Z.of_nat (epoch s) + init_seed s)%Z in
    g <- lift (RandomState seed) ;;
    modify_self (fun s => set_epoch (epoch s + 1) s) ;;;
    ret (Seeded g)
  else ret Shared.

(** [reset], lines 98-105: the loop over
    [enumerate(zip(bucket_sizes, pad_lengths))]. *)
Fixpoint bucket_loop (idx : nat) (zs : list (nat * Z)) (src : perm_src)
    (shuffled_indices : list Z) : M (list Z * perm_src) :=
  match zs with
  | [] => ret (shuffled_indices, src)
  | (size, pad) :: rest =>
      if size =? 0 then bucket_loop (S idx) rest src shuffled_indices
      else
        s <- get_self ;;
        flags <- getattr (bucket_flags s) ;;
        let bucket := where_eq flags idx in
        ' (shuffled, src') <- rand_perm src bucket ;;
        let shuffled := shuffled ++ slice_to shuffled pad in
        bucket_loop (S idx) rest src' (shuffled_indices ++ shuffled)
  end.

(** [reset], lines 95-112: the padded index stream of the epoch. *)
Definition draw_indices (src : perm_src) : M (list Z * perm_src) :=
  s <- get_self ;;
  let whole_batch_size := world_size s * batch_size s in
  if truthy (aspect_ratio_thresholds s) then
    sizes <- getattr (bucket_sizes s) ;;
    pads <- getattr (pad_lengths s) ;;
    bucket_loop 0 (combine sizes pads) src []
  else
    ' (shuffled_indices, src) <- rand_perm src (arange (dataset_len (dataset s))) ;;
    n <- __len__ ;;
    let pad := (Z.of_nat (n * whole_batch_size)
                - Z.of_nat (dataset_len (dataset s)))%Z in
    if pad_batch s
    then ret (shuffled_indices ++ slice_to shuffled_indices pad, src)
    else ret (shuffled_indices ++ list_times (-1)%Z pad, src).

(** [reset], lines 83-119 up to [rand_perm(batches)]: the batches of
    the epoch in their shuffled order, before they are split by rank. *)
Definition shuffled_batches : M (list (list Z)) :=
  src <- choose_rand_perm ;;
  ' (shuffled_indices, src) <- draw_indices src ;;
  s <- get_self ;;
  batches <- lift (reshape_rows (batch_size s) shuffled_indices) ;;
  ' (permuted, _) <- rand_perm src batches ;;
  ret permuted.

(** [reset], lines 81-119: the part that does not read [rank], the
    guard and the shuffled batches. *)
Definition epoch_prefix : M (list (list Z)) :=
  ensure_setup ;;; shuffled_batches.

(** [reset], lines 81-121: everything up to the value assigned to
    [self._shard]. *)
Definition compute_shard : M (list (list Z)) :=
  ensure_setup ;;;
  permuted <- shuffled_batches ;;
  s <- get_self ;;
  shuffled_shards <- lift (reshape_shards (world_size s) permuted) ;;
  lift (index shuffled_shards (rank s)).

(** [Sampler.reset]. *)
Definition reset : M unit :=
  shard <- compute_shard ;;
  modify_self (set_shard shard) ;;;
  modify_self (set_step 0).

(** [Sampler.__iter__]. *)
Definition __iter__ : M unit :=
  ensure_setup ;;;
  s <- get_self ;;
  if has (_shard s) then ret tt else reset.

(** [Sampler.__next__]. *)
Definition __next__ : M (list Z) :=
  s <- get_self ;;
  n <- getattr (num_batches s) ;;
  if n <=? _step s then raise StopIteration
  else
    ids <- (if pad_batch s then
              shard <- getattr (_shard s) ;;
              lift (index shard (_step s))
            else
              shard <- getattr (_shard s) ;;
              row <- lift (index shard (_step s)) ;;
              ret (filter (fun idx => negb (idx =? -1)%Z) row)) ;;
    modify_self (fun s => set_step (_step s + 1) s) ;;;
    ret ids.

(** The consumer's loop [for ids in it: ...] after [iter()]: calls
    [__next__] until it raises.  [StopIteration] ends the loop normally,
    any other exception propagates.  [None] only when [fuel] calls were
    not enough. *)
Fixpoint next_loop (fuel : nat) (w : World)
  : option (World * list (list Z) * result unit) :=
  match fuel with
  | 0 => None
  | S f =>
      match __next__ w with
      | (w', Ok ids) =>
          match next_loop f w' with
          | Some (w'', yielded, r) => Some (w'', ids :: yielded, r)
          | None => None
          end
      | (w', Raise StopIteration) => Some (w', [], Ok tt)
      | (w', Raise e) => Some (w', [], Raise e)
      end
  end.

(** [for ids in sampler: ...]: [__iter__], then the loop. *)
Definition for_loop (fuel : nat) (w : World)
  : option (World * list (list Z) * result unit) :=
  match __iter__ w with
  | (w', Ok _) => next_loop fuel w'
  | (w', Raise e) => Some (w', [], Raise e)
  end.

End Methods.

Arguments World G : clear implicits.
Arguments M G A : clear implicits.

(* ------------------------------------------------------------------ *)
(** ** A small generator to run the model on

    The state is a counter; a draw rotates [0..n-1] left by the counter
    (modulo [n]) and increments it.  Seeds are accepted in the range
    numpy accepts, [0 .. 2^32 - 1]. *)

Definition rotate {A} (k : nat) (l : list A) : list A := skipn k l ++ firstn k l.

Definition rot_seed (seed : Z) : result nat :=
  if ((0 <=? seed) && (seed <? 2 ^ 32))%Z then Ok (Z.to_nat seed)
  else Raise ValueError.

Definition rot_draw (g n : nat) : list nat * nat :=
  (rotate (g mod n) (seq 0 n), S g).

Lemma rotate_perm {A} (k : nat) (l : list A) : Permutation l (rotate k l).
Proof.
  unfold rotate.
  rewrite <- (firstn_skipn k l) at 1.
  apply Permutation_app_comm.
Qed.

#[export] Instance RotGen : RandomGen := {|
  rng := nat;
  RandomState := rot_seed;
  permutation := rot_draw;
  permutation_spec := fun g n => rotate_perm (g mod n) (seq 0 n)
|}.

(* ------------------------------------------------------------------ *)
(** ** Running several calls in a row *)

Section Driver.

Context {G : RandomGen}.

(** The public methods a caller can invoke. *)
Inductive call : Type :=
| CallSetup
| CallReset
| CallIter
| CallNext
| CallLen.

(** What a call returns. *)
Inductive value : Type :=
| VNone
| VInt (n : nat)
| VList (ids : list Z).

Definition do_call (c : call) : M G value :=
  fun w =>
    match c with
    | CallSetup => (fst (setup w), match snd (setup w) with Ok _ => Ok VNone | Raise e => Raise e end)
    | CallReset => (fst (reset w), match snd (reset w) with Ok _ => Ok VNone | Raise e => Raise e end)
    | CallIter => (fst (__iter__ w), match snd (__iter__ w) with Ok _ => Ok VNone | Raise e => Raise e end)
    | CallNext => (fst (__next__ w), match snd (__next__ w) with Ok ids => Ok (VList ids) | Raise e => Raise e end)
    | CallLen => (fst (__len__ w), match snd (__len__ w) with Ok n => Ok (VInt n) | Raise e => Raise e end)
    end.

(** A caller that makes the calls one after the other, catching every
    exception, and records each outcome. *)
Fixpoint run (cs : list call) (w : World G) : World G * list (result value) :=
  match cs with
  | [] => (w, [])
  | c :: rest =>
      let '(w1, r) := do_call c w in
      let '(w2, rs) := run rest w1 in
      (w2, r :: rs)
  end.

(** [k] calls of [reset] in a row, stopping at the first exception. *)
Fixpoint resets (k : nat) : M G unit :=
  match k with
  | 0 => ret tt
  | S k' => bind (resets k') (fun _ => reset)
  end.

(** The shuffled batches of the epoch that follows [k] completed
    calls of [reset]. *)
Definition epoch_batches (k : nat) : M G (list (list Z)) :=
  bind (resets k) (fun _ => epoch_prefix).

End Driver.

(* ------------------------------------------------------------------ *)
(** ** Arithmetic and list facts *)

Lemma ceil_div_ok (a b : nat) :
  0 < b -> exists c, ceil_div a b = Ok c /\ a <= c * b /\ c * b < a + b.
Proof.
  intros Hb. unfold ceil_div.
  destruct (Nat.eqb_spec b 0) as [->|_]; [lia|].
  pose proof (Nat.div_mod_eq a b) as Hdm.
  pose proof (Nat.mod_upper_bound a b ltac:(lia)) as Hub.
  destruct (Nat.eqb_spec (a mod b) 0) as [Hz|Hnz]; eexists; (split; [reflexivity|]); nia.
Qed.

Lemma ceil_div_inv (a b c : nat) :
  ceil_div a b = Ok c -> 0 < b /\ a <= c * b /\ c * b < a + b.
Proof.
  intros H. unfold ceil_div in H.
  destruct (Nat.eqb_spec b 0) as [->|Hb]; [discriminate|].
  destruct (ceil_div_ok a b ltac:(lia)) as (c' & Hc' & Hle & Hlt).
  unfold ceil_div in Hc'. destruct (Nat.eqb_spec b 0); [lia|].
  rewrite H in Hc'. injection Hc' as ->. lia.
Qed.

Lemma np_ceil_div_pos (a b : nat) : 0 < b -> np_ceil_div a b = ceil_div a b.
Proof.
  intros Hb. unfold np_ceil_div, ceil_div.
  destruct (Nat.eqb_spec b 0); [lia|reflexivity].
Qed.

Lemma np_ceil_div_ok (a b : nat) :
  0 < b -> exists c, np_ceil_div a b = Ok c /\ a <= c * b /\ c * b < a + b.
Proof. intros Hb. rewrite np_ceil_div_pos by exact Hb. now apply ceil_div_ok. Qed.

Lemma np_ceil_div_inv (a b c : nat) :
  np_ceil_div a b = Ok c -> 0 < b /\ a <= c * b /\ c * b < a + b.
Proof.
  intros H. assert (Hb : 0 < b).
  { unfold np_ceil_div in H. destruct (Nat.eqb_spec b 0); [discriminate|lia]. }
  rewrite np_ceil_div_pos in H by exact Hb. now apply ceil_div_inv.
Qed.

Lemma rows_length {A} (size count : nat) (l : list A) :
  length (rows size count l) = count.
Proof.
  revert l. induction count as [|c IH]; intros l; simpl; [reflexivity|].
  now rewrite IH.
Qed.

Lemma rows_concat {A} (size count : nat) (l : list A) :
  length l = count * size -> concat (rows size count l) = l.
Proof.
  revert l. induction count as [|c IH]; intros l Hl; simpl in *.
  - destruct l; [reflexivity|discriminate].
  - rewrite IH.
    + apply firstn_skipn.
    + rewrite length_skipn. lia.
Qed.

Lemma rows_row_length {A} (size count : nat) (l : list A) :
  count * size <= length l ->
  Forall (fun r => length r = size) (rows size count l).
Proof.
  revert l. induction count as [|c IH]; intros l Hl; simpl in *; constructor.
  - rewrite length_firstn. lia.
  - apply IH. rewrite length_skipn. lia.
Qed.

Lemma rows_nth {A} (size count : nat) (l : list A) (i : nat) :
  i < count ->
  nth_error (rows size count l) i = Some (firstn size (skipn (i * size) l)).
Proof.
  revert l i. induction count as [|c IH]; intros l i Hi; [lia|].
  destruct i as [|i]; simpl.
  - reflexivity.
  - rewrite IH by lia. now rewrite skipn_skipn, (Nat.add_comm (i * size)).
Qed.

Lemma reshape_rows_inv {A} (cols : nat) (l : list A) (b : list (list A)) :
  reshape_rows cols l = Ok b ->
  0 < cols /\ length l = length b * cols /\ concat b = l /\
  Forall (fun r => length r = cols) b.
Proof.
  unfold reshape_rows. intros H.
  destruct (Nat.eqb_spec cols 0) as [|Hc]; [discriminate|].
  destruct (Nat.eqb_spec (length l mod cols) 0) as [Hm|]; [|discriminate].
  injection H as <-.
  assert (Hlen : length l = length l / cols * cols).
  { pose proof (Nat.div_mod_eq (length l) cols). lia. }
  rewrite rows_length. repeat split; try lia.
  - now apply rows_concat.
  - apply rows_row_length. lia.
Qed.

Lemma reshape_rows_ok {A} (cols n : nat) (l : list A) :
  0 < cols -> length l = n * cols ->
  reshape_rows cols l = Ok (rows cols n l).
Proof.
  intros Hc Hl. unfold reshape_rows.
  destruct (Nat.eqb_spec cols 0); [lia|].
  rewrite Hl, Nat.Div0.mod_mul, Nat.div_mul by lia. reflexivity.
Qed.

Lemma reshape_shards_inv {A} (groups : nat) (l : list (list A))
    (sh : list (list (list A))) :
  reshape_shards groups l = Ok sh ->
  0 < groups /\ length l = groups * (length l / groups) /\
  sh = rows (length l / groups) groups l.
Proof.
  unfold reshape_shards. intros H.
  destruct (Nat.eqb_spec groups 0) as [|Hg]; [discriminate|].
  destruct (Nat.eqb_spec (length l mod groups) 0) as [Hm|]; [|discriminate].
  injection H as <-.
  pose proof (Nat.div_mod_eq (length l) groups).
  repeat split; lia.
Qed.

Lemma reshape_shards_ok {A} (groups n : nat) (l : list (list A)) :
  0 < groups -> length l = groups * n ->
  reshape_shards groups l = Ok (rows n groups l).
Proof.
  intros Hg Hl. unfold reshape_shards.
  destruct (Nat.eqb_spec groups 0); [lia|].
  rewrite Hl, (Nat.mul_comm groups n), Nat.Div0.mod_mul, Nat.div_mul by lia.
  reflexivity.
Qed.

Lemma skipn_cons_nth {A} (x : list A) (k : nat) (a : A) :
  nth_error x k = Some a -> skipn k x = a :: skipn (S k) x.
Proof.
  revert x. induction k as [|k IH]; intros [|b x] H; try discriminate.
  - simpl in H. injection H as ->. reflexivity.
  - simpl in H. apply IH in H. exact H.
Qed.

Lemma take_at_seq {A} (x : list A) (k n : nat) :
  k + n <= length x -> take_at x (seq k n) = firstn n (skipn k x).
Proof.
  revert k. induction n as [|n IH]; intros k Hk; [reflexivity|].
  cbn [seq take_at flat_map].
  destruct (nth_error x k) as [a|] eqn:E.
  - rewrite (skipn_cons_nth _ _ _ E). cbn [firstn app].
    f_equal. apply IH. lia.
  - apply nth_error_None in E. lia.
Qed.

Lemma take_at_perm {A} (x : list A) (p : list nat) :
  Permutation (seq 0 (length x)) p -> Permutation x (take_at x p).
Proof.
  intros Hp.
  assert (Hid : take_at x (seq 0 (length x)) = x).
  { rewrite take_at_seq by lia. simpl. apply firstn_all. }
  rewrite <- Hid at 1.
  unfold take_at. clear Hid.
  induction Hp; simpl.
  - constructor.
  - now apply Permutation_app_head.
  - rewrite !app_assoc. apply Permutation_app_tail, Permutation_app_comm.
  - etransitivity; eauto.
Qed.

Lemma Permutation_concat {A} (l l' : list (list A)) :
  Permutation l l' -> Permutation (concat l) (concat l').
Proof.
  induction 1; simpl.
  - constructor.
  - now apply Permutation_app_head.
  - rewrite !app_assoc. apply Permutation_app_tail, Permutation_app_comm.
  - etransitivity; eauto.
Qed.

Lemma Permutation_Forall' {A} (P : A -> Prop) (l l' : list A) :
  Permutation l l' -> Forall P l -> Forall P l'.
Proof.
  intros Hp Hf. rewrite Forall_forall in *. intros a Ha.
  apply Hf. eapply Permutation_in; [symmetry|]; eauto.
Qed.

(** Cutting a list into [groups] runs of [n] and gluing them back. *)
Lemma rows_as_slices {A} (n groups : nat) (l : list A) :
  rows n groups l = map (fun r => firstn n (skipn (r * n) l)) (seq 0 groups).
Proof.
  apply nth_error_ext. intros i.
  destruct (Nat.lt_ge_cases i groups) as [Hi|Hi].
  - rewrite rows_nth by assumption.
    rewrite nth_error_map, nth_error_seq.
    destruct (Nat.ltb_spec i groups); [|lia]. reflexivity.
  - rewrite (proj2 (nth_error_None _ _)) by (rewrite rows_length; lia).
    rewrite (proj2 (nth_error_None _ _)) by (rewrite length_map, length_seq; lia).
    reflexivity.
Qed.

(* ------------------------------------------------------------------ *)
(** ** Reasoning about computations *)

Section Frames.

Context {G : RandomGen}.

Lemma bind_inv {A B} (m : M G A) (k : A -> M G B) (w w' : World G) (r : result B) :
  bind m k w = (w', r) ->
  (exists w1 a, m w = (w1, Ok a) /\ k a w1 = (w', r)) \/
  (exists e, m w = (w', Raise e) /\ r = Raise e).
Proof.
  unfold bind. destruct (m w) as [w1 [a|e]]; intros H.
  - left. eauto.
  - right. injection H as <- <-. eauto.
Qed.

Lemma bind_ok_inv {A B} (m : M G A) (k : A -> M G B) (w w' : World G) (b : B) :
  bind m k w = (w', Ok b) ->
  exists w1 a, m w = (w1, Ok a) /\ k a w1 = (w', Ok b).
Proof.
  intros H. apply bind_inv in H. destruct H as [H|(e & _ & H)]; [exact H|discriminate].
Qed.

Lemma bind_ok {A B} (m : M G A) (k : A -> M G B) (w w1 : World G) (a : A) :
  m w = (w1, Ok a) -> bind m k w = k a w1.
Proof. intros H. unfold bind. now rewrite H. Qed.

Lemma bind_raise {A B} (m : M G A) (k : A -> M G B) (w w1 : World G) (e : exn) :
  m w = (w1, Raise e) -> bind m k w = (w1, Raise e).
Proof. intros H. unfold bind. now rewrite H. Qed.

(** The world after an update of the sampler's attributes. *)
Definition upd (f : Sampler -> Sampler) (w : World G) : World G :=
  {| np_random := np_random w; self := f (self w) |}.

(** An invariant kept by a computation, whether or not it raises. *)
Definition preserves {A} (I : World G -> Prop) (m : M G A) : Prop :=
  forall w, I w -> I (fst (m w)).

Definition stable (I : World G -> Prop) (f : Sampler -> Sampler) : Prop :=
  forall w, I w -> I (upd f w).

Lemma preserves_ret {A} I (a : A) : preserves I (ret a).
Proof. intros w H. exact H. Qed.

Lemma preserves_raise {A} I (e : exn) : preserves I (@raise G A e).
Proof. intros w H. exact H. Qed.

Lemma preserves_lift {A} I (r : result A) : preserves I (lift r).
Proof. intros w H. exact H. Qed.

Lemma preserves_getattr {A} I (o : option A) : preserves I (getattr o).
Proof. intros w H. destruct o; exact H. Qed.

Lemma preserves_get_self I : preserves I get_self.
Proof. intros w H. exact H. Qed.

Lemma preserves_modify I f : stable I f -> preserves I (modify_self f).
Proof. intros Hf w H. apply Hf, H. Qed.

Lemma preserves_bind {A B} I (m : M G A) (k : A -> M G B) :
  preserves I m -> (forall a, preserves I (k a)) -> preserves I (bind m k).
Proof.
  intros Hm Hk w H. unfold bind.
  specialize (Hm w H). destruct (m w) as [w1 [a|e]]; simpl in *.
  - apply Hk, Hm.
  - exact Hm.
Qed.

(** Invariants that do not look at the schedule attributes, at the
    cursor, at the epoch counter or at the process-wide generator. *)
Definition schedule_stable (I : World G -> Prop) : Prop :=
  (forall v, stable I (set_num_batches v)) /\
  (forall v, stable I (set_bucket_flags v)) /\
  (forall v, stable I (set_bucket_sizes v)) /\
  (forall v, stable I (set_pad_lengths v)).

Definition generator_stable (I : World G -> Prop) : Prop :=
  forall g w, I w -> I {| np_random := g; self := self w |}.

Ltac preserve_step :=
  match goal with
  | |- preserves _ (bind _ _) => apply preserves_bind; [|intros ?]
  | |- preserves _ (ret _) => apply preserves_ret
  | |- preserves _ (raise _) => apply preserves_raise
  | |- preserves _ (lift _) => apply preserves_lift
  | |- preserves _ (getattr _) => apply preserves_getattr
  | |- preserves _ get_self => apply preserves_get_self
  | |- preserves _ (modify_self _) => apply preserves_modify
  | |- preserves _ (match ?x with _ => _ end) => destruct x
  | |- preserves _ (if ?x then _ else _) => destruct x
  end.

Lemma setup_preserves I : schedule_stable I -> preserves I setup.
Proof.
  intros (H1 & H2 & H3 & H4). unfold setup.
  repeat preserve_step; auto.
Qed.

Lemma ensure_setup_preserves I : preserves I setup -> preserves I ensure_setup.
Proof. intros H. unfold ensure_setup. repeat preserve_step; auto. Qed.

Lemma len_preserves I : preserves I setup -> preserves I __len__.
Proof.
  intros H. unfold __len__.
  repeat preserve_step; auto using ensure_setup_preserves.
Qed.

Lemma rand_perm_preserves {A} I src (x : list A) :
  generator_stable I -> preserves I (rand_perm src x).
Proof.
  intros Hg. destruct src; simpl; try apply preserves_ret.
  intros w H. simpl. apply Hg, H.
Qed.

Lemma choose_rand_perm_preserves I :
  (forall v, stable I (set_epoch v)) -> preserves I choose_rand_perm.
Proof.
  intros He. unfold choose_rand_perm.
  repeat preserve_step; auto.
  intros w H. apply (He _ w H).
Qed.

Lemma bucket_loop_preserves I zs : forall idx src acc,
  generator_stable I -> preserves I (bucket_loop idx zs src acc).
Proof.
  induction zs as [|[size pad] rest IH]; intros idx src acc Hg; simpl.
  - apply preserves_ret.
  - destruct (size =? 0); [now apply IH|].
    repeat preserve_step; auto using rand_perm_preserves.
Qed.

Lemma draw_indices_preserves I src :
  generator_stable I -> preserves I setup -> preserves I (draw_indices src).
Proof.
  intros Hg Hs. unfold draw_indices.
  repeat preserve_step;
    auto using rand_perm_preserves, bucket_loop_preserves, len_preserves.
Qed.

Lemma shuffled_batches_preserves I :
  generator_stable I -> preserves I setup -> preserves I choose_rand_perm ->
  preserves I shuffled_batches.
Proof.
  intros Hg Hs He. unfold shuffled_batches.
  repeat preserve_step;
    auto using rand_perm_preserves, draw_indices_preserves.
Qed.

Lemma compute_shard_preserves I :
  generator_stable I -> preserves I setup -> preserves I choose_rand_perm ->
  preserves I compute_shard.
Proof.
  intros Hg Hs He. unfold compute_shard.
  repeat preserve_step;
    auto using ensure_setup_preserves, shuffled_batches_preserves.
Qed.

Lemma reset_preserves I :
  preserves I compute_shard ->
  (forall v, stable I (set_shard v)) ->
  (forall v, stable I (set_step v)) ->
  preserves I reset.
Proof.
  intros Hc Hsh Hst. unfold reset.
  repeat preserve_step; auto.
Qed.

Lemma iter_preserves I :
  preserves I setup -> preserves I reset -> preserves I __iter__.
Proof.
  intros Hs Hr. unfold __iter__.
  repeat preserve_step; auto using ensure_setup_preserves.
Qed.

Lemma next_preserves I :
  (forall v, stable I (set_step v)) -> preserves I __next__.
Proof.
  intros Hst. unfold __next__.
  repeat preserve_step; auto.
  intros w H. apply (Hst _ w H).
Qed.

End Frames.

(* ------------------------------------------------------------------ *)
(** ** What each method does *)

Section MethodFacts.

Context {G : RandomGen}.

Lemma reset_unfold (w : World G) :
  reset w =
  match compute_shard w with
  | (w1, Ok shard) => (upd (set_step 0) (upd (set_shard shard) w1), Ok tt)
  | (w1, Raise e) => (w1, Raise e)
  end.
Proof.
  unfold reset, bind, modify_self, upd.
  destruct (compute_shard w) as [w1 [shard|e]]; reflexivity.
Qed.

Lemma choose_rand_perm_unfold (w : World G) :
  choose_rand_perm w =
  if negb (shuffle (self w)) then (w, Ok Identity)
  else if sync_seed_schedule (self w) then
    match RandomState (Z.of_nat (epoch (self w)) + init_seed (self w))%Z with
    | Ok g => (upd (set_epoch (epoch (self w) + 1)) w, Ok (Seeded g))
    | Raise e => (w, Raise e)
    end
  else (w, Ok Shared).
Proof.
  unfold choose_rand_perm, bind, get_self, ret, lift, modify_self, upd.
  destruct (shuffle (self w)); simpl; [|reflexivity].
  destruct (sync_seed_schedule (self w)); [|reflexivity].
  destruct (RandomState _); reflexivity.
Qed.

Lemma ensure_setup_ready (w : World G) :
  has (num_batches (self w)) = true -> ensure_setup w = (w, Ok tt).
Proof.
  intros H. unfold ensure_setup, bind, get_self, ret. now rewrite H.
Qed.

Lemma ensure_setup_fresh (w : World G) :
  has (num_batches (self w)) = false -> ensure_setup w = setup w.
Proof.
  intros H. unfold ensure_setup, bind, get_self. now rewrite H.
Qed.

Lemma len_ready (w : World G) (n : nat) :
  num_batches (self w) = Some n -> __len__ w = (w, Ok n).
Proof.
  intros H. unfold __len__.
  rewrite (bind_ok _ _ _ _ _ (ensure_setup_ready w ltac:(now rewrite H))).
  unfold bind, get_self, getattr, ret. now rewrite H.
Qed.

Lemma iter_ready (w : World G) :
  has (num_batches (self w)) = true -> has (_shard (self w)) = true ->
  __iter__ w = (w, Ok tt).
Proof.
  intros Hn Hs. unfold __iter__.
  rewrite (bind_ok _ _ _ _ _ (ensure_setup_ready w Hn)).
  unfold bind, get_self, ret. now rewrite Hs.
Qed.

Lemma next_stop (w : World G) (n : nat) :
  num_batches (self w) = Some n -> n <= _step (self w) ->
  __next__ w = (w, Raise StopIteration).
Proof.
  intros Hn Hle. unfold __next__, bind, get_self, getattr, ret, raise.
  rewrite Hn. now rewrite (proj2 (Nat.leb_le _ _) Hle).
Qed.

(** The value [__next__] returns for a row of the shard. *)
Definition visible (pad : bool) (row : list Z) : list Z :=
  if pad then row else filter (fun idx => negb (idx =? -1)%Z) row.

Lemma next_yield (w : World G) (n : nat) (shard : list (list Z)) (row : list Z) :
  num_batches (self w) = Some n -> _step (self w) < n ->
  _shard (self w) = Some shard -> nth_error shard (_step (self w)) = Some row ->
  __next__ w =
  (upd (set_step (_step (self w) + 1)) w, Ok (visible (pad_batch (self w)) row)).
Proof.
  intros Hn Hlt Hs Hr.
  unfold __next__, bind, get_self, getattr, ret, raise, lift, index, modify_self, upd, visible.
  rewrite Hn. destruct (Nat.leb_spec n (_step (self w))); [lia|].
  rewrite Hs, Hr. destruct (pad_batch (self w)); reflexivity.
Qed.

(** An invariant of every public method holds after any sequence of
    calls. *)
Definition method_invariant (I : World G -> Prop) : Prop :=
  preserves I setup /\ preserves I reset /\ preserves I __iter__ /\
  preserves I __next__ /\ preserves I __len__.

Lemma method_invariant_intro (I : World G -> Prop) :
  preserves I setup -> preserves I compute_shard ->
  (forall v, stable I (set_shard v)) ->
  (forall v, stable I (set_step v)) ->
  method_invariant I.
Proof.
  intros Hs Hc Hsh Hst.
  assert (Hr : preserves I reset) by now apply reset_preserves.
  repeat split; auto using iter_preserves, next_preserves, len_preserves.
Qed.

Lemma do_call_preserves (I : World G -> Prop) (c : call) :
  method_invariant I -> preserves I (do_call c).
Proof.
  intros (Hs & Hr & Hi & Hn & Hl) w H. destruct c; simpl; auto.
Qed.

Lemma run_preserves (I : World G -> Prop) (cs : list call) :
  method_invariant I -> forall w, I w -> I (fst (run cs w)).
Proof.
  intros HI. induction cs as [|c cs IH]; intros w H; simpl; [exact H|].
  destruct (do_call c w) as [w1 r] eqn:E1.
  pose proof (do_call_preserves I c HI w H) as H1. rewrite E1 in H1. simpl in H1.
  specialize (IH w1 H1). destruct (run cs w1) as [w2 rs]. exact IH.
Qed.

(** The constructor's attributes never change. *)
Definition same_config (s s' : Sampler) : Prop :=
  dataset s' = dataset s /\ batch_size s' = batch_size s /\
  shuffle s' = shuffle s /\
  aspect_ratio_thresholds s' = aspect_ratio_thresholds s /\
  pad_batch s' = pad_batch s /\
  sync_seed_schedule s' = sync_seed_schedule s /\
  rank s' = rank s /\ world_size s' = world_size s /\
  init_seed s' = init_seed s.

Lemma same_config_refl s : same_config s s.
Proof. repeat split. Qed.

Lemma config_invariant (s : Sampler) :
  method_invariant (fun w => same_config s (self w)).
Proof.
  apply method_invariant_intro.
  - apply setup_preserves. split; [|split; [|split]]; intros v w H; exact H.
  - apply compute_shard_preserves.
    + intros g w H; exact H.
    + apply setup_preserves. split; [|split; [|split]]; intros v w H; exact H.
    + apply choose_rand_perm_preserves. intros v w H; exact H.
  - intros v w H; exact H.
  - intros v w H; exact H.
Qed.

(** The stages a successful [compute_shard] went through. *)
Lemma compute_shard_stages (w w' : World G) (shard : list (list Z)) :
  compute_shard w = (w', Ok shard) ->
  exists w1 w2 src w3 stream src' batches permuted src'' shards,
    ensure_setup w = (w1, Ok tt) /\
    choose_rand_perm w1 = (w2, Ok src) /\
    draw_indices src w2 = (w3, Ok (stream, src')) /\
    reshape_rows (batch_size (self w3)) stream = Ok batches /\
    rand_perm src' batches w3 = (w', Ok (permuted, src'')) /\
    reshape_shards (world_size (self w')) permuted = Ok shards /\
    index shards (rank (self w')) = Ok shard /\
    epoch_prefix w = (w', Ok permuted).
Proof.
  unfold compute_shard, epoch_prefix. intros H.
  apply bind_ok_inv in H. destruct H as (w1 & [] & H1 & H).
  apply bind_ok_inv in H. destruct H as (wp & permuted & Hp & H).
  rewrite (bind_ok _ _ _ _ _ H1). pose proof Hp as Hpre.
  unfold shuffled_batches in Hp.
  apply bind_ok_inv in Hp. destruct Hp as (w2 & src & H2 & Hp).
  apply bind_ok_inv in Hp. destruct Hp as (w3 & [stream src'] & H3 & Hp).
  apply bind_ok_inv in Hp. destruct Hp as (w3' & s3 & Hg & Hp).
  unfold get_self in Hg. injection Hg as <- <-.
  apply bind_ok_inv in Hp. destruct Hp as (w3' & batches & Hb & Hp).
  unfold lift in Hb. injection Hb as <- Hb.
  apply bind_ok_inv in Hp. destruct Hp as (w4 & [permuted' src''] & H4 & Hp).
  unfold ret in Hp. injection Hp as <- <-.
  apply bind_ok_inv in H. destruct H as (w4' & s4 & Hg & H).
  unfold get_self in Hg. injection Hg as <- <-.
  apply bind_ok_inv in H. destruct H as (w4' & shards & Hs & H).
  unfold lift in Hs. injection Hs as <- Hs.
  unfold lift in H. injection H as <- H.
  exists w1, w2, src, w3, stream, src', batches, permuted', src'', shards.
  repeat split; assumption.
Qed.

End MethodFacts.

(* ------------------------------------------------------------------ *)
(** ** The cursor at the end of a shard *)

Section Cursor.

Context {G : RandomGen}.

Definition keeps_shard (c : call) : Prop :=
  c = CallIter \/ c = CallNext \/ c = CallLen.

Lemma exhausted_call (w : World G) (n : nat) (c : call) :
  num_batches (self w) = Some n -> n <= _step (self w) ->
  has (_shard (self w)) = true -> keeps_shard c ->
  fst (do_call c w) = w /\
  (c = CallNext -> snd (do_call c w) = Raise StopIteration).
Proof.
  intros Hn Hle Hs [-> | [-> | ->]]; simpl.
  - rewrite iter_ready; [|now rewrite Hn|assumption]. split; [reflexivity|discriminate].
  - rewrite (next_stop w n Hn Hle). split; reflexivity.
  - rewrite (len_ready w n Hn). split; [reflexivity|discriminate].
Qed.

(** C9.  When [_step >= num_batches], [__next__] raises [StopIteration]
    and changes nothing; and as long as only [__iter__], [__next__] and
    [__len__] are called on a sampler that holds a shard, the world
    stays as it is and every [__next__] raises [StopIteration] again:
    iteration resumes only through a call of [reset]. *)
Theorem next_after_exhaustion (w : World G) (n : nat) :
  num_batches (self w) = Some n -> n <= _step (self w) ->
  __next__ w = (w, Raise StopIteration) /\
  (has (_shard (self w)) = true ->
   forall cs, Forall keeps_shard cs ->
     fst (run cs w) = w /\
     forall i, nth_error cs i = Some CallNext ->
               nth_error (snd (run cs w)) i = Some (Raise StopIteration)).
Proof.
  intros Hn Hle. split; [now apply (next_stop w n)|].
  intros Hs cs Hcs. induction Hcs as [|c cs Hc _ IH]; simpl.
  - split; [reflexivity|]. intros [|i]; discriminate.
  - destruct (exhausted_call w n c Hn Hle Hs Hc) as [Hw Hr].
    destruct (do_call c w) as [w1 r] eqn:E. simpl in Hw, Hr. subst w1.
    destruct (run cs w) as [w2 rs]. simpl in IH. destruct IH as [IHw IHr].
    split; [exact IHw|].
    intros [|i] Hi; simpl in *.
    + injection Hi as ->. now rewrite Hr.
    + now apply IHr.
Qed.

End Cursor.

(* ------------------------------------------------------------------ *)
(** ** The epoch counter *)

Section Epoch.

Context {G : RandomGen}.

Definition epoch_is (e : nat) (w : World G) : Prop := epoch (self w) = e.

Lemma epoch_setup (e : nat) : preserves (epoch_is e) setup.
Proof. apply setup_preserves. split; [|split; [|split]]; intros v w H; exact H. Qed.

Lemma epoch_generator (e : nat) : generator_stable (epoch_is e).
Proof. intros g w H; exact H. Qed.

Lemma epoch_draw_indices (e : nat) src : preserves (epoch_is e) (draw_indices src).
Proof. apply draw_indices_preserves; auto using epoch_generator, epoch_setup. Qed.

(** With [shuffle] or [sync_seed_schedule] off, [reset] never reaches
    the increment. *)
Definition epoch_held (e : nat) (w : World G) : Prop :=
  epoch (self w) = e /\
  shuffle (self w) && sync_seed_schedule (self w) = false.

Lemma epoch_held_compute_shard (e : nat) : preserves (epoch_held e) compute_shard.
Proof.
  apply compute_shard_preserves.
  - intros g w H; exact H.
  - apply setup_preserves. split; [|split; [|split]]; intros v w H; exact H.
  - intros w [He Hc]. rewrite choose_rand_perm_unfold.
    destruct (shuffle (self w)) eqn:Esh; simpl in *.
    + rewrite Hc. simpl. unfold epoch_held. now rewrite Esh.
    + unfold epoch_held. now rewrite Esh.
Qed.

Lemma epoch_after_reset_ok (w w' : World G) :
  shuffle (self w) && sync_seed_schedule (self w) = true ->
  reset w = (w', Ok tt) -> epoch (self w') = epoch (self w) + 1.
Proof.
  intros Hc H. rewrite reset_unfold in H.
  destruct (compute_shard w) as [wc [shard|e]] eqn:Ec; [|discriminate].
  injection H as <-. simpl.
  apply compute_shard_stages in Ec.
  destruct Ec as (w1 & w2 & src & w3 & stream & src' & batches & permuted
                  & src'' & shards & H1 & H2 & H3 & _ & H4 & _).
  pose proof (ensure_setup_preserves _ (epoch_setup (epoch (self w))) w eq_refl) as E1.
  pose proof (ensure_setup_preserves _
                (proj1 (config_invariant (self w))) w (same_config_refl _)) as C1.
  rewrite H1 in E1, C1. simpl in E1, C1. unfold epoch_is in E1.
  destruct C1 as (_ & _ & Csh & _ & _ & Csy & _).
  rewrite choose_rand_perm_unfold in H2. rewrite Csh, Csy in H2.
  apply andb_prop in Hc. destruct Hc as [Hsh Hsy]. rewrite Hsh, Hsy in H2. simpl in H2.
  destruct (RandomState _); [|discriminate]. injection H2 as <- _.
  pose proof (epoch_draw_indices (epoch (self w) + 1) src
                (upd (set_epoch (epoch (self w1) + 1)) w1)) as E3.
  rewrite H3 in E3. simpl in E3. unfold epoch_is in E3. simpl in E3.
  pose proof (rand_perm_preserves _ src' batches
                (epoch_generator (epoch (self w) + 1)) w3) as E4.
  rewrite H4 in E4. simpl in E4. unfold epoch_is in E4.
  apply E4, E3. now rewrite E1.
Qed.

(** C7, as the code has it.  A call of [reset] that returns normally
    adds exactly one to the epoch counter when [shuffle] and
    [sync_seed_schedule] are both true; with either of them false
    [reset] leaves the counter as it is, whether it returns or raises.
    [setup], [__next__] and [__len__] never change the counter, nor does
    [__iter__] on a sampler that already holds a shard. *)
Theorem epoch_counter (w : World G) :
  (shuffle (self w) && sync_seed_schedule (self w) = true ->
   snd (reset w) = Ok tt ->
   epoch (self (fst (reset w))) = epoch (self w) + 1) /\
  (shuffle (self w) && sync_seed_schedule (self w) = false ->
   epoch (self (fst (reset w))) = epoch (self w)) /\
  epoch (self (fst (setup w))) = epoch (self w) /\
  epoch (self (fst (__next__ w))) = epoch (self w) /\
  epoch (self (fst (__len__ w))) = epoch (self w) /\
  (has (_shard (self w)) = true ->
   epoch (self (fst (__iter__ w))) = epoch (self w)).
Proof.
  split; [|split; [|split; [|split; [|split]]]].
  - intros Hc Hr. destruct (reset w) as [w' r] eqn:E. simpl in Hr |- *. subst r.
    now apply (epoch_after_reset_ok w w').
  - intros Hc.
    assert (Hp : preserves (epoch_held (epoch (self w))) reset).
    { apply reset_preserves; [apply epoch_held_compute_shard| |];
        intros v w0 H; exact H. }
    apply (Hp w). now split.
  - apply (epoch_setup (epoch (self w)) w eq_refl).
  - apply (next_preserves (epoch_is (epoch (self w)))); [|reflexivity].
    intros v w0 H; exact H.
  - apply (len_preserves _ (epoch_setup (epoch (self w))) w eq_refl).
  - intros Hs. unfold __iter__.
    assert (Hp : preserves (fun w0 => epoch_is (epoch (self w)) w0
                                      /\ has (_shard (self w0)) = true)
                   (bind ensure_setup (fun _ => bind get_self
                      (fun s => if has (_shard s) then ret tt else reset)))).
    { apply preserves_bind.
      - apply ensure_setup_preserves, setup_preserves.
        split; [|split; [|split]]; intros v w0 H; exact H.
      - intros _ w0 [He Hsh]. unfold bind, get_self. rewrite Hsh. simpl. now split. }
    apply (Hp w). now split.
Qed.

End Epoch.

(* ------------------------------------------------------------------ *)
(** ** The float quotient of line 64 *)

Local Open Scope Z_scope.






Local Close Scope Z_scope.

(* ------------------------------------------------------------------ *)
(** ** The schedule without bucketing *)

Section FlatSchedule.

Context {G : RandomGen}.







End FlatSchedule.



(* ------------------------------------------------------------------ *)
(** ** Concrete runs on the rotating generator *)

(** A dataset of [L] items without aspect ratios. *)
Definition plain (L : nat) : Dataset :=
  {| dataset_len := L; aspect_ratios := None |}.

(** Four items in order, batches of two, one rank, seeding synchronised. *)
Definition ordered_world : World RotGen :=
  {| np_random := 0; self := fresh (plain 4) 2 false None true true 0 1 1%Z |}.

(** The same sampler after one complete pass. *)
Definition drained_world : World RotGen :=
  fst (run [CallIter; CallNext; CallNext] ordered_world).

(** A run of C9 on the drained sampler. *)
Lemma next_after_exhaustion_witness :
  __next__ drained_world = (drained_world, Raise StopIteration) /\
  fst (run [CallIter; CallNext; CallLen; CallNext] drained_world) = drained_world /\
  nth_error (snd (run [CallIter; CallNext; CallLen; CallNext] drained_world)) 3
  = Some (Raise StopIteration).
Proof.
  destruct (next_after_exhaustion drained_world 2 eq_refl (le_n 2)) as [H1 H2].
  split; [exact H1|].
  assert (Hcs : Forall keeps_shard [CallIter; CallNext; CallLen; CallNext]).
  { repeat (apply Forall_cons; [unfold keeps_shard; auto|]). apply Forall_nil. }
  destruct (H2 eq_refl _ Hcs) as [H3 H4].
  split; [exact H3|]. exact (H4 3 eq_refl).
Defined.

(** C7 as stated fails: with [sync_seed_schedule] true and [shuffle]
    false, [reset] returns normally and the epoch counter has not
    moved. *)
Lemma epoch_counter_not_advanced :
  sync_seed_schedule (self ordered_world) = true /\
  snd (reset ordered_world) = Ok tt /\
  epoch (self (fst (reset ordered_world))) = epoch (self ordered_world) /\
  epoch (self (fst (reset ordered_world))) <> epoch (self ordered_world) + 1.
Proof. repeat split. discriminate. Qed.

(** A run of the amended C7: shuffled and synchronised, the counter
    goes from 0 to 1; unshuffled it stays; the other methods leave it. *)
Lemma epoch_counter_witness :
  epoch (self (fst (reset (upd (fun s => fresh (plain 4) 2 true None true true 0 1 1%Z)
                              ordered_world)))) = 0 + 1 /\
  epoch (self (fst (reset ordered_world))) = 0 /\
  epoch (self (fst (__iter__ drained_world))) = 0.
Proof.
  pose proof (epoch_counter
                (upd (fun s => fresh (plain 4) 2 true None true true 0 1 1%Z)
                     ordered_world)) as (H1 & _).
  pose proof (epoch_counter ordered_world) as (_ & H2 & _).
  pose proof (epoch_counter drained_world) as (_ & _ & _ & _ & _ & H3).
  split; [exact (H1 eq_refl eq_refl)|].
  split; [exact (H2 eq_refl)|exact (H3 eq_refl)].
Defined.

(* ------------------------------------------------------------------ *)
(** ** Buckets *)

(** The number of thresholds not above a ratio. *)
Definition thresholds_le (ths : list Q) (x : Q) : nat :=
  length (filter (fun t => Qle_bool t x) ths).

Lemma nondecreasing_tail (b : Q) (t : list Q) :
  nondecreasing (b :: t) = true -> nondecreasing t = true.
Proof.
  destruct t as [|c t]; [reflexivity|].
  cbn [nondecreasing]. intros H. apply andb_prop in H. apply H.
Qed.

Lemma nondecreasing_head (b : Q) (t : list Q) :
  nondecreasing (b :: t) = true -> Forall (fun c => Qle_bool b c = true) t.
Proof.
  revert b. induction t as [|c t IH]; intros b H; constructor.
  - cbn [nondecreasing] in H. apply andb_prop in H. apply H.
  - cbn [nondecreasing] in H. apply andb_prop in H. destruct H as [Hbc Ht].
    specialize (IH c Ht).
    eapply Forall_impl; [|exact IH]. intros d Hcd. simpl in Hcd.
    rewrite Qle_bool_iff in *. eapply Qle_trans; eauto.
Qed.

Lemma searchsorted_right_count (bins : list Q) (x : Q) :
  nondecreasing bins = true -> searchsorted_right bins x = thresholds_le bins x.
Proof.
  unfold thresholds_le.
  induction bins as [|b t IH]; intros H; [reflexivity|].
  cbn [searchsorted_right filter].
  destruct (Qle_bool b x) eqn:E.
  - cbn [length]. f_equal. apply IH. eapply nondecreasing_tail; eauto.
  - apply nondecreasing_head in H.
    assert (Hnil : filter (fun t0 => Qle_bool t0 x) t = []).
    { clear IH. induction H as [|c t Hc _ IHt]; [reflexivity|].
      cbn [filter]. destruct (Qle_bool c x) eqn:Ec; [|exact IHt].
      exfalso. rewrite Qle_bool_iff in Hc, Ec.
      assert (Hbx : Qle_bool b x = true)
        by (rewrite Qle_bool_iff; eapply Qle_trans; eauto).
      congruence. }
    now rewrite Hnil.
Qed.

Lemma digitize_nondecreasing (xs bins : list Q) :
  nondecreasing bins = true ->
  digitize xs bins = Ok (map (searchsorted_right bins) xs).
Proof. intros H. unfold digitize, monotonicity. now rewrite H. Qed.

Lemma where_eq_in (flags : list nat) (b i : nat) :
  In (Z.of_nat i) (where_eq flags b) <-> i < length flags /\ nth i flags 0 = b.
Proof.
  unfold where_eq. rewrite in_map_iff. split.
  - intros (j & Hj & Hin). apply Nat2Z.inj in Hj. subst j.
    apply filter_In in Hin. destruct Hin as [Hs Hb].
    apply in_seq in Hs. apply Nat.eqb_eq in Hb. split; [lia|assumption].
  - intros [Hi Hb]. exists i. split; [reflexivity|].
    apply filter_In. split; [apply in_seq; lia|now apply Nat.eqb_eq].
Qed.

Lemma where_eq_count_from (b : nat) (l : list nat) (k : nat) :
  length (filter (fun i => nth (i - k) l 0 =? b) (seq k (length l)))
  = count_occ Nat.eq_dec l b.
Proof.
  revert k. induction l as [|a l IH]; intros k; [reflexivity|].
  assert (Htail : filter (fun i => nth (i - k) (a :: l) 0 =? b) (seq (S k) (length l))
                  = filter (fun i => nth (i - S k) l 0 =? b) (seq (S k) (length l))).
  { apply filter_ext_in. intros i Hi. apply in_seq in Hi.
    replace (i - k) with (S (i - S k)) by lia. reflexivity. }
  cbn [length seq filter count_occ]. rewrite Nat.sub_diag, Htail. cbn [nth].
  destruct (Nat.eq_dec a b) as [->|Hne].
  - rewrite Nat.eqb_refl. cbn [length]. now rewrite IH.
  - destruct (Nat.eqb_spec a b); [contradiction|]. apply IH.
Qed.

Lemma where_eq_length (flags : list nat) (b : nat) :
  length (where_eq flags b) = count_occ Nat.eq_dec flags b.
Proof.
  unfold where_eq. rewrite length_map, <- (where_eq_count_from b flags 0).
  f_equal. apply filter_ext. intros i. now rewrite Nat.sub_0_r.
Qed.

Lemma bincount_bound (flags : list nat) (f : nat) :
  In f flags -> f < length (bincount flags).
Proof.
  unfold bincount. rewrite length_map, length_seq.
  induction flags as [|a l IH]; intros H; [contradiction|].
  cbn [fold_right]. destruct H as [->|H]; [lia|]. specialize (IH H). lia.
Qed.

Lemma bincount_nth (flags : list nat) (b : nat) :
  b < length (bincount flags) ->
  nth b (bincount flags) 0 = length (where_eq flags b).
Proof.
  unfold bincount. rewrite length_map, length_seq. intros Hb.
  rewrite where_eq_length.
  rewrite (nth_indep _ 0 (count_occ Nat.eq_dec flags 0))
    by (rewrite length_map, length_seq; exact Hb).
  rewrite (map_nth (count_occ Nat.eq_dec flags)), seq_nth by exact Hb.
  reflexivity.
Qed.

Lemma map_result_inv {A B} (f : A -> result B) (l : list A) (bs : list B) :
  map_result f l = Ok bs -> Forall2 (fun a b => f a = Ok b) l bs.
Proof.
  revert bs. induction l as [|a l IH]; intros bs H; simpl in H.
  - injection H as <-. constructor.
  - destruct (f a) as [b|] eqn:Ea; [|discriminate].
    destruct (map_result f l) as [bs'|]; [|discriminate].
    injection H as <-. constructor; auto.
Qed.

Lemma map_result_ok {A B} (f : A -> result B) (l : list A) :
  Forall (fun a => exists b, f a = Ok b) l -> exists bs, map_result f l = Ok bs.
Proof.
  induction 1 as [|a l (b & Hb) _ (bs & IH)]; simpl.
  - eexists; reflexivity.
  - rewrite Hb, IH. eexists; reflexivity.
Qed.

Lemma Forall2_nth_rel {A B} (R : A -> B -> Prop) (l : list A) (l' : list B)
    (da : A) (db : B) :
  Forall2 R l l' ->
  length l = length l' /\ forall i, i < length l -> R (nth i l da) (nth i l' db).
Proof.
  induction 1 as [|a b l l' Hab _ [IHlen IH]]; simpl.
  - split; [reflexivity|]. intros i Hi. lia.
  - split; [now rewrite IHlen|]. intros [|i] Hi; [exact Hab|]. apply IH. lia.
Qed.

Section Buckets.

Context {G : RandomGen}.

(** The pad length [setup] computes for a bucket of [sz] items. *)
Definition pad_length (whole_batch_size sz : nat) : result Z :=
  match np_ceil_div sz whole_batch_size with
  | Ok c => Ok (Z.of_nat (c * whole_batch_size) - Z.of_nat sz)%Z
  | Raise e => Raise e
  end.

Lemma setup_bucketed (w : World G) (ths ratios : list Q) (flags : list nat) :
  aspect_ratio_thresholds (self w) = Some ths ->
  aspect_ratios (dataset (self w)) = Some ratios ->
  digitize ratios ths = Ok flags ->
  let wbs := world_size (self w) * batch_size (self w) in
  let sizes := bincount flags in
  let w2 := upd (set_bucket_sizes sizes) (upd (set_bucket_flags flags) w) in
  setup w =
  match map_result (pad_length wbs) sizes with
  | Raise e => (w2, Raise e)
  | Ok pads =>
      match map_result (fun sz => np_ceil_div sz wbs) sizes with
      | Raise e => (upd (set_pad_lengths pads) w2, Raise e)
      | Ok counts =>
          (upd (set_num_batches (list_sum counts)) (upd (set_pad_lengths pads) w2),
           Ok tt)
      end
  end.
Proof.
  intros Ht Hr Hd. cbv zeta.
  unfold setup, bind, get_self, lift, modify_self, ret, upd, pad_length.
  rewrite Ht, Hr, Hd. cbn [self np_random].
  cbn [world_size batch_size set_bucket_flags set_bucket_sizes].
  destruct (map_result _ (bincount flags)) as [pads|e]; [|reflexivity].
  cbn [self np_random].
  destruct (map_result (fun sz => np_ceil_div sz _) (bincount flags)); reflexivity.
Qed.

(** C6.  When [setup] returns on a sampler with thresholds in ascending
    order over a dataset with aspect ratios: every item's bucket id is
    the number of thresholds less than or equal to its ratio, the item
    is a member of that bucket and of no other, and for every bucket
    [bucket_sizes[b]] counts its members and
    [bucket_sizes[b] + pad_lengths[b]] is a multiple of
    [world_size * batch_size]. *)
Theorem bucket_layout (w w' : World G) (ths ratios : list Q) :
  aspect_ratio_thresholds (self w) = Some ths ->
  nondecreasing ths = true ->
  aspect_ratios (dataset (self w)) = Some ratios ->
  setup w = (w', Ok tt) ->
  exists flags sizes pads,
    bucket_flags (self w') = Some flags /\
    bucket_sizes (self w') = Some sizes /\
    pad_lengths (self w') = Some pads /\
    length flags = length ratios /\ length pads = length sizes /\
    (forall i, i < length ratios ->
       nth i flags 0 = thresholds_le ths (nth i ratios 0%Q) /\
       nth i flags 0 < length sizes /\
       forall b, In (Z.of_nat i) (where_eq flags b) <-> b = nth i flags 0) /\
    (forall b, b < length sizes ->
       nth b sizes 0 = length (where_eq flags b) /\
       (0 <= nth b pads 0%Z)%Z /\
       exists k : nat,
         (Z.of_nat (nth b sizes 0%nat) + nth b pads 0%Z)%Z
         = Z.of_nat (k * (world_size (self w) * batch_size (self w)))).
Proof.
  intros Ht Hmono Hr Hs.
  pose proof (digitize_nondecreasing ratios ths Hmono) as Hd.
  rewrite (setup_bucketed w ths ratios _ Ht Hr Hd) in Hs. cbv zeta in Hs.
  set (flags := map (searchsorted_right ths) ratios) in *.
  set (wbs := world_size (self w) * batch_size (self w)) in *.
  destruct (map_result (pad_length wbs) (bincount flags)) as [pads|] eqn:Ep;
    [|discriminate].
  destruct (map_result (fun sz => np_ceil_div sz wbs) (bincount flags)) as [counts|];
    [|discriminate].
  injection Hs as <-.
  apply map_result_inv in Ep.
  destruct (Forall2_nth_rel _ _ _ 0 0%Z Ep) as [Hlen Hnth].
  exists flags, (bincount flags), pads.
  assert (Hfl : length flags = length ratios) by (subst flags; apply length_map).
  repeat split; try reflexivity; auto.
  - subst flags. rewrite (nth_indep _ 0 (searchsorted_right ths 0%Q))
      by (rewrite length_map; assumption).
    rewrite map_nth. now apply searchsorted_right_count.
  - apply bincount_bound, nth_In. lia.
  - intros Hin. apply where_eq_in in Hin. now destruct Hin.
  - intros ->. apply where_eq_in. split; [lia|reflexivity].
  - now apply bincount_nth.
  - specialize (Hnth b H). unfold pad_length in Hnth.
    destruct (np_ceil_div _ wbs) as [c|] eqn:Ec; [|discriminate].
    injection Hnth as <-. apply np_ceil_div_inv in Ec. lia.
  - specialize (Hnth b H). unfold pad_length in Hnth.
    destruct (np_ceil_div _ wbs) as [c|] eqn:Ec; [|discriminate].
    injection Hnth as <-. exists c. lia.
Qed.

(** With thresholds in ascending order, aspect ratios on the dataset
    and a positive [world_size * batch_size], [setup] returns. *)
Lemma setup_bucketed_returns (w : World G) (ths ratios : list Q) :
  aspect_ratio_thresholds (self w) = Some ths ->
  nondecreasing ths = true ->
  aspect_ratios (dataset (self w)) = Some ratios ->
  0 < world_size (self w) * batch_size (self w) ->
  snd (setup w) = Ok tt.
Proof.
  intros Ht Hmono Hr Hpos.
  pose proof (digitize_nondecreasing ratios ths Hmono) as Hd.
  rewrite (setup_bucketed w ths ratios _ Ht Hr Hd). cbv zeta.
  set (sizes := bincount _). set (wbs := _ * _) in *.
  destruct (map_result_ok (pad_length wbs) sizes) as (pads & ->).
  { apply Forall_forall. intros sz _. unfold pad_length.
    destruct (np_ceil_div_ok sz wbs Hpos) as (c & -> & _). eauto. }
  destruct (map_result_ok (fun sz => np_ceil_div sz wbs) sizes) as (counts & ->).
  { apply Forall_forall. intros sz _.
    destruct (np_ceil_div_ok sz wbs Hpos) as (c & -> & _). eauto. }
  reflexivity.
Qed.

End Buckets.

(** Five items with aspect ratios, two thresholds, batches of two. *)
Definition bucketed_world : World RotGen :=
  {| np_random := 0;
     self := fresh {| dataset_len := 5;
                      aspect_ratios := Some [1 # 2; 3 # 2; 1 # 1; 5 # 2; 4 # 5]%Q |}
                   2 true (Some [1 # 1; 2 # 1]%Q) true true 0 1 1%Z |}.

(** A run of C6: flags [0;1;1;2;0], sizes [2;2;1], pads [0;0;1]. *)
Lemma bucket_layout_witness :
  exists flags sizes pads,
    bucket_flags (self (fst (setup bucketed_world))) = Some flags /\
    bucket_sizes (self (fst (setup bucketed_world))) = Some sizes /\
    pad_lengths (self (fst (setup bucketed_world))) = Some pads /\
    length flags = 5 /\ length pads = length sizes /\
    (forall i, i < 5 ->
       nth i flags 0 = thresholds_le [1 # 1; 2 # 1]%Q
                         (nth i [1 # 2; 3 # 2; 1 # 1; 5 # 2; 4 # 5]%Q 0%Q) /\
       nth i flags 0 < length sizes /\
       forall b, In (Z.of_nat i) (where_eq flags b) <-> b = nth i flags 0) /\
    (forall b, b < length sizes ->
       nth b sizes 0 = length (where_eq flags b) /\
       (0 <= nth b pads 0%Z)%Z /\
       exists k : nat,
         (Z.of_nat (nth b sizes 0%nat) + nth b pads 0%Z)%Z = Z.of_nat (k * (1 * 2))).
Proof.
  apply (bucket_layout bucketed_world (fst (setup bucketed_world))
           [1 # 1; 2 # 1]%Q [1 # 2; 3 # 2; 1 # 1; 5 # 2; 4 # 5]%Q);
    reflexivity.
Defined.

(* ------------------------------------------------------------------ *)
(** ** The index stream without bucketing *)

Section FlatStream.

Context {G : RandomGen}.

(** The stream of [reset]'s [else] branch: the permuted range followed
    by its own prefix, or by sentinels. *)
Definition flat_stream (pad_batch : bool) (shuffled : list Z) (pad : Z) : list Z :=
  shuffled ++ (if pad_batch then slice_to shuffled pad else list_times (-1)%Z pad).

Lemma rand_perm_ok {A} (src : perm_src) (x : list A) (w : World G) :
  exists w' y src',
    rand_perm src x w = (w', Ok (y, src')) /\
    Permutation x y /\ self w' = self w /\
    (src = Identity -> y = x /\ src' = Identity /\ w' = w).
Proof.
  destruct src as [|g|]; simpl.
  - exists w, x, Identity. repeat split; auto.
  - exists w, (take_at x (fst (permutation g (length x)))),
      (Seeded (snd (permutation g (length x)))).
    repeat split; try discriminate.
    apply take_at_perm, permutation_spec.
  - eexists _, _, _. split; [reflexivity|].
    repeat split; try discriminate.
    apply take_at_perm, permutation_spec.
Qed.

Lemma setup_ok_has (w w' : World G) :
  setup w = (w', Ok tt) -> exists n, num_batches (self w') = Some n.
Proof.
  unfold setup, bind, get_self, lift, modify_self, ret, raise.
  destruct (aspect_ratio_thresholds (self w)).
  - destruct (aspect_ratios (dataset (self w))); [|discriminate].
    destruct (digitize _ _); [|discriminate]. cbn [self np_random].
    destruct (map_result _ _); [|discriminate]. cbn [self np_random].
    destruct (map_result _ _); [|discriminate]. cbn [self np_random].
    intros H. injection H as <-. simpl. eauto.
  - destruct (ceil_div _ _); [|discriminate].
    intros H. injection H as <-. simpl. eauto.
Qed.

Lemma ensure_setup_ok_has (w w' : World G) :
  ensure_setup w = (w', Ok tt) -> exists n, num_batches (self w') = Some n.
Proof.
  destruct (has (num_batches (self w))) eqn:E.
  - rewrite (ensure_setup_ready w E). intros H. injection H as <-.
    destruct (num_batches (self w)); [eauto|discriminate].
  - rewrite (ensure_setup_fresh w E). apply setup_ok_has.
Qed.

Lemma draw_indices_flat (src : perm_src) (w : World G) (n : nat) :
  truthy (aspect_ratio_thresholds (self w)) = false ->
  num_batches (self w) = Some n ->
  exists w' shuffled src',
    draw_indices src w =
    (w', Ok (flat_stream (pad_batch (self w)) shuffled
               (Z.of_nat (n * (world_size (self w) * batch_size (self w)))
                - Z.of_nat (dataset_len (dataset (self w)))), src')) /\
    Permutation (arange (dataset_len (dataset (self w)))) shuffled /\
    self w' = self w /\
    (src = Identity ->
     shuffled = arange (dataset_len (dataset (self w))) /\ src' = Identity /\ w' = w).
Proof.
  intros Ht Hn.
  destruct (rand_perm_ok src (arange (dataset_len (dataset (self w)))) w)
    as (w' & shuffled & src' & Hr & Hp & Hs & Hid).
  exists w', shuffled, src'. repeat split; auto; try (now apply Hid).
  unfold draw_indices. unfold bind at 1. unfold get_self at 1. rewrite Ht.
  rewrite (bind_ok _ _ _ _ _ Hr).
  assert (Hn' : num_batches (self w') = Some n) by now rewrite Hs.
  rewrite (bind_ok _ _ _ _ _ (len_ready w' n Hn')).
  unfold flat_stream. destruct (pad_batch (self w)); reflexivity.
Qed.

End FlatStream.

Section FlatShard.

Context {G : RandomGen}.

(** What [compute_shard] leaves alone. *)
Definition kept (s0 : Sampler) (w : World G) : Prop :=
  same_config s0 (self w) /\ _shard (self w) = _shard s0 /\
  _step (self w) = _step s0.

Lemma kept_setup (s0 : Sampler) : preserves (kept s0) setup.
Proof. apply setup_preserves. split; [|split; [|split]]; intros v w H; exact H. Qed.

Lemma kept_compute_shard (s0 : Sampler) : preserves (kept s0) compute_shard.
Proof.
  apply compute_shard_preserves.
  - intros g w H; exact H.
  - apply kept_setup.
  - apply choose_rand_perm_preserves. intros v w H; exact H.
Qed.

Lemma choose_rand_perm_fields (w w' : World G) (src : perm_src) :
  choose_rand_perm w = (w', Ok src) ->
  same_config (self w) (self w') /\
  num_batches (self w') = num_batches (self w) /\
  (shuffle (self w) = false -> src = Identity).
Proof.
  rewrite choose_rand_perm_unfold.
  destruct (shuffle (self w)); simpl.
  - destruct (sync_seed_schedule (self w)).
    + destruct (RandomState _); [|discriminate].
      intros H. injection H as <- <-. simpl.
      split; [unfold same_config; repeat split|]. split; [reflexivity|discriminate].
    + intros H. injection H as <- <-.
      split; [apply same_config_refl|]. split; [reflexivity|discriminate].
  - intros H. injection H as <- <-.
    split; [apply same_config_refl|]. split; reflexivity.
Qed.

Lemma index_rows_inv {A} (k groups r : nat) (l : list A) (x : list A) :
  index (rows k groups l) r = Ok x ->
  r < groups /\ x = firstn k (skipn (r * k) l).
Proof.
  unfold index. intros H.
  destruct (Nat.lt_ge_cases r groups) as [Hr|Hr].
  - rewrite rows_nth in H by assumption. injection H as <-. auto.
  - rewrite (proj2 (nth_error_None _ _)) in H by (rewrite rows_length; lia).
    discriminate.
Qed.

(** The shard of a successful [compute_shard] when the thresholds are
    [None] or empty. *)
Lemma compute_shard_flat (w w' : World G) (shard : list (list Z)) :
  truthy (aspect_ratio_thresholds (self w)) = false ->
  compute_shard w = (w', Ok shard) ->
  exists n shuffled batches permuted k,
    num_batches (self w') = Some n /\
    Permutation (arange (dataset_len (dataset (self w)))) shuffled /\
    reshape_rows (batch_size (self w))
      (flat_stream (pad_batch (self w)) shuffled
         (Z.of_nat (n * (world_size (self w) * batch_size (self w)))
          - Z.of_nat (dataset_len (dataset (self w))))) = Ok batches /\
    Permutation batches permuted /\
    length permuted = world_size (self w) * k /\
    rank (self w) < world_size (self w) /\
    shard = firstn k (skipn (rank (self w) * k) permuted) /\
    (shuffle (self w) = false ->
     shuffled = arange (dataset_len (dataset (self w))) /\ permuted = batches) /\
    kept (self w) w' /\
    epoch_prefix w = (w', Ok permuted).
Proof.
  intros Ht H.
  assert (Hk : kept (self w) w').
  { pose proof (kept_compute_shard (self w) w) as Hk. rewrite H in Hk.
    apply Hk. repeat split. }
  apply compute_shard_stages in H.
  destruct H as (w1 & w2 & src & w3 & stream & src' & batches & permuted
                 & src'' & shards & H1 & H2 & H3 & Hb & H4 & Hsh & Hix & Hpre).
  destruct (ensure_setup_ok_has _ _ H1) as (n & Hn1).
  pose proof (ensure_setup_preserves _ (kept_setup (self w)) w) as K1.
  rewrite H1 in K1. specialize (K1 ltac:(repeat split)). simpl in K1.
  destruct K1 as ((Cd1 & CB1 & Csh1 & Ct1 & Cpb1 & Csy1 & Crk1 & CW1 & Cis1) & _ & _).
  destruct (choose_rand_perm_fields _ _ _ H2)
    as ((Cd2 & CB2 & Csh2 & Ct2 & Cpb2 & Csy2 & Crk2 & CW2 & Cis2) & Hn2 & Hid2).
  assert (Ht2 : truthy (aspect_ratio_thresholds (self w2)) = false)
    by now rewrite Ct2, Ct1.
  assert (Hn2' : num_batches (self w2) = Some n) by now rewrite Hn2.
  destruct (draw_indices_flat src w2 n Ht2 Hn2')
    as (w3' & shuffled & src3 & Hd & Hperm & Hs3 & Hid3).
  rewrite Hd in H3. injection H3 as <- <- <-.
  destruct (rand_perm_ok src3 batches w3') as (w4 & y & src4 & Hr & Hpy & Hs4 & Hid4).
  rewrite Hr in H4. injection H4 as <- <- <-.
  apply reshape_shards_inv in Hsh. destruct Hsh as (HW & Hlen & ->).
  apply index_rows_inv in Hix. destruct Hix as [Hrk ->].
  rewrite Hs4, Hs3 in *.
  rewrite CB2, CB1, Cpb2, Cpb1, CW2, CW1, Cd2, Cd1 in *.
  rewrite Crk2, Crk1 in *.
  exists n, shuffled, batches, y, (length y / world_size (self w)).
  split; [now rewrite Hn2|]. split; [exact Hperm|]. split; [exact Hb|].
  split; [exact Hpy|]. split; [exact Hlen|]. split; [exact Hrk|].
  split; [reflexivity|]. split; [|split; [exact Hk|exact Hpre]].
  intros Hsf. rewrite <- Csh1 in Hsf. specialize (Hid2 Hsf).
  destruct (Hid3 Hid2) as (-> & -> & _).
  destruct (Hid4 eq_refl) as (-> & _). split; reflexivity.
Qed.

End FlatShard.

(* ------------------------------------------------------------------ *)
(** ** The consumer's loop *)

Lemma in_slice {A} (k j : nat) (l : list A) (x : A) :
  In x (firstn k (skipn j l)) -> In x l.
Proof.
  intros H. rewrite <- (firstn_skipn j l). apply in_or_app. right.
  rewrite <- (firstn_skipn k (skipn j l)). apply in_or_app. now left.
Qed.

Lemma set_step_same (s : Sampler) : set_step (_step s) s = s.
Proof. now destruct s. Qed.

Section Loop.

Context {G : RandomGen}.

Lemma upd_step_same (w : World G) (n : nat) :
  _step (self w) = n -> upd (set_step n) w = w.
Proof.
  intros <-. unfold upd. rewrite set_step_same. now destruct w.
Qed.

Lemma next_ok_inv (w w' : World G) (ids : list Z) :
  __next__ w = (w', Ok ids) ->
  exists n shard row,
    num_batches (self w) = Some n /\ _step (self w) < n /\
    _shard (self w) = Some shard /\
    nth_error shard (_step (self w)) = Some row /\
    ids = visible (pad_batch (self w)) row /\
    w' = upd (set_step (_step (self w) + 1)) w.
Proof.
  unfold __next__, bind, get_self, getattr, ret, raise, lift, index, modify_self,
    upd, visible.
  destruct (num_batches (self w)) as [n|]; [|discriminate].
  destruct (Nat.leb_spec n (_step (self w))); [discriminate|].
  destruct (_shard (self w)) as [shard|];
    [|destruct (pad_batch (self w)); discriminate].
  destruct (nth_error shard (_step (self w))) as [row|] eqn:E;
    [|destruct (pad_batch (self w)); discriminate].
  destruct (pad_batch (self w)); intros Heq; injection Heq as <- <-;
    exists n, shard, row; repeat split; auto.
Qed.

(** Every list the loop yields is a row of the shard as [__next__]
    shows it. *)
Lemma next_loop_sound (fuel : nat) : forall (w w' : World G) ys r shard,
  next_loop fuel w = Some (w', ys, r) ->
  _shard (self w) = Some shard ->
  Forall (fun ids => exists row, In row shard /\
                                 ids = visible (pad_batch (self w)) row) ys.
Proof.
  induction fuel as [|f IH]; intros w w' ys r shard H Hs; [discriminate|].
  simpl in H. destruct (__next__ w) as [w1 [ids|e]] eqn:E.
  - destruct (next_loop f w1) as [[[w2 ys2] r2]|] eqn:E2; [|discriminate].
    injection H as <- <- <-.
    apply next_ok_inv in E.
    destruct E as (n & shard' & row & Hn & Hlt & Hs' & Hrow & -> & ->).
    rewrite Hs in Hs'. injection Hs' as <-.
    constructor.
    + exists row. split; [eapply nth_error_In; eauto|reflexivity].
    + apply (IH _ _ _ _ shard E2). exact Hs.
  - destruct e; injection H as <- <- <-; constructor.
Qed.

Lemma next_loop_S (f : nat) (w : World G) :
  next_loop (S f) w =
  match __next__ w with
  | (w', Ok ids) =>
      match next_loop f w' with
      | Some (w'', yielded, r) => Some (w'', ids :: yielded, r)
      | None => None
      end
  | (w', Raise StopIteration) => Some (w', [], Ok tt)
  | (w', Raise e) => Some (w', [], Raise e)
  end.
Proof. reflexivity. Qed.

(** With a shard of [num_batches] rows the loop ends after yielding
    the rows from the cursor on. *)
Lemma next_loop_run (d : nat) : forall (w : World G) n shard,
  num_batches (self w) = Some n -> _shard (self w) = Some shard ->
  length shard = n -> _step (self w) + d = n ->
  next_loop (S d) w =
  Some (upd (set_step n) w,
        map (visible (pad_batch (self w))) (skipn (_step (self w)) shard), Ok tt).
Proof.
  induction d as [|d IH]; intros w n shard Hn Hs Hlen Hd.
  - rewrite next_loop_S, (next_stop w n Hn) by lia.
    rewrite skipn_all2 by lia. rewrite upd_step_same by lia. reflexivity.
  - destruct (nth_error shard (_step (self w))) as [row|] eqn:Er.
    2:{ apply nth_error_None in Er. lia. }
    rewrite next_loop_S, (next_yield w n shard row Hn ltac:(lia) Hs Er).
    specialize (IH (upd (set_step (_step (self w) + 1)) w) n shard Hn Hs Hlen).
    cbn [upd self set_step _step] in IH. rewrite IH by lia.
    rewrite (skipn_cons_nth _ _ _ Er), Nat.add_1_r. reflexivity.
Qed.

End Loop.

(* ------------------------------------------------------------------ *)
(** ** Shards without bucketing *)

Lemma slice_to_nonneg {A} (l : list A) (k : Z) :
  (0 <= k)%Z -> slice_to l k = firstn (Z.to_nat k) l.
Proof.
  intros H. unfold slice_to. destruct (Z.leb_spec 0 k); [reflexivity|lia].
Qed.

Lemma arange_length (n : nat) : length (arange n) = n.
Proof. unfold arange. now rewrite length_map, length_seq. Qed.

Lemma Forall_slice {A} (P : A -> Prop) (k j : nat) (l : list A) :
  Forall P l -> Forall P (firstn k (skipn j l)).
Proof.
  rewrite !Forall_forall. intros H x Hx. apply H. eapply in_slice; eauto.
Qed.

Lemma slice_length {A} (k r groups : nat) (l : list A) :
  length l = groups * k -> r < groups ->
  length (firstn k (skipn (r * k) l)) = k.
Proof.
  intros Hl Hr. rewrite length_firstn, length_skipn. nia.
Qed.

(** The size of the stream when its rows split evenly by rank: the
    schedule's [num_batches] rows per rank, and a pad no longer than
    the dataset when the pad is a prefix. *)
Lemma flat_stream_size (pb : bool) (shuffled : list Z) (batches : list (list Z))
    (L B W n k : nat) :
  ceil_div L (W * B) = Ok n ->
  length shuffled = L ->
  reshape_rows B (flat_stream pb shuffled
                    (Z.of_nat (n * (W * B)) - Z.of_nat L)) = Ok batches ->
  length batches = W * k ->
  k = n /\
  length (flat_stream pb shuffled (Z.of_nat (n * (W * B)) - Z.of_nat L))
  = n * (W * B) /\
  (pb = true -> n * (W * B) - L <= L).
Proof.
  intros Hc Hs Hr Hb.
  apply ceil_div_inv in Hc. destruct Hc as (Hpos & Hle & Hlt).
  apply reshape_rows_inv in Hr. destruct Hr as (HB & Hlen & _ & _).
  rewrite Hb in Hlen. unfold flat_stream in *. rewrite length_app in *.
  destruct pb.
  - rewrite slice_to_nonneg in * by lia. rewrite length_firstn in *.
    rewrite Hs in *.
    replace (Z.to_nat (Z.of_nat (n * (W * B)) - Z.of_nat L))
      with (n * (W * B) - L) in * by lia.
    assert (Hcase : n * (W * B) - L <= L \/ L < n * (W * B) - L) by lia.
    destruct Hcase as [Hc|Hc].
    + rewrite Nat.min_l in * by lia.
      assert (k * (W * B) = n * (W * B)) by lia.
      assert (k = n) by (apply Nat.mul_cancel_r with (p := W * B); lia).
      split; [assumption|]. split; [lia|intros _; lia].
    + exfalso. rewrite Nat.min_r in Hlen by lia.
      assert (H1 : k * (W * B) = L + L) by lia.
      assert (H2 : k < n) by nia.
      assert (H3 : (k + 1) * (W * B) <= n * (W * B))
        by (apply Nat.mul_le_mono_r; lia).
      lia.
  - unfold list_times in *. rewrite repeat_length in *. rewrite Hs in *.
    assert (k * (W * B) = n * (W * B)) by lia.
    assert (k = n) by (apply Nat.mul_cancel_r with (p := W * B); lia).
    split; [assumption|]. split; [lia|discriminate].
Qed.

Section FlatInvariant.

Context {G : RandomGen}.

(** What holds of a sampler built without thresholds, whatever was
    called on it: the cached [num_batches] is the ceiling, and a shard,
    when there is one, has [num_batches] rows of [batch_size] entries. *)
Definition flat_inv (s0 : Sampler) (w : World G) : Prop :=
  same_config s0 (self w) /\
  aspect_ratio_thresholds s0 = None /\
  (forall m, num_batches (self w) = Some m ->
             ceil_div (dataset_len (dataset s0))
                      (world_size s0 * batch_size s0) = Ok m) /\
  (forall sh, _shard (self w) = Some sh ->
              num_batches (self w) = Some (length sh) /\
              Forall (fun row => length row = batch_size s0) sh).

Lemma flat_inv_setup (s0 : Sampler) : preserves (flat_inv s0) setup.
Proof.
  intros w HI. pose proof HI as (Hc & Ht & Hn & Hs).
  pose proof Hc as (Cd & CB & _ & Cth & _ & _ & _ & CW & _).
  unfold setup, bind, get_self, lift, modify_self.
  rewrite Cth, Ht, Cd, CB, CW.
  destruct (ceil_div _ _) as [n|e] eqn:E; simpl; [|exact HI].
  split; [exact Hc|]. split; [exact Ht|]. split.
  - simpl. intros m Hm. now injection Hm as <-.
  - simpl. intros sh Hsh. destruct (Hs sh Hsh) as [Hnb Hrows].
    specialize (Hn _ Hnb). injection Hn as ->. now split.
Qed.

Lemma flat_inv_compute_shard (s0 : Sampler) : preserves (flat_inv s0) compute_shard.
Proof.
  apply compute_shard_preserves.
  - intros g w H; exact H.
  - apply flat_inv_setup.
  - apply choose_rand_perm_preserves. intros v w H; exact H.
Qed.

(** The shard a successful [compute_shard] returns in such a state. *)
Lemma flat_shard (s0 : Sampler) (w w' : World G) (shard : list (list Z)) :
  flat_inv s0 w -> compute_shard w = (w', Ok shard) ->
  exists n shuffled permuted,
    num_batches (self w') = Some n /\
    Permutation (arange (dataset_len (dataset s0))) shuffled /\
    length (flat_stream (pad_batch s0) shuffled
              (Z.of_nat (n * (world_size s0 * batch_size s0))
               - Z.of_nat (dataset_len (dataset s0))))
    = n * (world_size s0 * batch_size s0) /\
    (pad_batch s0 = true ->
     n * (world_size s0 * batch_size s0) - dataset_len (dataset s0)
     <= dataset_len (dataset s0)) /\
    Permutation
      (rows (batch_size s0) (n * world_size s0)
         (flat_stream (pad_batch s0) shuffled
            (Z.of_nat (n * (world_size s0 * batch_size s0))
             - Z.of_nat (dataset_len (dataset s0)))))
      permuted /\
    (shuffle s0 = false ->
     shuffled = arange (dataset_len (dataset s0)) /\
     permuted = rows (batch_size s0) (n * world_size s0)
                  (flat_stream (pad_batch s0) shuffled
                     (Z.of_nat (n * (world_size s0 * batch_size s0))
                      - Z.of_nat (dataset_len (dataset s0))))) /\
    rank s0 < world_size s0 /\
    shard = firstn n (skipn (rank s0 * n) permuted) /\
    length shard = n /\
    Forall (fun row => length row = batch_size s0) shard /\
    epoch_prefix w = (w', Ok permuted).
Proof.
  intros HI H.
  pose proof (flat_inv_compute_shard s0 w HI) as HI'. rewrite H in HI'. simpl in HI'.
  destruct HI as (Hc & Ht & _ & _).
  pose proof Hc as (Cd & CB & Csh & Cth & Cpb & _ & Crk & CW & _).
  assert (Htr : truthy (aspect_ratio_thresholds (self w)) = false)
    by now rewrite Cth, Ht.
  destruct (compute_shard_flat w w' shard Htr H)
    as (n & shuffled & batches & permuted & k & Hn & Hperm & Hr & Hpb & Hlen
        & Hrk & -> & Hid & _ & Hpre).
  rewrite Cd, CB, Csh, Cpb, Crk, CW in *.
  destruct HI' as (_ & _ & Hceil & _). specialize (Hceil n Hn).
  pose proof (Permutation_length Hperm) as Hsl. rewrite arange_length in Hsl.
  pose proof (Permutation_length Hpb) as Hbl.
  destruct (flat_stream_size _ _ _ _ _ _ n k Hceil (eq_sym Hsl) Hr
              ltac:(now rewrite Hbl)) as (-> & Hstream & Hpad).
  pose proof Hr as Hr'. apply reshape_rows_inv in Hr'.
  destruct Hr' as (HB & _ & _ & Hrows).
  assert (Hbatches : batches
                     = rows (batch_size s0) (n * world_size s0)
                         (flat_stream (pad_batch s0) shuffled
                            (Z.of_nat (n * (world_size s0 * batch_size s0))
                             - Z.of_nat (dataset_len (dataset s0))))).
  { rewrite (reshape_rows_ok (batch_size s0) (n * world_size s0)) in Hr.
    - now injection Hr as <-.
    - lia.
    - rewrite Hstream. lia. }
  exists n, shuffled, permuted.
  split; [exact Hn|]. split; [exact Hperm|]. split; [exact Hstream|].
  split; [exact Hpad|]. split; [now rewrite <- Hbatches|].
  split; [intros Hsf; destruct (Hid Hsf) as [-> ->]; now split|].
  split; [exact Hrk|]. split; [reflexivity|].
  split; [now apply (slice_length n _ (world_size s0))|].
  split; [|exact Hpre].
  apply Forall_slice. eapply Permutation_Forall'; eauto.
Qed.

Lemma flat_inv_reset (s0 : Sampler) : preserves (flat_inv s0) reset.
Proof.
  intros w HI. rewrite reset_unfold.
  pose proof (flat_inv_compute_shard s0 w HI) as HI'.
  destruct (compute_shard w) as [w1 [shard|e]] eqn:E; simpl in *; [|exact HI'].
  destruct (flat_shard s0 w w1 shard HI E)
    as (n & _ & _ & Hn & _ & _ & _ & _ & _ & _ & _ & Hlen & Hrows & _).
  destruct HI' as (Hc & Ht & Hceil & _).
  split; [exact Hc|]. split; [exact Ht|]. split; [exact Hceil|].
  simpl. intros sh Hsh. injection Hsh as <-. rewrite Hlen. now split.
Qed.

Lemma flat_invariant (s0 : Sampler) : method_invariant (flat_inv s0).
Proof.
  assert (Hs := flat_inv_setup s0). assert (Hr := flat_inv_reset s0).
  split; [exact Hs|]. split; [exact Hr|].
  split; [now apply iter_preserves|].
  split; [|now apply len_preserves].
  apply next_preserves. intros v w H; exact H.
Qed.

Lemma flat_inv_fresh ds B sh pb sy rk W seed (g : rng) :
  flat_inv (fresh ds B sh None pb sy rk W seed)
    {| np_random := g; self := fresh ds B sh None pb sy rk W seed |}.
Proof.
  split; [apply same_config_refl|]. split; [reflexivity|].
  split; simpl; intros; discriminate.
Qed.

End FlatInvariant.

Section FlatLoop.

Context {G : RandomGen}.

Lemma next_loop_no_shard (fuel : nat) (w w' : World G) ys r :
  _shard (self w) = None -> next_loop fuel w = Some (w', ys, r) -> ys = [].
Proof.
  intros Hs H. destruct fuel as [|f]; [discriminate|].
  rewrite next_loop_S in H.
  destruct (__next__ w) as [w1 [ids|e]] eqn:E.
  - apply next_ok_inv in E. destruct E as (n & sh & row & _ & _ & Hsh & _).
    congruence.
  - destruct e; now injection H as <- <- <-.
Qed.

(** Whatever a [for] loop yields on a sampler built without thresholds
    is a row of [batch_size] entries as [__next__] shows it. *)
Lemma yielded_rows (s0 : Sampler) (fuel : nat) (w w' : World G) ys r :
  flat_inv s0 w -> for_loop fuel w = Some (w', ys, r) ->
  Forall (fun ids => exists row, length row = batch_size s0 /\
                                 ids = visible (pad_batch s0) row) ys.
Proof.
  intros HI H. unfold for_loop in H.
  pose proof (proj1 (proj2 (proj2 (flat_invariant s0))) w HI) as HI1.
  destruct (__iter__ w) as [w1 [[]|e]]; simpl in HI1.
  2:{ injection H as <- <- <-. constructor. }
  destruct (_shard (self w1)) as [sh|] eqn:Es.
  - pose proof (next_loop_sound fuel w1 w' ys r sh H Es) as Hy.
    destruct HI1 as (Hc & _ & _ & Hsh). destruct (Hsh sh Es) as [_ Hrows].
    destruct Hc as (_ & _ & _ & _ & Cpb & _).
    eapply Forall_impl; [|exact Hy]. intros ids (row & Hin & ->).
    exists row. rewrite Cpb. split; [|reflexivity].
    rewrite Forall_forall in Hrows. now apply Hrows.
  - rewrite (next_loop_no_shard fuel w1 w' ys r Es H). constructor.
Qed.

(** After a successful [reset] on such a sampler a [for] loop yields
    the [num_batches] rows of the shard and leaves the cursor at
    [num_batches]. *)
Lemma for_loop_after_reset (s0 : Sampler) (w' : World G) (n : nat) shard :
  flat_inv s0 w' ->
  num_batches (self w') = Some n -> _shard (self w') = Some shard ->
  _step (self w') = 0 ->
  for_loop (S n) w' =
  Some (upd (set_step n) w', map (visible (pad_batch s0)) shard, Ok tt).
Proof.
  intros HI Hn Hs Hst. unfold for_loop.
  rewrite iter_ready by (rewrite ?Hn, ?Hs; reflexivity).
  destruct HI as (Hc & _ & _ & Hsh). destruct (Hsh shard Hs) as [Hnb _].
  rewrite Hn in Hnb. injection Hnb as Hlen.
  rewrite (next_loop_run n w' n shard Hn Hs (eq_sym Hlen)) by lia.
  rewrite Hst. cbn [skipn].
  destruct Hc as (_ & _ & _ & _ & -> & _). reflexivity.
Qed.

(** On such a sampler [reset] returns whenever the rank is below
    [world_size], the pad is no longer than the dataset (or sentinels
    are used) and numpy accepts the seed. *)
Lemma reset_flat_returns (s0 : Sampler) (w : World G) (n : nat) :
  flat_inv s0 w ->
  ceil_div (dataset_len (dataset s0)) (world_size s0 * batch_size s0) = Ok n ->
  rank s0 < world_size s0 ->
  (pad_batch s0 = true ->
   n * (world_size s0 * batch_size s0) - dataset_len (dataset s0)
   <= dataset_len (dataset s0)) ->
  (shuffle s0 && sync_seed_schedule s0 = true ->
   is_ok (RandomState (Z.of_nat (epoch (self w)) + init_seed s0)%Z) = true) ->
  snd (reset w) = Ok tt.
Proof.
  intros HI Hceil Hrk Hpad Hseed.
  rewrite reset_unfold.
  assert (Hcs : exists w1 shard, compute_shard w = (w1, Ok shard)).
  2:{ destruct Hcs as (w1 & shard & ->). reflexivity. }
  pose proof (ceil_div_inv _ _ _ Hceil) as (Hpos & Hle & Hlt).
  (* ensure_setup *)
  assert (H1 : exists w1, ensure_setup w = (w1, Ok tt) /\ flat_inv s0 w1 /\
                          num_batches (self w1) = Some n /\
                          epoch (self w1) = epoch (self w)).
  { destruct (num_batches (self w)) as [m|] eqn:E.
    - exists w. rewrite ensure_setup_ready by now rewrite E.
      pose proof HI as (_ & _ & Hn & _). specialize (Hn m E).
      rewrite Hceil in Hn. injection Hn as Hn.
      split; [reflexivity|]. split; [exact HI|]. split; [now rewrite Hn|reflexivity].
    - exists (upd (set_num_batches n) w).
      rewrite ensure_setup_fresh by now rewrite E.
      pose proof (flat_inv_setup s0 w HI) as HI1.
      pose proof HI as (Hc & Ht & _ & _).
      pose proof Hc as (Cd & CB & _ & Cth & _ & _ & _ & CW & _).
      assert (Hset : setup w = (upd (set_num_batches n) w, Ok tt)).
      { unfold setup, bind, get_self, lift, modify_self, upd.
        now rewrite Cth, Ht, Cd, CB, CW, Hceil. }
      rewrite Hset in HI1 |- *. simpl in HI1.
      split; [reflexivity|]. split; [exact HI1|]. split; reflexivity. }
  destruct H1 as (w1 & H1 & HI1 & Hn1 & He1).
  pose proof HI1 as (Hc1 & Ht & _ & _).
  pose proof Hc1 as (Cd & CB & Csh & Cth & Cpb & Csy & Crk & CW & Cis).
  (* choose_rand_perm *)
  assert (H2 : exists w2 src, choose_rand_perm w1 = (w2, Ok src)).
  { rewrite choose_rand_perm_unfold, Csh, Csy, Cis, He1.
    destruct (shuffle s0); simpl; [|eauto].
    destruct (sync_seed_schedule s0); [|eauto].
    specialize (Hseed eq_refl). destruct (RandomState _); [eauto|discriminate]. }
  destruct H2 as (w2 & src & H2).
  destruct (choose_rand_perm_fields _ _ _ H2)
    as ((Cd2 & CB2 & Csh2 & Cth2 & Cpb2 & Csy2 & Crk2 & CW2 & Cis2) & Hn2 & _).
  (* draw_indices *)
  destruct (draw_indices_flat src w2 n
              ltac:(now rewrite Cth2, Cth, Ht) ltac:(now rewrite Hn2))
    as (w3 & shuffled & src3 & H3 & Hperm & Hs3 & _).
  rewrite Cd2, CB2, Cpb2, CW2, Cd, CB, Cpb, CW in H3. rewrite Cd2, Cd in Hperm.
  pose proof (Permutation_length Hperm) as Hsl. rewrite arange_length in Hsl.
  set (stream := flat_stream _ _ _) in H3.
  assert (Hlen : length stream = (n * world_size s0) * batch_size s0).
  { subst stream. unfold flat_stream. rewrite length_app.
    destruct (pad_batch s0).
    - rewrite slice_to_nonneg by lia. rewrite length_firstn.
      specialize (Hpad eq_refl). lia.
    - unfold list_times. rewrite repeat_length. lia. }
  assert (HB : 0 < batch_size s0) by nia.
  pose proof (reshape_rows_ok _ _ _ HB Hlen) as Hb.
  set (batches := rows _ _ _) in Hb.
  (* rand_perm on the batches *)
  destruct (rand_perm_ok src3 batches w3) as (w4 & permuted & src4 & H4 & Hp4 & Hs4 & _).
  assert (Hpl : length permuted = world_size s0 * n).
  { rewrite <- (Permutation_length Hp4). subst batches. rewrite rows_length. lia. }
  assert (HW : 0 < world_size s0) by lia.
  pose proof (reshape_shards_ok _ _ _ HW Hpl) as Hsh.
  assert (Hix : exists shard, index (rows n (world_size s0) permuted) (rank s0)
                              = Ok shard).
  { unfold index. rewrite rows_nth by assumption. eauto. }
  destruct Hix as (shard & Hix).
  exists w4, shard.
  unfold compute_shard, shuffled_batches.
  rewrite (bind_ok _ _ _ _ _ H1).
  assert (Hsb : bind choose_rand_perm
                  (fun src0 =>
                     bind (draw_indices src0)
                       (fun x => let '(shuffled_indices, src1) := x in
                          bind get_self (fun s =>
                            bind (lift (reshape_rows (batch_size s) shuffled_indices))
                              (fun batches0 =>
                                 bind (rand_perm src1 batches0)
                                   (fun x0 => let '(permuted0, _) := x0 in
                                              ret permuted0))))) w1
                = (w4, Ok permuted)).
  { rewrite (bind_ok _ _ _ _ _ H2), (bind_ok _ _ _ _ _ H3).
    unfold bind at 1. unfold get_self at 1.
    rewrite Hs3, CB2, CB. unfold bind at 1. unfold lift at 1. rewrite Hb.
    rewrite (bind_ok _ _ _ _ _ H4). reflexivity. }
  rewrite (bind_ok _ _ _ _ _ Hsb).
  unfold bind at 1. unfold get_self at 1.
  rewrite Hs4, Hs3, CW2, CW, Crk2, Crk.
  unfold bind, lift. now rewrite Hsh, Hix.
Qed.

End FlatLoop.

(* ------------------------------------------------------------------ *)
(** ** Padding with a prefix ([pad_batch = True]) *)

Lemma flat_stream_padded (shuffled : list Z) (a L : nat) :
  L <= a ->
  flat_stream true shuffled (Z.of_nat a - Z.of_nat L)
  = shuffled ++ firstn (a - L) shuffled.
Proof.
  intros H. unfold flat_stream. rewrite slice_to_nonneg by lia.
  do 2 f_equal. lia.
Qed.

Lemma map_visible_padded (l : list (list Z)) : map (visible true) l = l.
Proof. induction l as [|a l IH]; simpl; [reflexivity|now rewrite IH]. Qed.

Section Padding.

Context {G : RandomGen}.

(** C4.  A sampler built with [pad_batch=True] and no thresholds, after
    any sequence of calls: every list a [for] loop yields has exactly
    [batch_size] entries; and whenever [reset] returns, the stream it
    cut into batches is a permutation [shuffled] of [0..L-1] followed
    by the first [num_batches * world_size * batch_size - L] entries of
    [shuffled] itself, its length is that multiple, the shard is this
    rank's run of the shuffled rows, and the next [for] loop yields
    exactly the shard.  [reset] does return when the rank is below
    [world_size], the pad is no longer than the dataset and numpy
    accepts the seed. *)
Theorem padded_batches (ds : Dataset) (B W rk : nat) (sh sy : bool) (seed : Z)
    (g : rng) (cs : list call) :
  let s0 := fresh ds B sh None true sy rk W seed in
  let w := fst (run cs {| np_random := g; self := s0 |}) in
  let L := dataset_len ds in
  (forall fuel w' ys r,
     for_loop fuel w = Some (w', ys, r) ->
     Forall (fun ids => length ids = B) ys) /\
  (forall w',
     reset w = (w', Ok tt) ->
     exists n shuffled permuted,
       num_batches (self w') = Some n /\
       Permutation (arange L) shuffled /\
       length (shuffled ++ firstn (n * (W * B) - L) shuffled) = n * (W * B) /\
       Permutation
         (rows B (n * W) (shuffled ++ firstn (n * (W * B) - L) shuffled))
         permuted /\
       _shard (self w') = Some (firstn n (skipn (rk * n) permuted)) /\
       for_loop (S n) w'
       = Some (upd (set_step n) w', firstn n (skipn (rk * n) permuted), Ok tt)) /\
  (forall n,
     ceil_div L (W * B) = Ok n -> rk < W -> n * (W * B) - L <= L ->
     (sh && sy = true ->
      is_ok (RandomState (Z.of_nat (epoch (self w)) + seed)%Z) = true) ->
     snd (reset w) = Ok tt).
Proof.
  intros s0 w L.
  assert (HI : flat_inv s0 w).
  { apply run_preserves; [apply flat_invariant|apply flat_inv_fresh]. }
  split; [|split].
  - intros fuel w' ys r H.
    eapply Forall_impl; [|exact (yielded_rows s0 fuel w w' ys r HI H)].
    intros ids (row & Hlen & ->). exact Hlen.
  - intros w' H.
    pose proof (flat_inv_reset s0 w HI) as HI'. rewrite H in HI'. simpl in HI'.
    rewrite reset_unfold in H.
    destruct (compute_shard w) as [w1 [shard|e]] eqn:E; [|discriminate].
    injection H as <-.
    destruct (flat_shard s0 w w1 shard HI E)
      as (n & shuffled & permuted & Hn & Hperm & Hlen & _ & Hrows & _ & _
          & -> & _ & _).
    cbn [s0 fresh pad_batch world_size batch_size dataset rank] in *.
    fold L in Hperm, Hlen, Hrows.
    assert (Hle : L <= n * (W * B)).
    { destruct HI' as (_ & _ & Hceil & _).
      specialize (Hceil n ltac:(exact Hn)). apply ceil_div_inv in Hceil.
      cbn [s0 fresh world_size batch_size dataset] in Hceil. subst L. lia. }
    rewrite (flat_stream_padded _ _ _ Hle) in Hlen, Hrows.
    exists n, shuffled, permuted.
    split; [exact Hn|]. split; [exact Hperm|]. split; [exact Hlen|].
    split; [exact Hrows|]. split; [reflexivity|].
    rewrite (for_loop_after_reset s0 _ n (firstn n (skipn (rk * n) permuted)) HI');
      try reflexivity; [|exact Hn].
    cbn [s0 fresh pad_batch]. now rewrite map_visible_padded.
  - intros n Hceil Hrk Hpad Hseed.
    apply (reset_flat_returns s0 w n HI); auto.
Qed.

End Padding.

(** Seven items shuffled into batches of two on one rank. *)
Definition shuffled_world : World RotGen :=
  {| np_random := 0; self := fresh (plain 7) 2 true None true true 0 1 1%Z |}.

(** A run of C4: the loop after [__len__] yields four full batches, and
    [reset] returns. *)
Lemma padded_batches_witness :
  for_loop 5 (fst (run [CallLen] shuffled_world))
  = Some (upd (set_step 4) (fst (reset shuffled_world)),
          [[5; 6]; [0; 1]; [1; 2]; [3; 4]]%Z, Ok tt) /\
  Forall (fun ids => length ids = 2) [[5; 6]; [0; 1]; [1; 2]; [3; 4]]%Z /\
  snd (reset (fst (run [CallLen] shuffled_world))) = Ok tt.
Proof.
  destruct (padded_batches (G := RotGen) (plain 7) 2 1 0 true true 1%Z 0 [CallLen])
    as (H1 & _ & H3).
  split; [reflexivity|]. split.
  - apply (H1 5 (upd (set_step 4) (fst (reset shuffled_world))) _ (Ok tt)).
    reflexivity.
  - apply (H3 4); [reflexivity|lia|simpl; lia|intros _; reflexivity].
Defined.

(* ------------------------------------------------------------------ *)
(** ** Padding with sentinels ([pad_batch = False]) *)

Lemma visible_no_sentinel (row : list Z) : ~ In (-1)%Z (visible false row).
Proof.
  unfold visible. intros H. apply filter_In in H. destruct H as [_ H].
  rewrite Z.eqb_refl in H. discriminate.
Qed.

Lemma visible_length (pb : bool) (row : list Z) :
  length (visible pb row) <= length row.
Proof.
  unfold visible. destruct pb; [lia|].
  induction row as [|a row IH]; simpl; [lia|].
  destruct (negb (a =? -1)%Z); simpl; lia.
Qed.

Lemma visible_all (row : list Z) :
  Forall (fun z => (0 <= z)%Z) row -> visible false row = row.
Proof.
  unfold visible. induction 1 as [|a row Ha _ IH]; simpl; [reflexivity|].
  destruct (Z.eqb_spec a (-1)); [lia|]. simpl. now rewrite IH.
Qed.

Lemma arange_nonneg (n : nat) : Forall (fun z => (0 <= z)%Z) (arange n).
Proof.
  unfold arange. apply Forall_forall. intros z Hz.
  apply in_map_iff in Hz. destruct Hz as (i & <- & _). lia.
Qed.

(** A row that ends inside the first part of a stream. *)
Lemma row_in_prefix {A} (B i : nat) (l tail : list A) :
  (i + 1) * B <= length l ->
  firstn B (skipn (i * B) (l ++ tail)) = firstn B (skipn (i * B) l) /\
  length (firstn B (skipn (i * B) l)) = B.
Proof.
  intros H. rewrite skipn_app, firstn_app, length_skipn.
  replace (B - (length l - i * B)) with 0 by lia.
  rewrite firstn_O, app_nil_r. split; [reflexivity|].
  rewrite length_firstn, length_skipn. lia.
Qed.

Section Sentinels.

Context {G : RandomGen}.

(** C5, as the code has it.  A sampler built with [pad_batch=False] and
    no thresholds, after any sequence of calls: no list a [for] loop
    yields contains the sentinel [-1], and each has at most
    [batch_size] entries.  With [world_size = 1] and [shuffle=False],
    after a [reset] that returns, the loop yields [num_batches] lists
    and all of them before the last have exactly [batch_size]
    entries. *)
Theorem sentinel_batches (ds : Dataset) (B W rk : nat) (sh sy : bool) (seed : Z)
    (g : rng) (cs : list call) :
  let s0 := fresh ds B sh None false sy rk W seed in
  let w := fst (run cs {| np_random := g; self := s0 |}) in
  (forall fuel w' ys r,
     for_loop fuel w = Some (w', ys, r) ->
     Forall (fun ids => ~ In (-1)%Z ids /\ length ids <= B) ys) /\
  (W = 1 -> sh = false ->
   forall w',
     reset w = (w', Ok tt) ->
     exists n ys,
       num_batches (self w') = Some n /\
       for_loop (S n) w' = Some (upd (set_step n) w', ys, Ok tt) /\
       length ys = n /\
       forall i, S i < n -> length (nth i ys []) = B).
Proof.
  intros s0 w.
  assert (HI : flat_inv s0 w).
  { apply run_preserves; [apply flat_invariant|apply flat_inv_fresh]. }
  split.
  - intros fuel w' ys r H.
    eapply Forall_impl; [|exact (yielded_rows s0 fuel w w' ys r HI H)].
    intros ids (row & Hlen & ->). cbn [s0 fresh pad_batch batch_size] in *.
    split; [apply visible_no_sentinel|]. rewrite <- Hlen. apply visible_length.
  - intros -> -> w' H.
    pose proof (flat_inv_reset s0 w HI) as HI'. rewrite H in HI'. simpl in HI'.
    rewrite reset_unfold in H.
    destruct (compute_shard w) as [w1 [shard|e]] eqn:E; [|discriminate].
    injection H as <-.
    destruct (flat_shard s0 w w1 shard HI E)
      as (n & shuffled & permuted & Hn & _ & Hlen & _ & _ & Hid & Hrk
          & -> & _ & _).
    destruct (Hid eq_refl) as [-> ->].
    cbn [s0 fresh pad_batch world_size batch_size dataset rank shuffle] in *.
    assert (Hrk0 : rk = 0) by lia. subst rk.
    set (stream := flat_stream false _ _) in *.
    rewrite Nat.mul_0_l, skipn_O.
    rewrite firstn_all2 by (rewrite rows_length; lia).
    exists n, (map (visible false) (rows B (n * 1) stream)).
    split; [exact Hn|]. split; [|split].
    + rewrite Nat.mul_0_l, skipn_O in HI'.
      rewrite firstn_all2 in HI' by (rewrite rows_length; lia).
      now rewrite (for_loop_after_reset s0 _ n (rows B (n * 1) stream) HI').
    + rewrite length_map, rows_length. lia.
    + intros i Hi.
      assert (Hceil : ceil_div (dataset_len ds) (1 * B) = Ok n).
      { destruct HI' as (_ & _ & Hc & _). apply (Hc n). exact Hn. }
      apply ceil_div_inv in Hceil. destruct Hceil as (Hpos & Hle & Hlt).
      assert (Hrow : nth_error (rows B (n * 1) stream) i
                     = Some (firstn B (skipn (i * B) stream)))
        by (apply rows_nth; lia).
      rewrite (nth_indep _ [] (visible false []))
        by (rewrite length_map, rows_length; lia).
      rewrite map_nth. rewrite (nth_error_nth _ _ _ Hrow).
      subst stream. unfold flat_stream.
      destruct (row_in_prefix B i (arange (dataset_len ds))
                  (list_times (-1)%Z
                     (Z.of_nat (n * (1 * B)) - Z.of_nat (dataset_len ds))))
        as [-> Hl].
      { rewrite arange_length. nia. }
      rewrite visible_all; [exact Hl|].
      apply Forall_slice, arange_nonneg.
Qed.

End Sentinels.

(** Five items in order, batches of two, the second of two ranks, no
    index reuse. *)
Definition second_rank_world : World RotGen :=
  {| np_random := 0; self := fresh (plain 5) 2 false None false true 1 2 1%Z |}.

(** Seven items shuffled into batches of two on one rank, no index
    reuse. *)
Definition shuffled_sentinel_world : World RotGen :=
  {| np_random := 0; self := fresh (plain 7) 2 true None false true 0 1 1%Z |}.

(** C5 as stated fails.  On the second of two ranks the loop yields
    [[4]] and then [[]]: the list before the last is short.  On one
    rank with shuffling the short list comes second of four. *)
Lemma short_batch_before_last :
  for_loop 3 second_rank_world
  = Some (upd (set_step 2) (fst (reset second_rank_world)),
          [[4]; []]%Z, Ok tt) /\
  length (nth 0 [[4]; []]%Z []) <> batch_size (self second_rank_world) /\
  for_loop 5 shuffled_sentinel_world
  = Some (upd (set_step 4) (fst (reset shuffled_sentinel_world)),
          [[5; 6]; [0]; [1; 2]; [3; 4]]%Z, Ok tt) /\
  length (nth 1 [[5; 6]; [0]; [1; 2]; [3; 4]]%Z [])
  <> batch_size (self shuffled_sentinel_world).
Proof. repeat split; discriminate. Qed.

(** A run of the amended C5: seven items in order on one rank. *)
Lemma sentinel_batches_witness :
  Forall (fun ids => ~ In (-1)%Z ids /\ length ids <= 2)
    [[0; 1]; [2; 3]; [4; 5]; [6]]%Z /\
  exists n ys,
    num_batches (self (fst (reset (upd (fun s => fresh (plain 7) 2 false None false true 0 1 1%Z)
                                       ordered_world)))) = Some n /\
    for_loop (S n) (fst (reset (upd (fun s => fresh (plain 7) 2 false None false true 0 1 1%Z)
                                    ordered_world)))
    = Some (upd (set_step n)
              (fst (reset (upd (fun s => fresh (plain 7) 2 false None false true 0 1 1%Z)
                               ordered_world))), ys, Ok tt) /\
    length ys = n /\
    forall i, S i < n -> length (nth i ys []) = 2.
Proof.
  destruct (sentinel_batches (G := RotGen) (plain 7) 2 1 0 false true 1%Z 0 [])
    as (H1 & H2).
  split.
  - apply (H1 5 (upd (set_step 4)
                   (fst (reset (upd (fun s => fresh (plain 7) 2 false None false true 0 1 1%Z)
                                    ordered_world)))) _ (Ok tt)).
    reflexivity.
  - apply (H2 eq_refl eq_refl). reflexivity.
Defined.

(* ------------------------------------------------------------------ *)
(** ** Starting another pass *)

Section NewEpoch.

Context {G : RandomGen}.

Definition scheduled (w : World G) : Prop := has (num_batches (self w)) = true.

Lemma scheduled_setup : preserves scheduled setup.
Proof.
  apply setup_preserves. split; [|split; [|split]]; intros v w H;
    first [exact H | reflexivity].
Qed.

(** A successful [compute_shard] leaves [num_batches] in place. *)
Lemma compute_shard_scheduled (w w' : World G) shard :
  compute_shard w = (w', Ok shard) -> exists n, num_batches (self w') = Some n.
Proof.
  intros H. apply compute_shard_stages in H.
  destruct H as (w1 & w2 & src & w3 & stream & src' & batches & permuted
                 & src'' & shards & H1 & H2 & H3 & _ & H4 & _).
  destruct (ensure_setup_ok_has _ _ H1) as (n1 & Hn1).
  destruct (choose_rand_perm_fields _ _ _ H2) as (_ & Hn2 & _).
  assert (I2 : scheduled w2) by (unfold scheduled; now rewrite Hn2, Hn1).
  pose proof (draw_indices_preserves scheduled src
                ltac:(intros g0 w0 H0; exact H0) scheduled_setup w2 I2) as I3.
  rewrite H3 in I3. simpl in I3.
  pose proof (rand_perm_preserves scheduled src' batches
                ltac:(intros g0 w0 H0; exact H0) w3 I3) as I4.
  rewrite H4 in I4. simpl in I4. unfold scheduled in I4.
  destruct (num_batches (self w')); [eauto|discriminate].
Qed.

Lemma for_loop_full (w : World G) (n : nat) shard :
  num_batches (self w) = Some n -> _shard (self w) = Some shard ->
  length shard = n -> _step (self w) = 0 ->
  for_loop (S n) w =
  Some (upd (set_step n) w, map (visible (pad_batch (self w))) shard, Ok tt).
Proof.
  intros Hn Hs Hlen Hst. unfold for_loop.
  rewrite iter_ready by (rewrite ?Hn, ?Hs; reflexivity).
  rewrite (next_loop_run n w n shard Hn Hs Hlen) by lia.
  now rewrite Hst.
Qed.

(** Without a shard [__iter__] is [reset]. *)
Lemma iter_fresh (w : World G) :
  has (_shard (self w)) = false -> __iter__ w = reset w.
Proof.
  intros Hs. unfold __iter__. rewrite (reset_unfold w). unfold compute_shard.
  destruct (ensure_setup w) as [w1 [[]|e]] eqn:E.
  - rewrite !(bind_ok _ _ _ _ _ E).
    pose proof (ensure_setup_preserves _ (kept_setup (self w)) w) as K.
    rewrite E in K. specialize (K ltac:(repeat split)). simpl in K.
    destruct K as (_ & Ksh & _).
    unfold bind at 1. unfold get_self at 1. rewrite Ksh, Hs.
    rewrite reset_unfold. unfold compute_shard.
    destruct (ensure_setup_ok_has _ _ E) as (n & Hn).
    rewrite (bind_ok _ _ _ _ _ (ensure_setup_ready w1 ltac:(now rewrite Hn))).
    reflexivity.
  - now rewrite !(bind_raise _ _ _ _ _ E).
Qed.

(** C8, as the code has it.  [__iter__] on a sampler that holds a shard
    changes nothing, so a [for] loop over a sampler whose shard has been
    consumed yields nothing; [__iter__] performs [reset] exactly when no
    shard exists yet.  After a call of [reset] that returns, the cursor
    is at 0, and a [for] loop yields the rows of the new shard, which
    are [num_batches] rows on a sampler built without thresholds. *)
Theorem iter_resets_once (w : World G) :
  (has (num_batches (self w)) = true -> has (_shard (self w)) = true ->
   __iter__ w = (w, Ok tt)) /\
  (forall n fuel,
     num_batches (self w) = Some n -> n <= _step (self w) ->
     has (_shard (self w)) = true ->
     for_loop (S fuel) w = Some (w, [], Ok tt)) /\
  (has (_shard (self w)) = false -> __iter__ w = reset w) /\
  (forall w',
     reset w = (w', Ok tt) ->
     _step (self w') = 0 /\
     exists shard n,
       _shard (self w') = Some shard /\ num_batches (self w') = Some n /\
       (length shard = n ->
        for_loop (S n) w'
        = Some (upd (set_step n) w',
                map (visible (pad_batch (self w'))) shard, Ok tt))) /\
  (forall s0 w',
     flat_inv s0 w -> reset w = (w', Ok tt) ->
     exists n ys,
       num_batches (self w') = Some n /\ length ys = n /\
       for_loop (S n) w' = Some (upd (set_step n) w', ys, Ok tt)).
Proof.
  split; [|split; [|split; [|split]]].
  - apply iter_ready.
  - intros n fuel Hn Hle Hs. unfold for_loop.
    rewrite iter_ready by (rewrite ?Hn; auto).
    rewrite next_loop_S, (next_stop w n Hn Hle). reflexivity.
  - apply iter_fresh.
  - intros w' H. rewrite reset_unfold in H.
    destruct (compute_shard w) as [w1 [shard|e]] eqn:E; [|discriminate].
    injection H as <-. split; [reflexivity|].
    destruct (compute_shard_scheduled _ _ _ E) as (n & Hn).
    exists shard, n. split; [reflexivity|]. split; [exact Hn|].
    intros Hlen. now apply for_loop_full.
  - intros s0 w' HI H.
    pose proof (flat_inv_reset s0 w HI) as HI'. rewrite H in HI'. simpl in HI'.
    rewrite reset_unfold in H.
    destruct (compute_shard w) as [w1 [shard|e]] eqn:E; [|discriminate].
    injection H as <-.
    destruct (compute_shard_scheduled _ _ _ E) as (n & Hn).
    destruct HI' as (_ & _ & _ & Hsh).
    destruct (Hsh shard eq_refl) as [Hnb _]. simpl in Hnb.
    rewrite Hn in Hnb. injection Hnb as Hlen.
    exists n, (map (visible (pad_batch (self w1))) shard).
    split; [exact Hn|]. split; [now rewrite length_map|].
    exact (for_loop_full (upd (set_step 0) (upd (set_shard shard) w1)) n shard
             Hn eq_refl (eq_sym Hlen) eq_refl).
Qed.

End NewEpoch.

(** C8 as stated fails: on the drained sampler [__iter__] performs no
    reset, the cursor stays at [num_batches = 2] and the loop yields
    nothing. *)
Lemma second_pass_yields_nothing :
  num_batches (self drained_world) = Some 2 /\
  _step (self drained_world) = 2 /\
  __iter__ drained_world = (drained_world, Ok tt) /\
  _step (self (fst (__iter__ drained_world))) <> 0 /\
  for_loop 3 drained_world = Some (drained_world, [], Ok tt).
Proof. repeat split. discriminate. Qed.

(** A run of the amended C8 on the drained sampler and on a fresh one. *)
Lemma iter_resets_once_witness :
  __iter__ drained_world = (drained_world, Ok tt) /\
  for_loop 3 drained_world = Some (drained_world, [], Ok tt) /\
  __iter__ ordered_world = reset ordered_world /\
  _step (self (fst (reset drained_world))) = 0 /\
  exists n ys,
    num_batches (self (fst (reset drained_world))) = Some n /\ length ys = n /\
    for_loop (S n) (fst (reset drained_world))
    = Some (upd (set_step n) (fst (reset drained_world)), ys, Ok tt).
Proof.
  pose proof (iter_resets_once drained_world) as (H1 & H2 & _ & H4 & H5).
  pose proof (iter_resets_once ordered_world) as (_ & _ & H3 & _).
  split; [exact (H1 eq_refl eq_refl)|].
  split; [exact (H2 2 2 eq_refl (le_n 2) eq_refl)|].
  split; [exact (H3 eq_refl)|].
  split; [exact (proj1 (H4 (fst (reset drained_world)) eq_refl))|].
  apply (H5 (self ordered_world) (fst (reset drained_world))); [|reflexivity].
  apply (run_preserves _ [CallIter; CallNext; CallNext] (flat_invariant _)).
  apply flat_inv_fresh.
Defined.

(* ------------------------------------------------------------------ *)
(** ** An empty sequence of thresholds *)

Lemma digitize_no_bins (xs : list Q) :
  digitize xs [] = Ok (repeat 0 (length xs)).
Proof.
  unfold digitize. simpl. f_equal.
  induction xs as [|x xs IH]; simpl; [reflexivity|now rewrite IH].
Qed.

Section EmptyThresholds.

Context {G : RandomGen}.

(** C10.  With [aspect_ratio_thresholds=[]] the constructor accepts
    either value of [pad_batch].  [setup] takes the bucketing branch:
    it raises [AssertionError] when the dataset has no aspect ratios
    and otherwise gives every item the flag 0.  [reset] takes the
    branch without bucketing: whenever it returns, the stream it cut
    into rows is a permutation of [0..L-1] followed by its own prefix
    ([pad_batch=True]) or by sentinels ([pad_batch=False]), and the
    shard is this rank's run of the shuffled rows. *)
Theorem empty_thresholds (ds : Dataset) (B W rk : nat) (sh pb sy : bool)
    (seed : Z) (g : rng) :
  let s0 := fresh ds B sh (Some []) pb sy rk W seed in
  let w0 := {| np_random := g; self := s0 |} in
  let L := dataset_len ds in
  __init__ ds B sh (Some []) pb sy rk W seed = Ok s0 /\
  (aspect_ratios ds = None -> setup w0 = (w0, Raise AssertionError)) /\
  (forall ratios,
     aspect_ratios ds = Some ratios ->
     bucket_flags (self (fst (setup w0))) = Some (repeat 0 (length ratios))) /\
  (forall cs w',
     reset (fst (run cs w0)) = (w', Ok tt) ->
     exists n shuffled batches permuted k,
       num_batches (self w') = Some n /\
       Permutation (arange L) shuffled /\
       reshape_rows B
         (shuffled ++
          (if pb
           then slice_to shuffled (Z.of_nat (n * (W * B)) - Z.of_nat L)
           else list_times (-1)%Z (Z.of_nat (n * (W * B)) - Z.of_nat L)))
       = Ok batches /\
       Permutation batches permuted /\
       _shard (self w') = Some (firstn k (skipn (rk * k) permuted))).
Proof.
  intros s0 w0 L. split; [|split; [|split]].
  - now destruct pb.
  - intros Hr. unfold setup, bind, get_self, raise. simpl. now rewrite Hr.
  - intros ratios Hr.
    rewrite (setup_bucketed w0 [] ratios _ eq_refl Hr (digitize_no_bins ratios)).
    cbv zeta. destruct (map_result _ _); [|reflexivity].
    destruct (map_result _ _); reflexivity.
  - intros cs w' H.
    pose proof (run_preserves _ cs (config_invariant s0) w0 (same_config_refl _))
      as (Cd & CB & _ & Cth & Cpb & _ & Crk & CW & _).
    set (w := fst (run cs w0)) in *.
    rewrite reset_unfold in H.
    destruct (compute_shard w) as [w1 [shard|e]] eqn:E; [|discriminate].
    injection H as <-.
    assert (Htr : truthy (aspect_ratio_thresholds (self w)) = false)
      by now rewrite Cth.
    destruct (compute_shard_flat w w1 shard Htr E)
      as (n & shuffled & batches & permuted & k & Hn & Hperm & Hb & Hp & _ & _
          & -> & _ & _).
    rewrite Cd, CB, Cpb, CW in *. rewrite Crk.
    exists n, shuffled, batches, permuted, k.
    split; [exact Hn|]. split; [exact Hperm|]. split; [exact Hb|].
    split; [exact Hp|reflexivity].
Qed.

End EmptyThresholds.

(** Three items with aspect ratios, an empty threshold sequence and
    [pad_batch=False]. *)
Definition empty_thresholds_world : World RotGen :=
  {| np_random := 0;
     self := fresh {| dataset_len := 3;
                      aspect_ratios := Some [1 # 2; 3 # 2; 1 # 1]%Q |}
                   2 false (Some []) false true 0 1 1%Z |}.

(** A run of C10: all flags are 0 after [setup], and [reset] pads the
    ordered range with one sentinel. *)
Lemma empty_thresholds_witness :
  bucket_flags (self (fst (setup empty_thresholds_world))) = Some [0; 0; 0] /\
  _shard (self (fst (reset empty_thresholds_world))) = Some [[0; 1]; [2; -1]]%Z /\
  exists n shuffled batches permuted k,
    num_batches (self (fst (reset empty_thresholds_world))) = Some n /\
    Permutation (arange 3) shuffled /\
    reshape_rows 2
      (shuffled ++ list_times (-1)%Z (Z.of_nat (n * (1 * 2)) - Z.of_nat 3))
    = Ok batches /\
    Permutation batches permuted /\
    _shard (self (fst (reset empty_thresholds_world)))
    = Some (firstn k (skipn (0 * k) permuted)).
Proof.
  destruct (empty_thresholds (G := RotGen)
              {| dataset_len := 3; aspect_ratios := Some [1 # 2; 3 # 2; 1 # 1]%Q |}
              2 1 0 false false true 1%Z 0) as (_ & _ & H3 & H4).
  split; [exact (H3 _ eq_refl)|]. split; [reflexivity|].
  exact (H4 [] (fst (reset empty_thresholds_world)) eq_refl).
Defined.

(* ------------------------------------------------------------------ *)
(** ** Two samplers side by side *)

Section Relational.

Context {G : RandomGen}.

(** A relation between two samplers that equates everything the
    schedule and the seeded draws read, and excludes the process-wide
    generator. *)
Variable Rs : Sampler -> Sampler -> Prop.

Hypothesis Rs_fields : forall s1 s2, Rs s1 s2 ->
  dataset s1 = dataset s2 /\ batch_size s1 = batch_size s2 /\
  shuffle s1 = shuffle s2 /\
  aspect_ratio_thresholds s1 = aspect_ratio_thresholds s2 /\
  pad_batch s1 = pad_batch s2 /\
  sync_seed_schedule s1 = sync_seed_schedule s2 /\
  world_size s1 = world_size s2 /\ init_seed s1 = init_seed s2 /\
  epoch s1 = epoch s2 /\ num_batches s1 = num_batches s2 /\
  bucket_flags s1 = bucket_flags s2 /\ bucket_sizes s1 = bucket_sizes s2 /\
  pad_lengths s1 = pad_lengths s2 /\
  shuffle s2 && negb (sync_seed_schedule s2) = false.

Hypothesis Rs_num_batches : forall v s1 s2,
  Rs s1 s2 -> Rs (set_num_batches v s1) (set_num_batches v s2).
Hypothesis Rs_bucket_flags : forall v s1 s2,
  Rs s1 s2 -> Rs (set_bucket_flags v s1) (set_bucket_flags v s2).
Hypothesis Rs_bucket_sizes : forall v s1 s2,
  Rs s1 s2 -> Rs (set_bucket_sizes v s1) (set_bucket_sizes v s2).
Hypothesis Rs_pad_lengths : forall v s1 s2,
  Rs s1 s2 -> Rs (set_pad_lengths v s1) (set_pad_lengths v s2).
Hypothesis Rs_epoch : forall v s1 s2,
  Rs s1 s2 -> Rs (set_epoch v s1) (set_epoch v s2).

(** Two computations that keep the samplers related and agree on
    their outcome, which satisfies [Q] when it is a value. *)
Definition rel {A} (Q : A -> Prop) (m1 m2 : M G A) : Prop :=
  forall w1 w2, Rs (self w1) (self w2) ->
    Rs (self (fst (m1 w1))) (self (fst (m2 w2))) /\
    snd (m1 w1) = snd (m2 w2) /\
    forall a, snd (m1 w1) = Ok a -> Q a.

Lemma rel_ret {A} (Q : A -> Prop) (a : A) : Q a -> rel Q (ret a) (ret a).
Proof.
  intros Ha w1 w2 H. simpl. repeat split; auto.
  intros a' Ha'. now injection Ha' as <-.
Qed.

Lemma rel_raise {A} (Q : A -> Prop) (e : exn) : rel Q (raise e) (raise e).
Proof. intros w1 w2 H. simpl. repeat split; auto. discriminate. Qed.

Lemma rel_lift {A} (r : result A) : rel (fun _ => True) (lift r) (lift r).
Proof. intros w1 w2 H. simpl. repeat split; auto. Qed.

Lemma rel_getattr {A} (o : option A) : rel (fun _ => True) (getattr o) (getattr o).
Proof. intros w1 w2 H. destruct o; simpl; repeat split; auto. Qed.

Lemma rel_bind {A B} (Q : A -> Prop) (Q' : B -> Prop)
    (m1 m2 : M G A) (k1 k2 : A -> M G B) :
  rel Q m1 m2 -> (forall a, Q a -> rel Q' (k1 a) (k2 a)) ->
  rel Q' (bind m1 k1) (bind m2 k2).
Proof.
  intros Hm Hk w1 w2 H. unfold bind.
  destruct (Hm w1 w2 H) as (H1 & H2 & H3).
  destruct (m1 w1) as [w1' [a|e]], (m2 w2) as [w2' r2]; simpl in *; subst r2.
  - apply (Hk a (H3 a eq_refl) w1' w2' H1).
  - repeat split; auto. discriminate.
Qed.

Lemma rel_get_self {A} (Q : A -> Prop) (k1 k2 : Sampler -> M G A) :
  (forall s1 s2, Rs s1 s2 -> rel Q (k1 s1) (k2 s2)) ->
  rel Q (bind get_self k1) (bind get_self k2).
Proof. intros Hk w1 w2 H. apply (Hk _ _ H w1 w2 H). Qed.

Lemma rel_modify (f1 f2 : Sampler -> Sampler) :
  (forall s1 s2, Rs s1 s2 -> Rs (f1 s1) (f2 s2)) ->
  rel (fun _ => True) (modify_self f1) (modify_self f2).
Proof. intros Hf w1 w2 H. simpl. repeat split; auto. Qed.

Definition seeded (src : perm_src) : Prop := src <> Shared.

Lemma rel_rand_perm {A} (src : perm_src) (x : list A) :
  seeded src ->
  rel (fun p => seeded (snd p)) (rand_perm src x) (rand_perm src x).
Proof.
  intros Hsrc w1 w2 H. destruct src as [|g|]; simpl.
  - repeat split; auto. intros a Ha. injection Ha as <-. discriminate.
  - repeat split; auto. intros a Ha. injection Ha as <-. discriminate.
  - now contradiction Hsrc.
Qed.

Ltac fields Hs :=
  let Fd := fresh in let FB := fresh in let Fsh := fresh in
  let Fth := fresh in let Fpb := fresh in let Fsy := fresh in
  let FW := fresh in let Fis := fresh in let Fep := fresh in
  let Fnb := fresh in let Fbf := fresh in let Fbs := fresh in
  let Fpl := fresh in let Fsd := fresh "Fseeded" in
  destruct (Rs_fields _ _ Hs)
    as (Fd & FB & Fsh & Fth & Fpb & Fsy & FW & Fis & Fep & Fnb & Fbf & Fbs
        & Fpl & Fsd);
  cbv beta;
  rewrite ?Fd, ?FB, ?Fsh, ?Fth, ?Fpb, ?Fsy, ?FW, ?Fis, ?Fep, ?Fnb, ?Fbf,
    ?Fbs, ?Fpl.

Ltac rel_step :=
  match goal with
  | |- rel _ (bind get_self _) (bind get_self _) =>
      apply rel_get_self; let Hs := fresh "Hs" in intros ? ? Hs; fields Hs
  | |- rel _ (bind _ _) (bind _ _) =>
      apply (rel_bind (fun _ => True)); [|intros ? _]
  | |- rel _ (ret _) (ret _) => apply rel_ret
  | |- rel _ (raise _) (raise _) => apply rel_raise
  | |- rel _ (lift _) (lift _) => apply rel_lift
  | |- rel _ (getattr _) (getattr _) => apply rel_getattr
  | |- rel _ (modify_self _) (modify_self _) => apply rel_modify
  | |- rel _ (match ?x with _ => _ end) (match ?x with _ => _ end) => destruct x
  end.

Lemma setup_rel : rel (fun _ => True) setup setup.
Proof.
  unfold setup.
  repeat rel_step; auto.
Qed.

Lemma ensure_setup_rel : rel (fun _ => True) ensure_setup ensure_setup.
Proof.
  unfold ensure_setup. repeat rel_step; auto using setup_rel.
Qed.

Lemma len_rel : rel (fun _ => True) __len__ __len__.
Proof.
  unfold __len__. repeat rel_step; auto using ensure_setup_rel.
Qed.

Lemma choose_rand_perm_rel : rel seeded choose_rand_perm choose_rand_perm.
Proof.
  unfold choose_rand_perm. apply rel_get_self. intros s1 s2 Hs.
  destruct (Rs_fields _ _ Hs)
    as (_ & _ & Fsh & _ & _ & Fsy & _ & Fis & Fep & _ & _ & _ & _ & Fsd).
  rewrite Fsh, Fsy, Fis, Fep.
  destruct (shuffle s2); simpl in *.
  - destruct (sync_seed_schedule s2); [|discriminate].
    apply (rel_bind (fun _ => True)); [apply rel_lift|]. intros g _.
    apply (rel_bind (fun _ => True)).
    + apply rel_modify. intros t1 t2 Ht.
      destruct (Rs_fields _ _ Ht) as (_ & _ & _ & _ & _ & _ & _ & _ & -> & _).
      now apply Rs_epoch.
    + intros _ _. apply rel_ret. discriminate.
  - apply rel_ret. discriminate.
Qed.

Lemma bucket_loop_rel (zs : list (nat * Z)) : forall idx src acc,
  seeded src ->
  rel (fun p => seeded (snd p))
    (bucket_loop idx zs src acc) (bucket_loop idx zs src acc).
Proof.
  induction zs as [|[size pad] rest IH]; intros idx src acc Hsrc; simpl.
  - now apply rel_ret.
  - destruct (size =? 0); [now apply IH|].
    apply rel_get_self. intros s1 s2 Hs.
    destruct (Rs_fields _ _ Hs)
      as (_ & _ & _ & _ & _ & _ & _ & _ & _ & _ & -> & _).
    apply (rel_bind (fun _ => True)); [apply rel_getattr|]. intros flags _.
    apply (rel_bind (fun p => seeded (snd p))); [now apply rel_rand_perm|].
    intros [shuffled src'] Hsrc'. now apply IH.
Qed.

Lemma draw_indices_rel (src : perm_src) :
  seeded src ->
  rel (fun p => seeded (snd p)) (draw_indices src) (draw_indices src).
Proof.
  intros Hsrc. unfold draw_indices. apply rel_get_self. intros s1 s2 Hs.
  fields Hs.
  destruct (truthy (aspect_ratio_thresholds s2)).
  - apply (rel_bind (fun _ => True)); [apply rel_getattr|]. intros sizes _.
    apply (rel_bind (fun _ => True)); [apply rel_getattr|]. intros pads _.
    now apply bucket_loop_rel.
  - apply (rel_bind (fun p => seeded (snd p))); [now apply rel_rand_perm|].
    intros [shuffled src'] Hsrc'.
    apply (rel_bind (fun _ => True)); [apply len_rel|]. intros n _.
    destruct (pad_batch s2); now apply rel_ret.
Qed.

Lemma shuffled_batches_rel : rel (fun _ => True) shuffled_batches shuffled_batches.
Proof.
  unfold shuffled_batches.
  apply (rel_bind seeded); [apply choose_rand_perm_rel|]. intros src Hsrc.
  apply (rel_bind (fun p => seeded (snd p))); [now apply draw_indices_rel|].
  intros [stream src'] Hsrc'.
  apply rel_get_self. intros s1 s2 Hs. fields Hs.
  apply (rel_bind (fun _ => True)); [apply rel_lift|]. intros batches _.
  apply (rel_bind (fun p => seeded (snd p))); [now apply rel_rand_perm|].
  intros [permuted src''] _. now apply rel_ret.
Qed.

Lemma epoch_prefix_rel : rel (fun _ => True) epoch_prefix epoch_prefix.
Proof.
  unfold epoch_prefix.
  apply (rel_bind (fun _ => True)); [apply ensure_setup_rel|].
  intros _ _. apply shuffled_batches_rel.
Qed.

(** From here on the relation also equates the rank and the cursor. *)
Hypothesis Rs_cursor : forall s1 s2, Rs s1 s2 ->
  rank s1 = rank s2 /\ _step s1 = _step s2 /\ _shard s1 = _shard s2.
Hypothesis Rs_shard : forall v s1 s2,
  Rs s1 s2 -> Rs (set_shard v s1) (set_shard v s2).
Hypothesis Rs_step : forall v s1 s2,
  Rs s1 s2 -> Rs (set_step v s1) (set_step v s2).

Lemma compute_shard_rel : rel (fun _ => True) compute_shard compute_shard.
Proof.
  unfold compute_shard.
  apply (rel_bind (fun _ => True)); [apply ensure_setup_rel|]. intros _ _.
  apply (rel_bind (fun _ => True)); [apply shuffled_batches_rel|].
  intros permuted _. apply rel_get_self. intros s1 s2 Hs.
  destruct (Rs_cursor _ _ Hs) as (-> & _). fields Hs.
  apply (rel_bind (fun _ => True)); [apply rel_lift|]. intros shards _.
  apply rel_lift.
Qed.

Lemma reset_rel : rel (fun _ => True) reset reset.
Proof.
  unfold reset.
  apply (rel_bind (fun _ => True)); [apply compute_shard_rel|]. intros shard _.
  apply (rel_bind (fun _ => True)); [apply rel_modify; auto|]. intros _ _.
  apply rel_modify; auto.
Qed.

Lemma iter_rel : rel (fun _ => True) __iter__ __iter__.
Proof.
  unfold __iter__.
  apply (rel_bind (fun _ => True)); [apply ensure_setup_rel|]. intros _ _.
  apply rel_get_self. intros s1 s2 Hs.
  destruct (Rs_cursor _ _ Hs) as (_ & _ & ->).
  destruct (has (_shard s2)); [now apply rel_ret|apply reset_rel].
Qed.

Lemma next_rel : rel (fun _ => True) __next__ __next__.
Proof.
  unfold __next__. apply rel_get_self. intros s1 s2 Hs.
  destruct (Rs_cursor _ _ Hs) as (_ & -> & ->). fields Hs.
  apply (rel_bind (fun _ => True)); [apply rel_getattr|]. intros n _.
  destruct (n <=? _step s2); [apply rel_raise|].
  apply (rel_bind (fun _ => True)).
  - destruct (pad_batch s2).
    + apply (rel_bind (fun _ => True)); [apply rel_getattr|]. intros shard _.
      apply rel_lift.
    + apply (rel_bind (fun _ => True)); [apply rel_getattr|]. intros shard _.
      apply (rel_bind (fun _ => True)); [apply rel_lift|]. intros row _.
      now apply rel_ret.
  - intros ids _.
    apply (rel_bind (fun _ => True)).
    + apply rel_modify. intros t1 t2 Ht.
      destruct (Rs_cursor _ _ Ht) as (_ & -> & _). now apply Rs_step.
    + intros _ _. now apply rel_ret.
Qed.

Lemma do_call_rel (c : call) : rel (fun _ => True) (do_call c) (do_call c).
Proof.
  intros w1 w2 H. destruct c; simpl.
  - destruct (setup_rel w1 w2 H) as (H1 & -> & _). auto.
  - destruct (reset_rel w1 w2 H) as (H1 & -> & _). auto.
  - destruct (iter_rel w1 w2 H) as (H1 & -> & _). auto.
  - destruct (next_rel w1 w2 H) as (H1 & -> & _). auto.
  - destruct (len_rel w1 w2 H) as (H1 & -> & _). auto.
Qed.

Lemma run_rel (cs : list call) : forall w1 w2,
  Rs (self w1) (self w2) ->
  Rs (self (fst (run cs w1))) (self (fst (run cs w2))) /\
  snd (run cs w1) = snd (run cs w2).
Proof.
  induction cs as [|c cs IH]; intros w1 w2 H; simpl; [auto|].
  destruct (do_call_rel c w1 w2 H) as (H1 & H2 & _).
  destruct (do_call c w1) as [w1' r1], (do_call c w2) as [w2' r2].
  simpl in H1, H2. subst r2.
  destruct (IH w1' w2' H1) as (H3 & H4).
  destruct (run cs w1') as [w1'' rs1], (run cs w2') as [w2'' rs2].
  simpl in *. subst. auto.
Qed.

End Relational.

(* ------------------------------------------------------------------ *)
(** ** Determinism *)

(** The same sampler, configured so that [reset] never draws from the
    process-wide generator. *)
Definition agree (s1 s2 : Sampler) : Prop :=
  s1 = s2 /\ shuffle s2 && negb (sync_seed_schedule s2) = false.

Lemma agree_fields (s1 s2 : Sampler) : agree s1 s2 ->
  dataset s1 = dataset s2 /\ batch_size s1 = batch_size s2 /\
  shuffle s1 = shuffle s2 /\
  aspect_ratio_thresholds s1 = aspect_ratio_thresholds s2 /\
  pad_batch s1 = pad_batch s2 /\
  sync_seed_schedule s1 = sync_seed_schedule s2 /\
  world_size s1 = world_size s2 /\ init_seed s1 = init_seed s2 /\
  epoch s1 = epoch s2 /\ num_batches s1 = num_batches s2 /\
  bucket_flags s1 = bucket_flags s2 /\ bucket_sizes s1 = bucket_sizes s2 /\
  pad_lengths s1 = pad_lengths s2 /\
  shuffle s2 && negb (sync_seed_schedule s2) = false.
Proof. intros [-> H]. repeat split; exact H. Qed.

Lemma agree_cursor (s1 s2 : Sampler) : agree s1 s2 ->
  rank s1 = rank s2 /\ _step s1 = _step s2 /\ _shard s1 = _shard s2.
Proof. intros [-> _]. repeat split. Qed.

Lemma agree_set (f : Sampler -> Sampler) :
  (forall s, shuffle (f s) = shuffle s) ->
  (forall s, sync_seed_schedule (f s) = sync_seed_schedule s) ->
  forall s1 s2, agree s1 s2 -> agree (f s1) (f s2).
Proof. intros Hsh Hsy s1 s2 [-> H]. split; [reflexivity|]. now rewrite Hsh, Hsy. Qed.

Section Determinism.

Context {G : RandomGen}.

(** C2, as the code has it.  With [shuffle=False] or
    [sync_seed_schedule=True], two runs of the same sequence of calls
    on the same sampler end with the same attributes, shard included,
    and return the same values call by call, whatever the states of
    the process-wide generator in the two runs. *)
Theorem seeded_runs_agree (s : Sampler) (g1 g2 : rng) (cs : list call) :
  shuffle s && negb (sync_seed_schedule s) = false ->
  self (fst (run cs {| np_random := g1; self := s |}))
  = self (fst (run cs {| np_random := g2; self := s |})) /\
  snd (run cs {| np_random := g1; self := s |})
  = snd (run cs {| np_random := g2; self := s |}).
Proof.
  intros Hs.
  destruct (run_rel agree agree_fields
              (fun v => agree_set (set_num_batches v) (fun _ => eq_refl) (fun _ => eq_refl))
              (fun v => agree_set (set_bucket_flags v) (fun _ => eq_refl) (fun _ => eq_refl))
              (fun v => agree_set (set_bucket_sizes v) (fun _ => eq_refl) (fun _ => eq_refl))
              (fun v => agree_set (set_pad_lengths v) (fun _ => eq_refl) (fun _ => eq_refl))
              (fun v => agree_set (set_epoch v) (fun _ => eq_refl) (fun _ => eq_refl))
              agree_cursor
              (fun v => agree_set (set_shard v) (fun _ => eq_refl) (fun _ => eq_refl))
              (fun v => agree_set (set_step v) (fun _ => eq_refl) (fun _ => eq_refl))
              cs {| np_random := g1; self := s |} {| np_random := g2; self := s |}
              (conj eq_refl Hs)) as ([H1 _] & H2).
  split; assumption.
Qed.

End Determinism.

(** Four items shuffled without synchronised seeding. *)
Definition unsynced : Sampler := fresh (plain 4) 2 true None true false 0 1 1%Z.

(** C2 as stated fails: a second sampler with the same configuration,
    reset in the same process after the first, draws from the generator
    the first one advanced and gets another shard. *)
Lemma unsynced_runs_differ :
  _shard (self (fst (reset (G := RotGen) {| np_random := 1; self := unsynced |})))
  = Some [[1; 2]; [3; 0]]%Z /\
  np_random (fst (reset (G := RotGen) {| np_random := 1; self := unsynced |})) = 3 /\
  _shard (self (fst (reset (G := RotGen) {| np_random := 3; self := unsynced |})))
  = Some [[3; 0]; [1; 2]]%Z /\
  _shard (self (fst (reset (G := RotGen) {| np_random := 1; self := unsynced |})))
  <> _shard (self (fst (reset (G := RotGen) {| np_random := 3; self := unsynced |}))).
Proof. repeat split. discriminate. Qed.

(** A run of the amended C2 on the synchronised sampler, from two
    generator states. *)
Lemma seeded_runs_agree_witness :
  self (fst (run [CallReset; CallIter; CallNext; CallLen]
               {| np_random := 1; self := self shuffled_world |}))
  = self (fst (run [CallReset; CallIter; CallNext; CallLen]
                 {| np_random := 3; self := self shuffled_world |})) /\
  snd (run [CallReset; CallIter; CallNext; CallLen]
         {| np_random := 1; self := self shuffled_world |})
  = snd (run [CallReset; CallIter; CallNext; CallLen]
           {| np_random := 3; self := self shuffled_world |}).
Proof.
  apply (seeded_runs_agree (G := RotGen) (self shuffled_world) 1 3
           [CallReset; CallIter; CallNext; CallLen]).
  reflexivity.
Defined.

(* ------------------------------------------------------------------ *)
(** ** Shards across ranks *)

Lemma slices_concat {A} (n groups : nat) (l : list A) :
  length l = groups * n ->
  concat (map (fun r => firstn n (skipn (r * n) l)) (seq 0 groups)) = l.
Proof.
  intros H. rewrite <- rows_as_slices. now apply rows_concat.
Qed.

Lemma NoDup_app_disjoint {A} (l1 l2 : list A) (x : A) :
  NoDup (l1 ++ l2) -> In x l1 -> In x l2 -> False.
Proof.
  induction l1 as [|a l1 IH]; intros Hnd H1 H2; [contradiction|].
  simpl in Hnd. inversion Hnd as [|? ? Hna Hnd']; subst.
  destruct H1 as [->|H1].
  - apply Hna. apply in_or_app. now right.
  - now apply IH.
Qed.

Lemma NoDup_concat_disjoint {A} (ls : list (list A)) : forall i j x,
  NoDup (concat ls) -> i < j ->
  In x (nth i ls []) -> In x (nth j ls []) -> False.
Proof.
  induction ls as [|l ls IH]; intros i j x Hnd Hij Hi Hj.
  - destruct i; contradiction.
  - simpl in Hnd. destruct j as [|j]; [lia|]. destruct i as [|i]; simpl in Hi, Hj.
    + apply (NoDup_app_disjoint l (concat ls) x Hnd Hi).
      destruct (Nat.lt_ge_cases j (length ls)) as [Hlt|Hge].
      * apply in_concat. exists (nth j ls []). split; [now apply nth_In|exact Hj].
      * rewrite nth_overflow in Hj by lia. contradiction.
    + apply (IH i j x); auto; [|lia]. eapply NoDup_app_remove_l; eauto.
Qed.

(** Two ranks' runs of batches share no index when the stream holds
    none twice. *)
Lemma slices_disjoint (n groups : nat) (l : list (list Z)) (r1 r2 : nat) (x : Z) :
  length l = groups * n -> NoDup (concat l) ->
  r1 < r2 -> r2 < groups ->
  In x (concat (firstn n (skipn (r1 * n) l))) ->
  In x (concat (firstn n (skipn (r2 * n) l))) -> False.
Proof.
  intros Hl Hnd H12 H2 Hx1 Hx2.
  pose proof (slices_concat n groups l Hl) as Hc.
  set (f := fun r => firstn n (skipn (r * n) l)) in *.
  assert (Hcc : concat l = concat (map (fun r => concat (f r)) (seq 0 groups))).
  { rewrite <- Hc at 1. clear.
    induction (seq 0 groups) as [|a t IH]; simpl; [reflexivity|].
    now rewrite concat_app, IH. }
  rewrite Hcc in Hnd.
  apply (NoDup_concat_disjoint _ r1 r2 x Hnd H12).
  - rewrite (nth_indep _ [] (concat (f 0))) by (rewrite length_map, length_seq; lia).
    rewrite (map_nth (fun r => concat (f r))), seq_nth by lia. exact Hx1.
  - rewrite (nth_indep _ [] (concat (f 0))) by (rewrite length_map, length_seq; lia).
    rewrite (map_nth (fun r => concat (f r))), seq_nth by lia. exact Hx2.
Qed.

(** Two samplers that differ at most in [rank] and [_shard], seeded or
    unshuffled. *)
Definition twin (s1 s2 : Sampler) : Prop :=
  dataset s1 = dataset s2 /\ batch_size s1 = batch_size s2 /\
  shuffle s1 = shuffle s2 /\
  aspect_ratio_thresholds s1 = aspect_ratio_thresholds s2 /\
  pad_batch s1 = pad_batch s2 /\
  sync_seed_schedule s1 = sync_seed_schedule s2 /\
  world_size s1 = world_size s2 /\ init_seed s1 = init_seed s2 /\
  epoch s1 = epoch s2 /\ num_batches s1 = num_batches s2 /\
  bucket_flags s1 = bucket_flags s2 /\ bucket_sizes s1 = bucket_sizes s2 /\
  pad_lengths s1 = pad_lengths s2 /\
  shuffle s2 && negb (sync_seed_schedule s2) = false.

Ltac twin_setter :=
  intros v s1 s2 (H1 & H2 & H3 & H4 & H5 & H6 & H7 & H8 & H9 & H10 & H11 & H12
                  & H13 & H14);
  unfold twin; cbn; repeat split; auto.

Lemma twin_num_batches : forall v s1 s2,
  twin s1 s2 -> twin (set_num_batches v s1) (set_num_batches v s2).
Proof. twin_setter. Qed.

Lemma twin_bucket_flags : forall v s1 s2,
  twin s1 s2 -> twin (set_bucket_flags v s1) (set_bucket_flags v s2).
Proof. twin_setter. Qed.

Lemma twin_bucket_sizes : forall v s1 s2,
  twin s1 s2 -> twin (set_bucket_sizes v s1) (set_bucket_sizes v s2).
Proof. twin_setter. Qed.

Lemma twin_pad_lengths : forall v s1 s2,
  twin s1 s2 -> twin (set_pad_lengths v s1) (set_pad_lengths v s2).
Proof. twin_setter. Qed.

Lemma twin_epoch : forall v s1 s2,
  twin s1 s2 -> twin (set_epoch v s1) (set_epoch v s2).
Proof. twin_setter. Qed.

Lemma twin_shards (v1 v2 : list (list Z)) (s1 s2 : Sampler) :
  twin s1 s2 ->
  twin (set_step 0 (set_shard v1 s1)) (set_step 0 (set_shard v2 s2)).
Proof.
  intros (H1 & H2 & H3 & H4 & H5 & H6 & H7 & H8 & H9 & H10 & H11 & H12 & H13 & H14).
  unfold twin; cbn; repeat split; auto.
Qed.

Section Sharding.

Context {G : RandomGen}.

Lemma compute_shard_unfold (w : World G) :
  compute_shard w =
  match epoch_prefix w with
  | (w', Ok permuted) =>
      (w', match reshape_shards (world_size (self w')) permuted with
           | Ok shards => index shards (rank (self w'))
           | Raise e => Raise e
           end)
  | (w', Raise e) => (w', Raise e)
  end.
Proof.
  unfold compute_shard, epoch_prefix, bind, get_self, lift.
  destruct (ensure_setup w) as [w1 [[]|e]]; [|reflexivity].
  destruct (shuffled_batches w1) as [w2 [permuted|e]]; [|reflexivity].
  destruct (reshape_shards _ permuted); reflexivity.
Qed.

Lemma kept_epoch_prefix (s0 : Sampler) : preserves (kept s0) epoch_prefix.
Proof.
  unfold epoch_prefix. apply preserves_bind.
  - apply ensure_setup_preserves, kept_setup.
  - intros _. apply shuffled_batches_preserves.
    + intros g w H; exact H.
    + apply kept_setup.
    + apply choose_rand_perm_preserves. intros v w H; exact H.
Qed.

Lemma resets_config (s0 : Sampler) (k : nat) :
  preserves (fun w => same_config s0 (self w)) (resets k).
Proof.
  induction k as [|k IH]; simpl.
  - apply preserves_ret.
  - apply preserves_bind; [exact IH|]. intros _.
    apply (proj1 (proj2 (config_invariant s0))).
Qed.

Definition twin_prefix :=
  epoch_prefix_rel twin (fun s1 s2 H => H) twin_num_batches twin_bucket_flags
    twin_bucket_sizes twin_pad_lengths twin_epoch.

(** One [reset] on two ranks of the same job. *)
Lemma reset_twin (w1 w2 : World G) :
  twin (self w1) (self w2) ->
  rank (self w1) < world_size (self w1) ->
  rank (self w2) < world_size (self w2) ->
  twin (self (fst (reset w1))) (self (fst (reset w2))) /\
  snd (reset w1) = snd (reset w2) /\
  (snd (reset w1) = Ok tt ->
   exists permuted n,
     snd (epoch_prefix w1) = Ok permuted /\
     snd (epoch_prefix w2) = Ok permuted /\
     length permuted = world_size (self w1) * n /\
     _shard (self (fst (reset w1)))
     = Some (firstn n (skipn (rank (self w1) * n) permuted)) /\
     _shard (self (fst (reset w2)))
     = Some (firstn n (skipn (rank (self w2) * n) permuted))).
Proof.
  intros Ht Hr1 Hr2.
  rewrite !reset_unfold, !compute_shard_unfold.
  destruct (twin_prefix w1 w2 Ht) as (Ht' & Hv & _).
  pose proof (kept_epoch_prefix (self w1) w1 ltac:(repeat split)) as K1.
  pose proof (kept_epoch_prefix (self w2) w2 ltac:(repeat split)) as K2.
  destruct (epoch_prefix w1) as [w1' [permuted|e]], (epoch_prefix w2) as [w2' r2];
    simpl in Ht', Hv, K1, K2; subst r2.
  2:{ simpl. split; [exact Ht'|]. split; [reflexivity|discriminate]. }
  destruct K1 as ((_ & _ & _ & _ & _ & _ & Crk1 & CW1 & _) & _ & _).
  destruct K2 as ((_ & _ & _ & _ & _ & _ & Crk2 & CW2 & _) & _ & _).
  pose proof Ht' as (_ & _ & _ & _ & _ & _ & HW & _).
  cbv beta iota.
  rewrite Crk1, Crk2, <- HW, CW1.
  destruct (reshape_shards (world_size (self w1)) permuted) as [shards|e] eqn:E.
  2:{ simpl. split; [exact Ht'|]. split; [reflexivity|discriminate]. }
  apply reshape_shards_inv in E. destruct E as (HWpos & Hlen & ->).
  set (n := length permuted / world_size (self w1)) in *.
  unfold index. rewrite !rows_nth by (rewrite ?HW, ?CW1 in *; lia).
  simpl. split; [now apply twin_shards|]. split; [reflexivity|].
  intros _. exists permuted, n. repeat split; auto.
Qed.

Lemma resets_twin (k : nat) : forall w1 w2 : World G,
  twin (self w1) (self w2) ->
  rank (self w1) < world_size (self w1) ->
  rank (self w2) < world_size (self w2) ->
  twin (self (fst (resets k w1))) (self (fst (resets k w2))) /\
  snd (resets k w1) = snd (resets k w2).
Proof.
  induction k as [|k IH]; intros w1 w2 Ht Hr1 Hr2; simpl; [auto|].
  destruct (IH w1 w2 Ht Hr1 Hr2) as (Ht' & Hv).
  pose proof (resets_config (self w1) k w1 (same_config_refl _)) as C1.
  pose proof (resets_config (self w2) k w2 (same_config_refl _)) as C2.
  unfold bind.
  destruct (resets k w1) as [w1' [[]|e]], (resets k w2) as [w2' r2];
    simpl in Ht', Hv, C1, C2; subst r2; [|auto].
  destruct C1 as (_ & _ & _ & _ & _ & _ & Crk1 & CW1 & _).
  destruct C2 as (_ & _ & _ & _ & _ & _ & Crk2 & CW2 & _).
  destruct (reset_twin w1' w2' Ht') as (H1 & H2 & _);
    [now rewrite Crk1, CW1|now rewrite Crk2, CW2|].
  destruct (reset w1') as [w1'' r1], (reset w2') as [w2'' r2']. auto.
Qed.

End Sharding.

Lemma arange_NoDup (n : nat) : NoDup (arange n).
Proof.
  unfold arange. pose proof (seq_NoDup n 0) as H.
  induction H as [|a l Ha _ IH]; simpl; constructor; [|exact IH].
  intros Hin. apply in_map_iff in Hin. destruct Hin as (b & Hb & Hin).
  apply Nat2Z.inj in Hb. now subst b.
Qed.

Lemma slice_to_firstn {A} (l : list A) (k : Z) :
  exists m, slice_to l k = firstn m l.
Proof. unfold slice_to. destruct (0 <=? k)%Z; eauto. Qed.

Lemma In_slice_to {A} (l : list A) (k : Z) (x : A) :
  In x (slice_to l k) -> In x l.
Proof.
  destruct (slice_to_firstn l k) as (m & ->). intros H.
  rewrite <- (firstn_skipn m l). apply in_or_app. now left.
Qed.

Lemma count_occ_slice_to (l : list Z) (k x : Z) :
  count_occ Z.eq_dec (slice_to l k) x <= count_occ Z.eq_dec l x.
Proof.
  destruct (slice_to_firstn l k) as (m & ->).
  rewrite <- (firstn_skipn m l) at 2. rewrite count_occ_app. lia.
Qed.

Lemma arange_in (n : nat) (x : Z) :
  In x (arange n) <-> (0 <= x < Z.of_nat n)%Z.
Proof.
  unfold arange. rewrite in_map_iff. split.
  - intros (i & <- & Hi). apply in_seq in Hi. lia.
  - intros H. exists (Z.to_nat x). split; [lia|]. apply in_seq. lia.
Qed.

Lemma arange_nth (n i : nat) : i < n -> nth i (arange n) 0%Z = Z.of_nat i.
Proof.
  intros H. unfold arange.
  change 0%Z with (Z.of_nat 0). rewrite map_nth. now rewrite seq_nth.
Qed.

Lemma In_slices {A} (n groups : nat) (l : list (list A)) (x : A) :
  length l = groups * n -> In x (concat l) ->
  exists r, r < groups /\ In x (concat (firstn n (skipn (r * n) l))).
Proof.
  intros Hlen Hin. rewrite <- (slices_concat n groups l Hlen) in Hin.
  apply in_concat in Hin. destruct Hin as (row & Hrow & Hx).
  apply in_concat in Hrow. destruct Hrow as (sl & Hsl & Hrow).
  apply in_map_iff in Hsl. destruct Hsl as (r & <- & Hr).
  apply in_seq in Hr. exists r. split; [lia|].
  apply in_concat. eauto.
Qed.

(** Filtering keeps a rearrangement a rearrangement. *)
Lemma filter_permuted (p : Z -> bool) (xs ys : list Z) :
  Permutation xs ys -> Permutation (filter p xs) (filter p ys).
Proof.
  intros H. induction H as [|x xs ys _ IH|x y xs|xs ys zs _ IH1 _ IH2]; cbn.
  - constructor.
  - destruct (p x); [now constructor|exact IH].
  - destruct (p x), (p y); try reflexivity. apply perm_swap.
  - now rewrite IH1.
Qed.

(** Two runs of batches share only entries that [p] leaves out, when
    the entries it keeps are all different. *)
Lemma slices_share_only (p : Z -> bool) (n groups : nat) (l : list (list Z))
    (r1 r2 : nat) (x : Z) :
  length l = groups * n -> NoDup (filter p (concat l)) ->
  r1 < r2 -> r2 < groups ->
  In x (concat (firstn n (skipn (r1 * n) l))) ->
  In x (concat (firstn n (skipn (r2 * n) l))) -> p x = false.
Proof.
  intros Hlen Hnd H12 H2 Hx1 Hx2.
  destruct (p x) eqn:Hp; [exfalso|reflexivity].
  assert (Hin : forall r,
            In x (concat (firstn n (skipn (r * n) l))) ->
            In x (concat (firstn n (skipn (r * n) (map (filter p) l))))).
  { intros r Hx. rewrite skipn_map, firstn_map, concat_filter_map.
    apply filter_In. now split. }
  apply (slices_disjoint n groups (map (filter p) l) r1 r2 x);
    try assumption; try (now apply Hin).
  - now rewrite length_map.
  - now rewrite concat_filter_map.
Qed.

Section Partition.

Context {G : RandomGen}.

Lemma resets_flat (s0 : Sampler) (k : nat) : preserves (flat_inv s0) (resets k).
Proof.
  induction k as [|k IH]; simpl.
  - apply preserves_ret.
  - apply preserves_bind; [exact IH|]. intros _. apply flat_inv_reset.
Qed.

(** Without thresholds and with a dataset length that is a multiple of
    [world_size * batch_size] nothing is padded: the shuffled batches
    hold every index once. *)
Lemma flat_no_padding (s0 : Sampler) (w w' : World G) shard permuted :
  flat_inv s0 w ->
  dataset_len (dataset s0) mod (world_size s0 * batch_size s0) = 0 ->
  compute_shard w = (w', Ok shard) ->
  snd (epoch_prefix w) = Ok permuted ->
  NoDup (concat permuted).
Proof.
  intros HI Hmod Hc Hp.
  pose proof (flat_inv_compute_shard s0 w HI) as HI'. rewrite Hc in HI'. simpl in HI'.
  destruct (flat_shard s0 w w' shard HI Hc)
    as (n & shuffled & permuted' & Hn & Hperm & Hlen & _ & Hrows & _ & _ & _ & _
        & _ & Hpre).
  rewrite Hpre in Hp. simpl in Hp. injection Hp as ->.
  destruct HI' as (_ & _ & Hceil & _). specialize (Hceil n Hn).
  apply ceil_div_inv in Hceil. destruct Hceil as (Hpos & Hle & Hlt).
  pose proof (Nat.div_mod_eq (dataset_len (dataset s0))
                (world_size s0 * batch_size s0)) as Hdm.
  rewrite Hmod, Nat.add_0_r in Hdm.
  assert (Heq : n * (world_size s0 * batch_size s0) = dataset_len (dataset s0)).
  { revert Hpos Hle Hlt Hdm.
    generalize (dataset_len (dataset s0) / (world_size s0 * batch_size s0)).
    generalize (world_size s0 * batch_size s0).
    generalize (dataset_len (dataset s0)).
    intros L M q Hpos Hle Hlt ->.
    assert (Hnq : n = q); [|subst; lia].
    apply Nat.le_antisymm.
    - destruct (Nat.le_gt_cases n q) as [|Hgt]; [assumption|].
      pose proof (Nat.mul_le_mono_r (q + 1) n M ltac:(lia)). lia.
    - destruct (Nat.le_gt_cases q n) as [|Hgt]; [assumption|].
      pose proof (Nat.mul_le_mono_r (n + 1) q M ltac:(lia)). lia. }
  replace (Z.of_nat (n * (world_size s0 * batch_size s0))
           - Z.of_nat (dataset_len (dataset s0)))%Z with 0%Z in Hrows, Hlen by lia.
  assert (Hstream : flat_stream (pad_batch s0) shuffled 0 = shuffled).
  { unfold flat_stream. destruct (pad_batch s0); simpl; apply app_nil_r. }
  rewrite Hstream in Hrows, Hlen.
  eapply Permutation_NoDup; [apply Permutation_concat; exact Hrows|].
  rewrite rows_concat by lia.
  eapply Permutation_NoDup; [exact Hperm|apply arange_NoDup].
Qed.

(** Without [pad_batch] the pad is made of sentinels: the shuffled
    batches hold every dataset index once. *)
Lemma flat_sentinel_stream (s0 : Sampler) (w w' : World G) shard permuted :
  flat_inv s0 w -> pad_batch s0 = false ->
  compute_shard w = (w', Ok shard) ->
  snd (epoch_prefix w) = Ok permuted ->
  NoDup (filter (fun x => negb (x =? -1)%Z) (concat permuted)).
Proof.
  intros HI Hpb Hc Hp.
  destruct (flat_shard s0 w w' shard HI Hc)
    as (n & shuffled & permuted' & _ & Hperm & Hlen & _ & Hrows & _ & _ & _ & _
        & _ & Hpre).
  rewrite Hpre in Hp. simpl in Hp. injection Hp as ->.
  rewrite Hpb in Hrows, Hlen.
  eapply Permutation_NoDup.
  { apply filter_permuted, Permutation_concat. exact Hrows. }
  rewrite rows_concat by (rewrite Hlen; lia).
  unfold flat_stream, list_times. rewrite filter_app.
  assert (Hrep : forall k, filter (fun x => negb (x =? -1)%Z) (repeat (-1)%Z k) = []).
  { induction k as [|k IH]; [reflexivity|exact IH]. }
  rewrite Hrep, app_nil_r. apply NoDup_filter.
  eapply Permutation_NoDup; [exact Hperm|apply arange_NoDup].
Qed.

(** Without thresholds the shuffled batches hold every dataset index. *)
Lemma flat_covers (s0 : Sampler) (w w' : World G) shard permuted :
  flat_inv s0 w ->
  compute_shard w = (w', Ok shard) ->
  snd (epoch_prefix w) = Ok permuted ->
  forall i, i < dataset_len (dataset s0) -> In (Z.of_nat i) (concat permuted).
Proof.
  intros HI Hc Hp i Hi.
  destruct (flat_shard s0 w w' shard HI Hc)
    as (n & shuffled & permuted' & _ & Hperm & Hlen & _ & Hrows & _ & _ & _ & _
        & _ & Hpre).
  rewrite Hpre in Hp. simpl in Hp. injection Hp as ->.
  eapply Permutation_in; [apply Permutation_concat; exact Hrows|].
  rewrite rows_concat by (rewrite Hlen; lia).
  unfold flat_stream. apply in_or_app. left.
  eapply Permutation_in; [exact Hperm|]. apply arange_in. lia.
Qed.

(** C1, as the code has it.  Take the ranks of one job: samplers that
    differ only in [rank], each with its own process-wide generator,
    configured with [sync_seed_schedule=True] or [shuffle=False], and
    each driven through [k + 1] calls of [reset].  If the calls return
    on one rank below [world_size], they return on every such rank;
    the shuffled batches [permuted] of epoch [k] are the same list on
    all ranks; rank [r] holds the [r]-th of [world_size] consecutive
    runs of [n] batches of it; and the runs of all ranks, concatenated
    in rank order, are [permuted].  The shards share no entry when
    [permuted] holds none twice, which is the case without thresholds
    when the dataset length is a multiple of
    [world_size * batch_size].  Without thresholds and without
    [pad_batch] two shards share no dataset index at all, whatever the
    length: the sentinel [-1] is the only entry they can have in
    common.  Without thresholds every dataset index is in the shard of
    some rank. *)
Theorem shards_partition (s : Sampler) (gen : nat -> rng) (k r : nat)
    (w' : World G) :
  shuffle s && negb (sync_seed_schedule s) = false ->
  r < world_size s ->
  resets (S k) {| np_random := gen r; self := with_rank r s |} = (w', Ok tt) ->
  exists permuted n,
    snd (epoch_batches k {| np_random := gen 0; self := with_rank 0 s |})
    = Ok permuted /\
    length permuted = world_size s * n /\
    _shard (self w') = Some (firstn n (skipn (r * n) permuted)) /\
    (forall r', r' < world_size s ->
       exists w'',
         resets (S k) {| np_random := gen r'; self := with_rank r' s |}
         = (w'', Ok tt) /\
         _shard (self w'') = Some (firstn n (skipn (r' * n) permuted))) /\
    concat (map (fun r' => firstn n (skipn (r' * n) permuted))
              (seq 0 (world_size s))) = permuted /\
    (NoDup (concat permuted) ->
     forall r1 r2 x, r1 < r2 -> r2 < world_size s ->
       In x (concat (firstn n (skipn (r1 * n) permuted))) ->
       ~ In x (concat (firstn n (skipn (r2 * n) permuted)))) /\
    (forall ds B sh pb sy rk W seed,
       s = fresh ds B sh None pb sy rk W seed ->
       dataset_len ds mod (W * B) = 0 ->
       NoDup (concat permuted)) /\
    (forall ds B sh sy rk W seed,
       s = fresh ds B sh None false sy rk W seed ->
       forall r1 r2 x, r1 < r2 -> r2 < W ->
         In x (concat (firstn n (skipn (r1 * n) permuted))) ->
         In x (concat (firstn n (skipn (r2 * n) permuted))) ->
         x = (-1)%Z) /\
    (forall ds B sh pb sy rk W seed,
       s = fresh ds B sh None pb sy rk W seed ->
       forall i, i < dataset_len ds ->
         exists r', r' < W /\
           In (Z.of_nat i) (concat (firstn n (skipn (r' * n) permuted)))).
Proof.
  intros Hseed Hr H.
  set (mk := fun r0 => {| np_random := gen r0; self := with_rank r0 s |}) in *.
  change (resets (S k) (mk r) = (w', Ok tt)) in H.
  change (epoch_batches k {| np_random := gen 0; self := with_rank 0 s |})
    with (epoch_batches k (mk 0)).
  assert (Htw : forall r0, twin (self (mk r0)) (self (mk 0))).
  { intros r0. unfold twin, mk. cbn. repeat split. exact Hseed. }
  assert (H0 : 0 < world_size s) by lia.
  (* the reference run on rank 0 and the run on any rank *)
  assert (Hrun : forall r0, r0 < world_size s ->
            exists wk wk0,
              resets k (mk r0) = (wk, snd (resets k (mk 0))) /\
              resets k (mk 0) = (wk0, snd (resets k (mk 0))) /\
              twin (self wk) (self wk0) /\
              rank (self wk) = r0 /\ world_size (self wk) = world_size s /\
              rank (self wk0) = 0 /\ world_size (self wk0) = world_size s).
  { intros r0 Hr0.
    destruct (resets_twin k (mk r0) (mk 0) (Htw r0) Hr0 H0) as (Ht & Hv).
    pose proof (resets_config (self (mk r0)) k (mk r0) (same_config_refl _)) as C1.
    pose proof (resets_config (self (mk 0)) k (mk 0) (same_config_refl _)) as C0.
    destruct (resets k (mk r0)) as [wk rk], (resets k (mk 0)) as [wk0 r0'].
    simpl in *. subst rk.
    destruct C1 as (_ & _ & _ & _ & _ & _ & Crk1 & CW1 & _).
    destruct C0 as (_ & _ & _ & _ & _ & _ & Crk0 & CW0 & _).
    exists wk, wk0. split; [reflexivity|]. split; [reflexivity|].
    split; [exact Ht|]. split; [exact Crk1|]. split; [exact CW1|].
    split; [exact Crk0|exact CW0]. }
  simpl in H. apply bind_ok_inv in H. destruct H as (wk & [] & Hk & Hreset).
  destruct (Hrun r Hr) as (wk_ & wk0 & Hk1 & Hk0 & Ht & Crk & CW & Crk0 & CW0).
  rewrite Hk in Hk1. injection Hk1 as <- Hres0. rewrite <- Hres0 in Hk0.
  destruct (reset_twin wk wk0 Ht ltac:(lia) ltac:(lia)) as (_ & Hv & Hex).
  rewrite Hreset in Hv, Hex. simpl in Hv, Hex.
  destruct (Hex eq_refl) as (permuted & n & _ & Hp0 & Hlen & Hs1 & _).
  rewrite CW in Hlen. rewrite Crk in Hs1.
  exists permuted, n.
  split; [unfold epoch_batches; now rewrite (bind_ok _ _ _ _ _ Hk0)|].
  split; [exact Hlen|]. split; [exact Hs1|].
  assert (Hflat : forall ds B sh pb sy rk W seed,
            s = fresh ds B sh None pb sy rk W seed ->
            exists w1 shard,
              flat_inv (fresh ds B sh None pb sy 0 W seed) wk0 /\
              compute_shard wk0 = (w1, Ok shard)).
  { intros ds B sh pb sy rk W seed ->.
    assert (HI : flat_inv (fresh ds B sh None pb sy 0 W seed) wk0).
    { pose proof (resets_flat (fresh ds B sh None pb sy 0 W seed) k (mk 0)
                    (flat_inv_fresh ds B sh pb sy 0 W seed (gen 0))) as HI.
      now rewrite Hk0 in HI. }
    assert (Hok : snd (reset wk0) = Ok tt) by now rewrite <- Hv.
    rewrite reset_unfold in Hok.
    destruct (compute_shard wk0) as [w1 [shard|e]] eqn:Ec; [|discriminate].
    exists w1, shard. now split. }
  split; [|split; [now apply slices_concat|split; [|split; [|split]]]].
  - intros r' Hr'.
    destruct (Hrun r' Hr') as (wk' & wk0' & Hk' & Hk0' & Ht' & Crk' & CW' & _ & _).
    rewrite <- Hres0 in Hk', Hk0'. rewrite Hk0 in Hk0'. injection Hk0' as <-.
    destruct (reset_twin wk' wk0 Ht' ltac:(lia) ltac:(lia)) as (_ & Hv' & Hex').
    rewrite <- Hv in Hv'.
    destruct (Hex' Hv') as (permuted' & n' & _ & Hp0' & Hlen' & Hs' & _).
    rewrite Hp0 in Hp0'. injection Hp0' as <-.
    rewrite CW' in Hlen'. rewrite Crk' in Hs'.
    assert (n' = n) by (apply (Nat.mul_cancel_l _ _ (world_size s)); lia).
    subst n'.
    exists (fst (reset wk')). split; [|exact Hs'].
    simpl. rewrite (bind_ok _ _ _ _ _ Hk').
    destruct (reset wk') as [w'' r'']. simpl in Hv'. now subst r''.
  - intros Hnd r1 r2 x H12 H2 Hx1 Hx2.
    exact (slices_disjoint n (world_size s) permuted r1 r2 x Hlen Hnd H12 H2 Hx1 Hx2).
  - intros ds B sh pb sy rk W seed Hs Hmod.
    destruct (Hflat _ _ _ _ _ _ _ _ Hs) as (w1 & shard & HI & Ec).
    exact (flat_no_padding _ wk0 w1 shard permuted HI Hmod Ec Hp0).
  - intros ds B sh sy rk W seed Hs r1 r2 x H12 H2 Hx1 Hx2.
    destruct (Hflat _ _ _ _ _ _ _ _ Hs) as (w1 & shard & HI & Ec).
    pose proof (flat_sentinel_stream _ wk0 w1 shard permuted HI eq_refl Ec Hp0)
      as Hnd.
    subst s. cbn [fresh world_size] in Hlen.
    pose proof (slices_share_only _ n W permuted r1 r2 x Hlen Hnd H12 H2 Hx1 Hx2)
      as Hx.
    apply negb_false_iff, Z.eqb_eq in Hx. exact Hx.
  - intros ds B sh pb sy rk W seed Hs i Hi.
    destruct (Hflat _ _ _ _ _ _ _ _ Hs) as (w1 & shard & HI & Ec).
    subst s. cbn [fresh world_size] in Hlen.
    apply (In_slices n W permuted _ Hlen).
    exact (flat_covers _ wk0 w1 shard permuted HI Ec Hp0 i Hi).
Qed.

End Partition.

(** Three items in order, batches of one, rank [r] of two, padded with
    a prefix. *)
Definition three_items (r : nat) : World RotGen :=
  {| np_random := r; self := fresh (plain 3) 1 false None true true r 2 1%Z |}.

(** C1 as stated fails: the pad reuses index 0, which rank 0 holds in
    its first batch and rank 1 in its last. *)
Lemma padded_shards_overlap :
  _shard (self (fst (reset (three_items 0)))) = Some [[0]; [1]]%Z /\
  _shard (self (fst (reset (three_items 1)))) = Some [[2]; [0]]%Z /\
  In 0%Z (concat [[0]; [1]]%Z) /\ In 0%Z (concat [[2]; [0]]%Z).
Proof. repeat split; simpl; auto. Qed.

(** Six items shuffled with synchronised seeding, batches of one, two
    ranks. *)
Definition six_items : Sampler := fresh (plain 6) 1 true None true true 0 2 1%Z.

(** Rank [r] of that job, its process-wide generator in state [r]. *)
Definition six_items_at (r : nat) : World RotGen :=
  {| np_random := r; self := with_rank r six_items |}.

(** A run of the amended C1: the second epoch on rank 1, each rank
    with its own generator state. *)
Lemma shards_partition_witness :
  exists permuted n,
    snd (epoch_batches 1 (six_items_at 0)) = Ok permuted /\
    length permuted = 2 * n /\
    _shard (self (fst (resets 2 (six_items_at 1))))
    = Some (firstn n (skipn (1 * n) permuted)) /\
    concat (map (fun r' => firstn n (skipn (r' * n) permuted)) (seq 0 2))
    = permuted /\
    NoDup (concat permuted).
Proof.
  destruct (shards_partition (G := RotGen) six_items (fun r => r) 1 1
              (fst (resets 2 (six_items_at 1))))
    as (permuted & n & H1 & H2 & H3 & _ & H5 & _ & H7 & _ & _);
    [reflexivity|simpl; lia|reflexivity|].
  exists permuted, n.
  split; [exact H1|]. split; [exact H2|]. split; [exact H3|].
  split; [exact H5|].
  exact (H7 (plain 6) 1 true true true 0 2 1%Z eq_refl eq_refl).
Defined.

(* ------------------------------------------------------------------ *)
(** ** Small runs of the model *)

(** Ten items in order, batches of two: five batches. *)
Example ten_items_in_order :
  for_loop 6 {| np_random := 0;
                self := fresh (plain 10) 2 false None true true 0 1 1%Z |}
  = Some (upd (set_step 5)
            (fst (reset {| np_random := 0;
                           self := fresh (plain 10) 2 false None true true 0 1 1%Z |})),
          [[0; 1]; [2; 3]; [4; 5]; [6; 7]; [8; 9]]%Z, Ok tt).
Proof. reflexivity. Qed.

(** Seven items in order, batches of two: the last batch is completed
    with index 0. *)
Example seven_items_in_order :
  for_loop 5 {| np_random := 0;
                self := fresh (plain 7) 2 false None true true 0 1 1%Z |}
  = Some (upd (set_step 4)
            (fst (reset {| np_random := 0;
                           self := fresh (plain 7) 2 false None true true 0 1 1%Z |})),
          [[0; 1]; [2; 3]; [4; 5]; [6; 0]]%Z, Ok tt).
Proof. reflexivity. Qed.

(** Six items in order, batches of one, two ranks: three steps each. *)
Example six_items_two_ranks :
  _shard (self (fst (reset {| np_random := 0;
                              self := fresh (plain 6) 1 false None true true 0 2 1%Z |})))
  = Some [[0]; [1]; [2]]%Z /\
  _shard (self (fst (reset {| np_random := 0;
                              self := fresh (plain 6) 1 false None true true 1 2 1%Z |})))
  = Some [[3]; [4]; [5]]%Z.
Proof. split; reflexivity. Qed.

(** One item and batches of four: the pad asks for three entries, the
    slice has one, and the reshape raises. *)
Example one_item_pad_too_long :
  reset {| np_random := 0;
           self := fresh (plain 1) 4 false None true true 0 1 1%Z |}
  = ({| np_random := 0;
        self := set_num_batches 1 (fresh (plain 1) 4 false None true true 0 1 1%Z) |},
     Raise ValueError).
Proof. reflexivity. Qed.

(** Buckets smaller than half of [world_size * batch_size]: two buckets
    of one item each are padded to two entries each, the four entries
    make one batch for two scheduled, and the second [__next__] raises
    [IndexError]. *)
Example small_buckets_short_shard :
  snd (run [CallReset; CallNext; CallNext]
         {| np_random := 0;
            self := fresh {| dataset_len := 2;
                             aspect_ratios := Some [1 # 2; 3 # 2]%Q |}
                          4 false (Some [1 # 1]%Q) true true 0 1 1%Z |})
  = [Ok VNone; Ok (VList [0; 0; 1; 1]%Z); Raise IndexError].
Proof. reflexivity. Qed.

(* ------------------------------------------------------------------ *)
(** ** Failures and edge cases of the sampler *)

Section Failures.

Context {G : RandomGen}.

(** Past the choice of [rand_perm], nothing in [reset] writes the epoch
    counter. *)
Lemma epoch_after_draw (e : nat) (src : perm_src) :
  preserves (epoch_is e)
    (bind (draw_indices src)
       (fun x : list Z * perm_src =>
          let '(shuffled_indices, src1) := x in
          bind get_self (fun s =>
            bind (lift (reshape_rows (batch_size s) shuffled_indices))
              (fun batches0 =>
                 bind (rand_perm src1 batches0)
                   (fun x0 : list (list Z) * perm_src =>
                      let '(permuted0, _) := x0 in ret permuted0))))).
Proof.
  apply preserves_bind; [apply epoch_draw_indices|]. intros [si src1].
  apply preserves_bind; [apply preserves_get_self|]. intros s.
  apply preserves_bind; [apply preserves_lift|]. intros batches.
  apply preserves_bind; [apply rand_perm_preserves, epoch_generator|].
  intros [p q]. apply preserves_ret.
Qed.

(** [reset] adds at most one to the epoch counter, whether it returns
    or raises, and only on the seeded path. *)
Lemma epoch_after_compute_shard (w : World G) :
  epoch (self (fst (compute_shard w))) = epoch (self w) \/
  (shuffle (self w) && sync_seed_schedule (self w) = true /\
   epoch (self (fst (compute_shard w))) = epoch (self w) + 1).
Proof.
  destruct (shuffle (self w) && sync_seed_schedule (self w)) eqn:Hc.
  2:{ left. exact (proj1 (epoch_held_compute_shard (epoch (self w)) w
                            (conj eq_refl Hc))). }
  pose proof (ensure_setup_preserves _ (epoch_setup (epoch (self w))) w eq_refl)
    as E1.
  unfold epoch_is in E1. unfold compute_shard.
  destruct (ensure_setup w) as [w1 [[]|e]] eqn:H1; cbn [fst] in E1.
  2:{ rewrite (bind_raise _ _ _ _ _ H1). now left. }
  rewrite (bind_ok _ _ _ _ _ H1).
  assert (Hsb : forall w2, w2 = fst (shuffled_batches w1) ->
                epoch (self w2) = epoch (self w) \/
                epoch (self w2) = epoch (self w) + 1).
  { intros w2 Hw2. unfold shuffled_batches in Hw2. unfold bind at 1 in Hw2.
    rewrite choose_rand_perm_unfold in Hw2.
    destruct (negb (shuffle (self w1))).
    - left. subst w2. rewrite <- E1.
      exact (epoch_after_draw _ Identity w1 eq_refl).
    - destruct (sync_seed_schedule (self w1)).
      + destruct (RandomState _) as [g|e]; [|left; now subst w2].
        right. subst w2. rewrite <- E1.
        exact (epoch_after_draw (epoch (self w1) + 1) (Seeded g)
                 (upd (set_epoch (epoch (self w1) + 1)) w1) eq_refl).
      + left. subst w2. rewrite <- E1.
        exact (epoch_after_draw _ Shared w1 eq_refl). }
  specialize (Hsb _ eq_refl).
  assert (Hfst : fst (bind shuffled_batches
                        (fun permuted =>
                           bind get_self (fun s =>
                             bind (lift (reshape_shards (world_size s) permuted))
                               (fun shuffled_shards =>
                                  lift (index shuffled_shards (rank s))))) w1)
                 = fst (shuffled_batches w1)).
  { unfold bind at 1. destruct (shuffled_batches w1) as [w2 [permuted|e]];
      [|reflexivity].
    unfold bind, get_self, lift. cbn [fst].
    now destruct (reshape_shards _ permuted). }
  rewrite Hfst. destruct Hsb as [Hsb|Hsb]; [now left|right; now split].
Qed.

(** X1.  A call of [reset] that raises leaves the previous shard and the
    cursor as they were (a shard that was being served can still be
    served), and never changes an argument the constructor stored.  The
    epoch counter is the one attribute of [__init__] it can change: a
    failure that comes after the seeding finds it incremented
    already. *)
Theorem failed_reset_keeps_shard (w : World G) (e : exn) :
  snd (reset w) = Raise e ->
  _shard (self (fst (reset w))) = _shard (self w) /\
  _step (self (fst (reset w))) = _step (self w) /\
  same_config (self w) (self (fst (reset w))) /\
  (epoch (self (fst (reset w))) = epoch (self w) \/
   (shuffle (self w) && sync_seed_schedule (self w) = true /\
    epoch (self (fst (reset w))) = epoch (self w) + 1)).
Proof.
  rewrite reset_unfold. intros H.
  pose proof (kept_compute_shard (self w) w) as K.
  pose proof (epoch_after_compute_shard w) as He.
  destruct (compute_shard w) as [w1 [shard|e1]]; [discriminate|].
  simpl in *. destruct K as (Kc & Ks & Kt); [repeat split|]. auto.
Qed.

(** X2.  The constructor accepts [rank >= world_size]; the first [reset]
    then never returns normally, and it is [IndexError] that is raised
    once the batches of the epoch were drawn and split evenly. *)
Theorem rank_out_of_range (w : World G) :
  world_size (self w) <= rank (self w) ->
  snd (reset w) <> Ok tt /\
  forall w1 permuted,
    epoch_prefix w = (w1, Ok permuted) ->
    0 < world_size (self w) ->
    length permuted mod world_size (self w) = 0 ->
    reset w = (w1, Raise IndexError).
Proof.
  intros Hrk. rewrite reset_unfold, compute_shard_unfold.
  pose proof (kept_epoch_prefix (self w) w ltac:(repeat split)) as K.
  destruct (epoch_prefix w) as [w1 [permuted|e]]; simpl in K.
  2:{ split; [discriminate|]. intros ? ? H. discriminate. }
  destruct K as ((_ & _ & _ & _ & _ & _ & Crk & CW & _) & _ & _).
  rewrite Crk, CW.
  assert (Hix : forall shards,
            reshape_shards (world_size (self w)) permuted = Ok shards ->
            index shards (rank (self w)) = Raise IndexError).
  { intros shards Hs. apply reshape_shards_inv in Hs. destruct Hs as (_ & _ & ->).
    unfold index.
    now rewrite (proj2 (nth_error_None _ _)) by (rewrite rows_length; lia). }
  split.
  - destruct (reshape_shards _ permuted) as [shards|e] eqn:E; [|discriminate].
    rewrite (Hix shards eq_refl). discriminate.
  - intros w1' permuted' H HW Hmod. injection H as <- <-.
    unfold reshape_shards.
    destruct (Nat.eqb_spec (world_size (self w)) 0); [lia|].
    rewrite Hmod. cbn [Nat.eqb].
    unfold index.
    now rewrite (proj2 (nth_error_None _ _)) by (rewrite rows_length; lia).
Qed.

Lemma setup_unscheduled (w : World G) :
  aspect_ratio_thresholds (self w) = None ->
  world_size (self w) * batch_size (self w) = 0 ->
  setup w = (w, Raise ZeroDivisionError).
Proof.
  intros Ht Hz. unfold setup, bind, get_self, lift. rewrite Ht, Hz. reflexivity.
Qed.

Lemma zero_batch_call (w : World G) (c : call) :
  aspect_ratio_thresholds (self w) = None ->
  world_size (self w) * batch_size (self w) = 0 ->
  num_batches (self w) = None ->
  do_call c w
  = (w, Raise (match c with
               | CallNext => AttributeError
               | _ => ZeroDivisionError
               end)).
Proof.
  intros Ht Hz Hn.
  assert (Hs := setup_unscheduled w Ht Hz).
  assert (He : ensure_setup w = (w, Raise ZeroDivisionError)).
  { rewrite ensure_setup_fresh by now rewrite Hn. exact Hs. }
  destruct c; cbn [do_call].
  - now rewrite Hs.
  - rewrite reset_unfold. unfold compute_shard.
    now rewrite (bind_raise _ _ _ _ _ He).
  - unfold __iter__. now rewrite (bind_raise _ _ _ _ _ He).
  - unfold __next__, bind, get_self, getattr, raise. now rewrite Hn.
  - unfold __len__. now rewrite (bind_raise _ _ _ _ _ He).
Qed.

(** X3.  With [world_size * batch_size = 0] and no thresholds the
    constructor succeeds, but [setup], [reset], [__iter__] and [__len__]
    raise [ZeroDivisionError] every time they are called, [__next__]
    raises [AttributeError], and no call stores anything. *)
Theorem zero_batch_raises (ds : Dataset) (B W rk : nat) (sh pb sy : bool)
    (seed : Z) (g : rng) (cs : list call) :
  W * B = 0 ->
  let w0 := {| np_random := g; self := fresh ds B sh None pb sy rk W seed |} in
  __init__ ds B sh None pb sy rk W seed = Ok (self w0) /\
  fst (run cs w0) = w0 /\
  snd (run cs w0)
  = map (fun c => Raise (match c with
                         | CallNext => AttributeError
                         | _ => ZeroDivisionError
                         end)) cs.
Proof.
  intros Hz w0. split; [now destruct pb|].
  induction cs as [|c cs [IH1 IH2]]; [now split|].
  cbn [run map].
  rewrite (zero_batch_call w0 c eq_refl Hz eq_refl).
  destruct (run cs w0) as [w2 rs]. simpl in *. now subst.
Qed.

(** X4.  [setup] is idempotent: a second call leaves exactly the state
    and the outcome of the first, whether the first returned or raised
    part-way. *)
Theorem setup_twice (w : World G) : setup (fst (setup w)) = setup w.
Proof.
  destruct (aspect_ratio_thresholds (self w)) as [ths|] eqn:Et.
  - destruct (aspect_ratios (dataset (self w))) as [ratios|] eqn:Er.
    + destruct (digitize ratios ths) as [flags|e] eqn:Ed.
      * rewrite (setup_bucketed w ths ratios flags Et Er Ed). cbv zeta.
        destruct (map_result (pad_length _) (bincount flags)) as [pads|e1] eqn:Ep.
        -- destruct (map_result (fun sz => np_ceil_div sz _) (bincount flags))
             as [counts|e2] eqn:Ec; cbn [fst].
           ++ match goal with |- setup ?v = _ =>
                rewrite (setup_bucketed v ths ratios flags Et Er Ed) end. cbv zeta.
              cbn [upd self world_size batch_size set_num_batches set_pad_lengths
                     set_bucket_sizes set_bucket_flags].
              now rewrite Ep, Ec.
           ++ match goal with |- setup ?v = _ =>
                rewrite (setup_bucketed v ths ratios flags Et Er Ed) end. cbv zeta.
              cbn [upd self world_size batch_size set_num_batches set_pad_lengths
                     set_bucket_sizes set_bucket_flags].
              now rewrite Ep, Ec.
        -- cbn [fst].
           match goal with |- setup ?v = _ =>
                rewrite (setup_bucketed v ths ratios flags Et Er Ed) end. cbv zeta.
           cbn [upd self world_size batch_size set_num_batches set_pad_lengths
                  set_bucket_sizes set_bucket_flags].
           now rewrite Ep.
      * assert (Hs : setup w = (w, Raise e)).
        { unfold setup, bind, get_self, lift, ret. now rewrite Et, Er, Ed. }
        now rewrite Hs.
    + assert (Hs : setup w = (w, Raise AssertionError)).
      { unfold setup, bind, get_self, raise. now rewrite Et, Er. }
      now rewrite Hs.
  - destruct (ceil_div (dataset_len (dataset (self w)))
                (world_size (self w) * batch_size (self w))) as [n|e] eqn:Ec.
    + assert (Hs : forall v : World G,
                aspect_ratio_thresholds (self v) = None ->
                dataset (self v) = dataset (self w) ->
                world_size (self v) = world_size (self w) ->
                batch_size (self v) = batch_size (self w) ->
                setup v = (upd (set_num_batches n) v, Ok tt)).
      { intros v Hvt Hvd HvW HvB.
        unfold setup, bind, get_self, lift, modify_self, upd.
        now rewrite Hvt, Hvd, HvW, HvB, Ec. }
      rewrite (Hs w Et eq_refl eq_refl eq_refl). cbn [fst].
      now rewrite (Hs (upd (set_num_batches n) w) Et eq_refl eq_refl eq_refl).
    + assert (Hs : setup w = (w, Raise e)).
      { unfold setup, bind, get_self, lift. now rewrite Et, Ec. }
      now rewrite Hs.
Qed.

End Failures.

(** A hand-built state: a shard is being served, and the pad of the next
    [reset], which shuffles with a seed, is longer than the dataset. *)
Definition served_one_item : World RotGen :=
  upd (set_shard [[0; 0; 0; 0]]%Z)
    {| np_random := 0; self := fresh (plain 1) 4 true None true true 0 1 1%Z |}.

(** A run of X1: the shard stays, the epoch counter has moved. *)
Lemma failed_reset_keeps_shard_witness :
  snd (reset served_one_item) = Raise ValueError /\
  _shard (self (fst (reset served_one_item))) = Some [[0; 0; 0; 0]]%Z /\
  epoch (self served_one_item) = 0 /\
  epoch (self (fst (reset served_one_item))) = 1.
Proof.
  split; [reflexivity|].
  destruct (failed_reset_keeps_shard served_one_item ValueError eq_refl)
    as (Hs & _ & _ & _).
  split; [now rewrite Hs|]. split; reflexivity.
Defined.

(** Rank 2 of a job of two. *)
Definition third_of_two : World RotGen :=
  {| np_random := 0; self := fresh (plain 4) 2 false None true true 2 2 1%Z |}.

(** A run of X2. *)
Lemma rank_out_of_range_witness :
  reset third_of_two
  = (upd (set_num_batches 1) third_of_two, Raise IndexError).
Proof.
  assert (H : world_size (self third_of_two) <= rank (self third_of_two))
    by (simpl; lia).
  apply (proj2 (rank_out_of_range third_of_two H)
           (upd (set_num_batches 1) third_of_two) [[0; 1]; [2; 3]]%Z).
  - reflexivity.
  - simpl; lia.
  - reflexivity.
Defined.

(** A run of X3: batches of zero on two ranks. *)
Lemma zero_batch_raises_witness :
  snd (run [CallLen; CallNext; CallIter]
         {| np_random := 0; self := fresh (plain 4) 0 true None true true 0 2 1%Z |})
  = [Raise ZeroDivisionError; Raise AttributeError; Raise ZeroDivisionError].
Proof.
  exact (proj2 (proj2 (zero_batch_raises (G := RotGen) (plain 4) 0 2 0
                         true true true 1%Z 0
                         [CallLen; CallNext; CallIter] eq_refl))).
Defined.

Section Shapes.

Context {G : RandomGen}.

(** X5.  Whenever [reset] returns, on the flat path or with buckets,
    [batch_size] is positive, the rank is below [world_size], the cursor
    is at 0 and every row of the stored shard has exactly [batch_size]
    entries; with [pad_batch] every batch the loop yields afterwards has
    exactly [batch_size] indices, also when the loop later raises. *)
Theorem shard_rows_full (w w' : World G) :
  reset w = (w', Ok tt) ->
  0 < batch_size (self w) /\ rank (self w) < world_size (self w) /\
  _step (self w') = 0 /\
  exists shard,
    _shard (self w') = Some shard /\
    Forall (fun row => length row = batch_size (self w)) shard /\
    (pad_batch (self w) = true ->
     forall fuel w'' ys r,
       next_loop fuel w' = Some (w'', ys, r) ->
       Forall (fun ids => length ids = batch_size (self w)) ys).
Proof.
  rewrite reset_unfold. intros H.
  pose proof (kept_compute_shard (self w) w) as K.
  destruct (compute_shard w) as [w1 [shard|e]] eqn:Ec; [|discriminate].
  injection H as <-.
  destruct K as ((_ & CB & _ & _ & Cpb & _ & Crk & CW & _) & _ & _);
    [repeat split|]. cbn [fst] in *.
  apply compute_shard_stages in Ec.
  destruct Ec as (v1 & v2 & src & v3 & stream & src' & batches & permuted
                  & src'' & shards & _ & _ & _ & Hb & Hp & Hs & Hi & _).
  destruct (rand_perm_ok src' batches v3) as (u & y & s' & Hu & Hperm & Hself & _).
  rewrite Hp in Hu. injection Hu as <- <- <-.
  rewrite <- Hself, CB in Hb.
  apply reshape_rows_inv in Hb. destruct Hb as (HB & _ & _ & Hall).
  apply reshape_shards_inv in Hs. destruct Hs as (_ & _ & ->).
  apply index_rows_inv in Hi. destruct Hi as (Hrk & ->).
  rewrite Crk, CW in Hrk.
  assert (Hrows : Forall (fun row => length row = batch_size (self w))
                    (firstn (length permuted / world_size (self w1))
                       (skipn (rank (self w1)
                               * (length permuted / world_size (self w1)))
                          permuted))).
  { apply Forall_slice. eapply Permutation_Forall'; eauto. }
  split; [exact HB|]. split; [exact Hrk|]. split; [reflexivity|].
  eexists. split; [reflexivity|]. split; [exact Hrows|].
  intros Hpb fuel w'' ys r Hl.
  pose proof (next_loop_sound fuel _ _ _ _ _ Hl eq_refl) as Hy.
  cbn [upd self pad_batch set_step set_shard] in Hy.
  rewrite Cpb, Hpb in Hy.
  rewrite Forall_forall in *. intros ids Hin.
  destruct (Hy ids Hin) as (row & Hrow & ->). cbn [visible].
  now apply Hrows.
Qed.

(** X6.  An empty dataset is no error for a flat sampler: the first
    [reset] returns with zero batches scheduled and an empty shard, and
    a [for] loop over the sampler ends at once without yielding. *)
Theorem empty_dataset (ds : Dataset) (B W rk : nat) (sh pb sy : bool)
    (seed : Z) (g : rng) :
  dataset_len ds = 0 -> 0 < W * B -> rk < W ->
  (sh && sy = true -> is_ok (RandomState seed) = true) ->
  let w0 := {| np_random := g; self := fresh ds B sh None pb sy rk W seed |} in
  exists w',
    reset w0 = (w', Ok tt) /\
    num_batches (self w') = Some 0 /\ _shard (self w') = Some [] /\
    __len__ w' = (w', Ok 0) /\
    for_loop 1 w0 = Some (w', [], Ok tt).
Proof.
  intros HL Hpos Hrk Hseed w0.
  set (s0 := fresh ds B sh None pb sy rk W seed).
  assert (HI : flat_inv s0 w0) by apply flat_inv_fresh.
  assert (Hc : ceil_div (dataset_len (dataset s0))
                 (world_size s0 * batch_size s0) = Ok 0).
  { cbn [s0 fresh dataset world_size batch_size]. rewrite HL. unfold ceil_div.
    destruct (Nat.eqb_spec (W * B) 0); [lia|].
    now rewrite Nat.Div0.mod_0_l, Nat.Div0.div_0_l. }
  assert (Hret : snd (reset w0) = Ok tt).
  { apply (reset_flat_returns s0 w0 0 HI Hc); cbn [s0 fresh]; auto.
    intros _. simpl. lia. }
  pose proof (flat_inv_reset s0 w0 HI) as (_ & _ & Hn & Hs).
  rewrite reset_unfold in Hret, Hn, Hs.
  assert (Hfor : for_loop 1 w0 = next_loop 1 (fst (reset w0)) /\
                 snd (reset w0) = Ok tt).
  { unfold for_loop. rewrite (iter_fresh w0 eq_refl), reset_unfold.
    destruct (compute_shard w0) as [w1 [shard|e]]; [|discriminate].
    now split. }
  destruct Hfor as (Hfor & _). rewrite reset_unfold in Hfor.
  rewrite reset_unfold.
  destruct (compute_shard w0) as [w1 [shard|e]]; [|discriminate].
  cbn [fst] in *.
  destruct (Hs shard eq_refl) as (Hnb & _).
  pose proof (Hn _ Hnb) as Hlen. rewrite Hc in Hlen. injection Hlen as Hlen.
  destruct shard; [|discriminate]. cbn [length] in Hnb.
  eexists. split; [reflexivity|]. split; [exact Hnb|]. split; [reflexivity|].
  split; [now apply len_ready|].
  rewrite Hfor. cbn [next_loop].
  now rewrite (next_stop _ 0 Hnb) by (simpl; lia).
Qed.

End Shapes.

(** A run of X5: the bucketed sampler of five items. *)
Lemma shard_rows_full_witness :
  Forall (fun row => length row = 2)
    (match _shard (self (fst (reset bucketed_world))) with
     | Some shard => shard
     | None => [[]]
     end).
Proof.
  destruct (shard_rows_full bucketed_world (fst (reset bucketed_world)) eq_refl)
    as (_ & _ & _ & shard & -> & H & _).
  exact H.
Defined.

(** A run of X6: no items, batches of two on two ranks, shuffled. *)
Lemma empty_dataset_witness :
  let w0 : World RotGen :=
    {| np_random := 0; self := fresh (plain 0) 2 true None true true 1 2 1%Z |} in
  exists w',
    reset w0 = (w', Ok tt) /\
    num_batches (self w') = Some 0 /\ _shard (self w') = Some [] /\
    __len__ w' = (w', Ok 0) /\
    for_loop 1 w0 = Some (w', [], Ok tt).
Proof.
  apply (empty_dataset (G := RotGen) (plain 0) 2 2 1 true true true 1%Z 0).
  - reflexivity.
  - simpl; lia.
  - lia.
  - reflexivity.
Defined.

(* ------------------------------------------------------------------ *)
(** ** What one epoch of a flat sampler holds *)

Section Coverage.

Context {G : RandomGen}.

(** X7.  One epoch of a sampler without thresholds drops no item.
    When [reset] returns, every dataset index is held by the shard of
    some rank below [world_size] (the shards being the consecutive runs
    of the epoch's batches); the batches hold nothing but dataset
    indices and, without [pad_batch], the sentinel [-1]; and an index is
    held once, or at most twice when [pad_batch] reuses it. *)
Theorem epoch_covers_dataset (ds : Dataset) (B W rk : nat) (sh pb sy : bool)
    (seed : Z) (g : rng) (cs : list call) :
  let s0 := fresh ds B sh None pb sy rk W seed in
  let w := fst (run cs {| np_random := g; self := s0 |}) in
  let L := dataset_len ds in
  forall w',
    reset w = (w', Ok tt) ->
    exists permuted n,
      snd (epoch_prefix w) = Ok permuted /\
      length permuted = W * n /\
      _shard (self w') = Some (firstn n (skipn (rk * n) permuted)) /\
      (forall i, i < L ->
         exists r, r < W /\
           In (Z.of_nat i) (concat (firstn n (skipn (r * n) permuted)))) /\
      (forall x, In x (concat permuted) ->
         (0 <= x < Z.of_nat L)%Z \/ (pb = false /\ x = (-1)%Z)) /\
      (forall i, i < L ->
         1 <= count_occ Z.eq_dec (concat permuted) (Z.of_nat i) <= 2 /\
         (pb = false ->
          count_occ Z.eq_dec (concat permuted) (Z.of_nat i) = 1)).
Proof.
  intros s0 w L w' H.
  assert (HI : flat_inv s0 w).
  { apply run_preserves; [apply flat_invariant | apply flat_inv_fresh]. }
  rewrite reset_unfold in H.
  destruct (compute_shard w) as [w1 [shard|e]] eqn:Ec; [|discriminate].
  injection H as <-.
  destruct (flat_shard s0 w w1 shard HI Ec)
    as (n & shuffled & permuted & _ & Hsh & Hlen & _ & Hrows & _ & _ & Hshard
        & _ & _ & Hpre).
  cbn [s0 fresh dataset batch_size world_size pad_batch rank] in *.
  fold L in Hsh, Hlen, Hrows.
  set (stream := flat_stream pb shuffled
                   (Z.of_nat (n * (W * B)) - Z.of_nat L)) in *.
  assert (Hcat : Permutation stream (concat permuted)).
  { rewrite <- (rows_concat B (n * W) stream) by (rewrite Hlen; lia).
    now apply Permutation_concat. }
  assert (Hlp : length permuted = W * n).
  { rewrite <- (Permutation_length Hrows), rows_length. lia. }
  assert (Hnd : NoDup shuffled).
  { eapply Permutation_NoDup; [exact Hsh | apply arange_NoDup]. }
  exists permuted, n. rewrite Hpre. cbn [snd upd self _shard set_step set_shard].
  split; [reflexivity|]. split; [exact Hlp|]. split; [now rewrite Hshard|].
  split; [|split].
  - intros i Hi. apply (In_slices n W permuted _ Hlp).
    eapply Permutation_in; [exact Hcat|].
    unfold stream, flat_stream. apply in_or_app. left.
    eapply Permutation_in; [exact Hsh|]. apply arange_in. lia.
  - intros x Hx. apply (Permutation_in _ (Permutation_sym Hcat)) in Hx.
    unfold stream, flat_stream in Hx. apply in_app_or in Hx.
    assert (Hs : In x shuffled -> (0 <= x < Z.of_nat L)%Z).
    { intros Hin. apply arange_in.
      eapply Permutation_in; [apply Permutation_sym; exact Hsh | exact Hin]. }
    destruct Hx as [Hx|Hx]; [left; auto|].
    destruct pb.
    + left. apply Hs. eapply In_slice_to; eauto.
    + right. split; [reflexivity|]. unfold list_times in Hx.
      now apply repeat_spec in Hx.
  - intros i Hi.
    rewrite <- (proj1 (Permutation_count_occ Z.eq_dec _ _) Hcat).
    unfold stream, flat_stream. rewrite count_occ_app.
    assert (Hone : count_occ Z.eq_dec shuffled (Z.of_nat i) = 1).
    { apply (proj1 (NoDup_count_occ' Z.eq_dec shuffled) Hnd).
      eapply Permutation_in; [exact Hsh|]. apply arange_in. lia. }
    rewrite Hone. destruct pb.
    + pose proof (count_occ_slice_to shuffled
                    (Z.of_nat (n * (W * B)) - Z.of_nat L) (Z.of_nat i)).
      split; [lia|]. discriminate.
    + unfold list_times. rewrite count_occ_repeat_neq by lia.
      split; [lia|]. reflexivity.
Qed.

(** X8.  Without shuffling and without thresholds the shard is known
    in closed form: rank [rk] holds the batches [rk * n] to
    [rk * n + n - 1] of the sequence [0, 1, ..., L - 1] continued by
    [0, 1, ...] under [pad_batch] and by [-1] otherwise, so that entry
    [c] of its batch [j] is position [(rk * n + j) * B + c] of that
    sequence. *)
Theorem ordered_shard (ds : Dataset) (B W rk : nat) (pb sy : bool)
    (seed : Z) (g : rng) (cs : list call) :
  let s0 := fresh ds B false None pb sy rk W seed in
  let w := fst (run cs {| np_random := g; self := s0 |}) in
  let L := dataset_len ds in
  forall w',
    reset w = (w', Ok tt) ->
    exists n shard,
      num_batches (self w') = Some n /\ _shard (self w') = Some shard /\
      length shard = n /\
      forall j c, j < n -> c < B ->
        nth c (nth j shard []) 0%Z
        = let p := (rk * n + j) * B + c in
          if p <? L then Z.of_nat p
          else if pb then Z.of_nat (p - L) else (-1)%Z.
Proof.
  intros s0 w L w' H.
  assert (HI : flat_inv s0 w).
  { apply run_preserves; [apply flat_invariant | apply flat_inv_fresh]. }
  rewrite reset_unfold in H.
  destruct (compute_shard w) as [w1 [shard|e]] eqn:Ec; [|discriminate].
  injection H as <-.
  destruct (flat_shard s0 w w1 shard HI Ec)
    as (n & shuffled & permuted & Hn & _ & Hlen & Hpad & _ & Hord & Hrk & Hshard
        & Hls & _ & _).
  cbn [s0 fresh dataset batch_size world_size pad_batch rank shuffle] in *.
  fold L in Hlen, Hpad, Hord.
  destruct (Hord eq_refl) as (-> & ->). clear Hord.
  exists n, shard. cbn [upd self num_batches _shard set_step set_shard].
  split; [exact Hn|]. split; [reflexivity|]. split; [exact Hls|].
  intros j c Hj Hc. cbv zeta.
  set (stream := flat_stream pb (arange L)
                   (Z.of_nat (n * (W * B)) - Z.of_nat L)) in *.
  assert (Hi : rk * n + j < n * W) by nia.
  assert (Hp : (rk * n + j) * B + c < n * (W * B)) by nia.
  rewrite Hshard, nth_firstn.
  destruct (Nat.ltb_spec j n); [|lia].
  rewrite nth_skipn.
  rewrite (nth_error_nth _ _ _ (rows_nth B (n * W) stream _ Hi)).
  rewrite nth_firstn. destruct (Nat.ltb_spec c B); [|lia].
  rewrite nth_skipn.
  set (p := (rk * n + j) * B + c) in *.
  unfold stream, flat_stream.
  destruct (Nat.ltb_spec p L) as [Hlt|Hge].
  - rewrite app_nth1 by (rewrite arange_length; exact Hlt).
    now apply arange_nth.
  - rewrite app_nth2 by (rewrite arange_length; lia).
    rewrite arange_length. destruct pb.
    + specialize (Hpad eq_refl). unfold slice_to.
      destruct (Z.leb_spec 0 (Z.of_nat (n * (W * B)) - Z.of_nat L)); [|lia].
      rewrite nth_firstn.
      destruct (Nat.ltb_spec (p - L)
                  (Z.to_nat (Z.of_nat (n * (W * B)) - Z.of_nat L))); [|lia].
      apply arange_nth. lia.
    + unfold list_times. apply nth_repeat_lt. lia.
Qed.

End Coverage.

(** A run of X7: seven items shuffled into batches of two. *)
Lemma epoch_covers_dataset_witness :
  exists permuted n,
    snd (epoch_prefix shuffled_world) = Ok permuted /\
    length permuted = 1 * n /\
    _shard (self (fst (reset shuffled_world)))
    = Some (firstn n (skipn (0 * n) permuted)) /\
    (forall i, i < 7 ->
       exists r, r < 1 /\
         In (Z.of_nat i) (concat (firstn n (skipn (r * n) permuted)))) /\
    (forall x, In x (concat permuted) ->
       (0 <= x < Z.of_nat 7)%Z \/ (true = false /\ x = (-1)%Z)) /\
    (forall i, i < 7 ->
       1 <= count_occ Z.eq_dec (concat permuted) (Z.of_nat i) <= 2 /\
       (true = false ->
        count_occ Z.eq_dec (concat permuted) (Z.of_nat i) = 1)).
Proof.
  exact (epoch_covers_dataset (G := RotGen) (plain 7) 2 1 0 true true true 1%Z 0 []
           (fst (reset shuffled_world)) eq_refl).
Defined.

(** A run of X8: the second of two ranks over five items in order. *)
Lemma ordered_shard_witness :
  exists n shard,
    num_batches (self (fst (reset second_rank_world))) = Some n /\
    _shard (self (fst (reset second_rank_world))) = Some shard /\
    length shard = n /\
    forall j c, j < n -> c < 2 ->
      nth c (nth j shard []) 0%Z
      = let p := (1 * n + j) * 2 + c in
        if p <? 5 then Z.of_nat p
        else if false then Z.of_nat (p - 5) else (-1)%Z.
Proof.
  exact (ordered_shard (G := RotGen) (plain 5) 2 2 1 false true 1%Z 0 []
           (fst (reset second_rank_world)) eq_refl).
Defined.

(* ------------------------------------------------------------------ *)
(** ** The bucketed branch of [reset] *)

(** The buckets the loop of [reset] does not skip, with their pads:
    entry [i] of [zip(bucket_sizes, pad_lengths)] is bucket [idx + i]. *)
Fixpoint live (idx : nat) (zs : list (nat * Z)) : list (nat * Z) :=
  match zs with
  | [] => []
  | (size, pad) :: rest =>
      if size =? 0 then live (S idx) rest else (idx, pad) :: live (S idx) rest
  end.

(** What one turn of the loop appends for bucket [fst bp] with pad
    [snd bp]: the bucket in some order, then the first [pad] entries of
    that order again. *)
Definition chunk_of (flags : list nat) (bp : nat * Z) (chunk : list Z) : Prop :=
  exists p, Permutation (where_eq flags (fst bp)) p /\
            chunk = p ++ slice_to p (snd bp).

(** [pad <= size] for every bucket that is not empty. *)
Definition pads_fit (sizes : list nat) (pads : list Z) : bool :=
  forallb (fun zp => (fst zp =? 0) || (snd zp <=? Z.of_nat (fst zp))%Z)
          (combine sizes pads).

Section BucketedReset.

Context {G : RandomGen}.

Lemma bucket_loop_chunks (flags : list nat) (zs : list (nat * Z)) :
  forall idx src acc (w : World G),
    bucket_flags (self w) = Some flags ->
    exists w' chunks src',
      bucket_loop idx zs src acc w = (w', Ok (acc ++ concat chunks, src')) /\
      self w' = self w /\
      Forall2 (chunk_of flags) (live idx zs) chunks /\
      (src = Identity ->
       w' = w /\
       chunks = map (fun bp => where_eq flags (fst bp)
                               ++ slice_to (where_eq flags (fst bp)) (snd bp))
                    (live idx zs)).
Proof.
  induction zs as [|[size pad] rest IH]; intros idx src acc w Hf.
  - exists w, [], src. cbn. rewrite app_nil_r. repeat split; constructor.
  - cbn [bucket_loop live]. destruct (size =? 0).
    + apply IH, Hf.
    + unfold bind at 1. unfold get_self. unfold bind at 1.
      rewrite Hf. unfold getattr at 1. unfold ret at 1. unfold bind at 1.
      destruct (rand_perm_ok src (where_eq flags idx) w)
        as (w1 & p & src1 & Hp & Hperm & Hself & Hid).
      rewrite Hp.
      destruct (IH (S idx) src1 (acc ++ p ++ slice_to p pad) w1)
        as (w2 & chunks & src2 & Hl & Hself2 & Hch & Hid2);
        [now rewrite Hself|].
      exists w2, ((p ++ slice_to p pad) :: chunks), src2.
      rewrite Hl. cbn [concat]. rewrite <- app_assoc.
      split; [reflexivity|]. split; [congruence|]. split.
      * constructor; [|exact Hch]. exists p. now split.
      * intros ->. destruct (Hid eq_refl) as (-> & -> & ->).
        destruct (Hid2 eq_refl) as (-> & ->). now split.
Qed.

(** The state of a sampler with thresholds: once [num_batches] is
    there, the bucket attributes are what [setup] computes from the
    flags. *)
Definition bucket_inv (s0 : Sampler) (flags : list nat) (w : World G) : Prop :=
  same_config s0 (self w) /\
  (exists ths ratios,
     aspect_ratio_thresholds s0 = Some ths /\
     aspect_ratios (dataset s0) = Some ratios /\
     digitize ratios ths = Ok flags) /\
  (forall m, num_batches (self w) = Some m ->
     bucket_flags (self w) = Some flags /\
     bucket_sizes (self w) = Some (bincount flags) /\
     exists pads counts,
       pad_lengths (self w) = Some pads /\
       map_result (pad_length (world_size s0 * batch_size s0)) (bincount flags)
       = Ok pads /\
       map_result (fun sz => np_ceil_div sz (world_size s0 * batch_size s0))
                  (bincount flags) = Ok counts /\
       m = list_sum counts).

Lemma bucket_inv_setup (s0 : Sampler) (flags : list nat) :
  preserves (bucket_inv s0 flags) setup.
Proof.
  intros w HI. pose proof HI as (Hc & (ths & ratios & Ht & Hr & Hd) & Hn).
  pose proof Hc as (Cd & CB & _ & Cth & _ & _ & _ & CW & _).
  rewrite <- Cth in Ht. rewrite <- Cd in Hr.
  rewrite (setup_bucketed w ths ratios flags Ht Hr Hd). cbv zeta.
  rewrite CW, CB.
  destruct (map_result (pad_length _) (bincount flags)) as [pads|e1] eqn:Ep.
  - destruct (map_result (fun sz => np_ceil_div sz _) (bincount flags))
      as [counts|e2] eqn:Ec; cbn [fst].
    + split; [exact Hc|]. split; [destruct HI as (_ & H & _); exact H|].
      intros m Hm. cbn in Hm. injection Hm as <-.
      split; [reflexivity|]. split; [reflexivity|].
      exists pads, counts. now repeat split.
    + split; [exact Hc|]. split; [destruct HI as (_ & H & _); exact H|].
      intros m Hm. cbn in Hm.
      destruct (Hn m Hm) as (_ & _ & ps & cs & _ & _ & Hcs & _). congruence.
  - cbn [fst]. split; [exact Hc|]. split; [destruct HI as (_ & H & _); exact H|].
    intros m Hm. cbn in Hm.
    destruct (Hn m Hm) as (_ & _ & ps & cs & _ & Hps & _ & _). congruence.
Qed.

Lemma bucket_inv_compute_shard (s0 : Sampler) (flags : list nat) :
  preserves (bucket_inv s0 flags) compute_shard.
Proof.
  apply compute_shard_preserves.
  - intros g w H; exact H.
  - apply bucket_inv_setup.
  - apply choose_rand_perm_preserves. intros v w H; exact H.
Qed.

Lemma bucket_invariant (s0 : Sampler) (flags : list nat) :
  method_invariant (bucket_inv s0 flags).
Proof.
  apply method_invariant_intro.
  - apply bucket_inv_setup.
  - apply bucket_inv_compute_shard.
  - intros v w H; exact H.
  - intros v w H; exact H.
Qed.

Lemma bucket_inv_fresh ds B sh ths pb sy rk W seed (g : rng) ratios flags :
  aspect_ratios ds = Some ratios -> digitize ratios ths = Ok flags ->
  bucket_inv (fresh ds B sh (Some ths) pb sy rk W seed) flags
    {| np_random := g; self := fresh ds B sh (Some ths) pb sy rk W seed |}.
Proof.
  intros Hr Hd. split; [apply same_config_refl|]. split.
  - exists ths, ratios. now repeat split.
  - cbn. intros m Hm. discriminate.
Qed.

(** The shard a successful [compute_shard] returns on the bucketed
    path. *)
Lemma bucket_shard (s0 : Sampler) (flags : list nat) (w w' : World G)
    (shard : list (list Z)) :
  bucket_inv s0 flags w ->
  truthy (aspect_ratio_thresholds s0) = true ->
  compute_shard w = (w', Ok shard) ->
  exists pads counts chunks batches permuted k,
    num_batches (self w') = Some (list_sum counts) /\
    map_result (pad_length (world_size s0 * batch_size s0)) (bincount flags)
    = Ok pads /\
    map_result (fun sz => np_ceil_div sz (world_size s0 * batch_size s0))
               (bincount flags) = Ok counts /\
    Forall2 (chunk_of flags) (live 0 (combine (bincount flags) pads)) chunks /\
    reshape_rows (batch_size s0) (concat chunks) = Ok batches /\
    Permutation batches permuted /\
    length permuted = world_size s0 * k /\
    rank s0 < world_size s0 /\
    shard = firstn k (skipn (rank s0 * k) permuted) /\
    epoch_prefix w = (w', Ok permuted).
Proof.
  intros HI Htr H.
  pose proof (bucket_inv_compute_shard s0 flags w HI) as HI'.
  rewrite H in HI'. cbn [fst] in HI'.
  apply compute_shard_stages in H.
  destruct H as (w1 & w2 & src & w3 & stream & src' & batches & permuted
                 & src'' & shards & H1 & H2 & H3 & Hb & H4 & Hsh & Hix & Hpre).
  destruct (ensure_setup_ok_has _ _ H1) as (n & Hn1).
  pose proof (ensure_setup_preserves _ (bucket_inv_setup s0 flags) w HI) as HI1.
  rewrite H1 in HI1. cbn [fst] in HI1.
  assert (HI2 : bucket_inv s0 flags w2).
  { pose proof (choose_rand_perm_preserves (bucket_inv s0 flags)
                  ltac:(intros v u Hu; exact Hu) w1 HI1) as K.
    now rewrite H2 in K. }
  destruct (choose_rand_perm_fields _ _ _ H2) as (_ & Hn2 & _).
  rewrite Hn1 in Hn2.
  destruct HI2 as (Hc2 & _ & Hf2).
  destruct (Hf2 n Hn2) as (Hfl & Hsz & pads & counts & Hpl & Hpads & Hcounts & ->).
  pose proof Hc2 as (_ & CB2 & _ & Cth2 & _ & _ & _ & _ & _).
  destruct (bucket_loop_chunks flags (combine (bincount flags) pads) 0 src [] w2 Hfl)
    as (w3' & chunks & src3 & Hloop & Hs3 & Hch & _).
  assert (Hd : draw_indices src w2 = (w3', Ok (concat chunks, src3))).
  { unfold draw_indices, bind, get_self, getattr.
    rewrite Cth2, Htr, Hsz. cbn [self]. rewrite Hpl. unfold ret.
    now rewrite Hloop. }
  rewrite Hd in H3. injection H3 as <- <- <-.
  destruct (rand_perm_ok src3 batches w3') as (w4 & y & src4 & Hr & Hpy & Hs4 & _).
  rewrite Hr in H4. injection H4 as <- <- <-.
  apply reshape_shards_inv in Hsh. destruct Hsh as (HW & Hlen & ->).
  apply index_rows_inv in Hix. destruct Hix as [Hrk ->].
  destruct HI' as ((_ & CB & _ & _ & _ & _ & Crk & CW & _) & _ & Hf').
  rewrite Hs4, Hs3 in *. rewrite CB2 in Hb. rewrite Crk, CW in *.
  assert (Hn4 : num_batches (self w2) = Some (list_sum counts)) by exact Hn2.
  exists pads, counts, chunks, batches, y, (length y / world_size s0).
  split; [exact Hn4|]. split; [exact Hpads|]. split; [exact Hcounts|].
  split; [exact Hch|]. split; [exact Hb|]. split; [exact Hpy|].
  split; [exact Hlen|]. split; [exact Hrk|]. split; [reflexivity|exact Hpre].
Qed.

End BucketedReset.

Lemma Forall2_In_l {A B} (R : A -> B -> Prop) (l : list A) (l' : list B) (a : A) :
  Forall2 R l l' -> In a l -> exists b, In b l' /\ R a b.
Proof.
  induction 1 as [|x y l l' HR _ IH]; intros Hin; [contradiction|].
  destruct Hin as [<-|Hin].
  - exists y. split; [now left|exact HR].
  - destruct (IH Hin) as (b & Hb & Hab). exists b. split; [now right|exact Hab].
Qed.

Lemma Forall2_In_r {A B} (R : A -> B -> Prop) (l : list A) (l' : list B) (b : B) :
  Forall2 R l l' -> In b l' -> exists a, In a l /\ R a b.
Proof.
  induction 1 as [|x y l l' HR _ IH]; intros Hin; [contradiction|].
  destruct Hin as [<-|Hin].
  - exists x. split; [now left|exact HR].
  - destruct (IH Hin) as (a & Ha & Hab). exists a. split; [now right|exact Hab].
Qed.

Lemma live_in (zs : list (nat * Z)) : forall idx i size pad,
  nth_error zs i = Some (size, pad) -> size <> 0 ->
  In (idx + i, pad) (live idx zs).
Proof.
  induction zs as [|[sz pd] rest IH]; intros idx [|i] size pad H Hs; cbn in *;
    try discriminate.
  - injection H as -> ->. destruct (Nat.eqb_spec size 0); [lia|].
    left. f_equal. lia.
  - specialize (IH (S idx) i size pad H Hs).
    replace (idx + S i) with (S idx + i) by lia.
    destruct (sz =? 0); [exact IH | right; exact IH].
Qed.

Lemma where_eq_range (flags : list nat) (b : nat) (x : Z) :
  In x (where_eq flags b) ->
  exists i, x = Z.of_nat i /\ i < length flags /\ nth i flags 0 = b.
Proof.
  unfold where_eq. rewrite in_map_iff. intros (i & <- & Hi).
  apply filter_In in Hi. destruct Hi as (Hi & Hb).
  apply in_seq in Hi. apply Nat.eqb_eq in Hb. exists i. repeat split; [lia|exact Hb].
Qed.

Lemma chunk_of_in (flags : list nat) (bp : nat * Z) (ch : list Z) (x : Z) :
  chunk_of flags bp ch -> In x ch -> In x (where_eq flags (fst bp)).
Proof.
  intros (p & Hperm & ->) Hin. apply in_app_or in Hin.
  apply (Permutation_in _ (Permutation_sym Hperm)).
  destruct Hin as [Hin|Hin]; [exact Hin|]. eapply In_slice_to; eauto.
Qed.

Lemma digitize_length (xs bins : list Q) (flags : list nat) :
  digitize xs bins = Ok flags -> length flags = length xs.
Proof.
  unfold digitize. destruct (monotonicity bins) as [|p|p]; [discriminate|..].
  - destruct p; intros H; injection H as <-; apply length_map.
  - intros H; injection H as <-; apply length_map.
Qed.

Lemma rows_app {A} (size c m : nat) : forall (l1 l2 : list A),
  length l1 = c * size ->
  rows size (c + m) (l1 ++ l2) = rows size c l1 ++ rows size m l2.
Proof.
  induction c as [|c IH]; intros l1 l2 Hlen.
  - destruct l1; [reflexivity|discriminate].
  - cbn [Nat.add rows app]. cbn [Nat.mul] in Hlen.
    rewrite firstn_app, skipn_app.
    replace (size - length l1) with 0 by lia.
    cbn [firstn skipn]. rewrite app_nil_r. f_equal.
    apply IH. rewrite length_skipn. lia.
Qed.

Lemma rows_incl {A} (size c : nat) : forall (l row : list A),
  In row (rows size c l) -> incl row l.
Proof.
  induction c as [|c IH]; intros l row Hin; [contradiction|].
  cbn [rows] in Hin. destruct Hin as [<-|Hin].
  - intros x Hx. rewrite <- (firstn_skipn size l). apply in_or_app. now left.
  - intros x Hx. rewrite <- (firstn_skipn size l). apply in_or_app. right.
    now apply (IH _ _ Hin).
Qed.

(** Chunks of whole rows are cut into rows chunk by chunk. *)
Lemma rows_of_chunks {A} (size : nat) (chunks : list (list A)) :
  0 < size ->
  Forall (fun ch => exists c, length ch = c * size) chunks ->
  forall row,
    In row (rows size (length (concat chunks) / size) (concat chunks)) ->
    exists ch, In ch chunks /\ incl row ch.
Proof.
  intros Hpos. induction 1 as [|ch chunks (c & Hc) _ IH]; intros row Hin.
  - cbn in Hin. rewrite Nat.Div0.div_0_l in Hin. contradiction.
  - cbn [concat] in Hin. rewrite length_app, Hc in Hin.
    rewrite Nat.div_add_l in Hin by lia.
    rewrite (rows_app size c _ ch (concat chunks) Hc) in Hin.
    apply in_app_or in Hin. destruct Hin as [Hin|Hin].
    + exists ch. split; [now left|]. eapply rows_incl; eauto.
    + destruct (IH row Hin) as (ch' & Hch' & Hincl).
      exists ch'. split; [now right|exact Hincl].
Qed.

(** The length of the stream the bucket loop builds, against the
    schedule of [setup]. *)
Lemma chunks_total (wbs : nat) (flags : list nat) :
  forall sizes pads counts idx chunks,
    Forall2 (fun sz pad => pad_length wbs sz = Ok pad) sizes pads ->
    Forall2 (fun sz c => np_ceil_div sz wbs = Ok c) sizes counts ->
    (forall i, i < length sizes ->
       nth i sizes 0 = length (where_eq flags (idx + i))) ->
    Forall2 (chunk_of flags) (live idx (combine sizes pads)) chunks ->
    length (concat chunks) <= list_sum counts * wbs /\
    (pads_fit sizes pads = true ->
     length (concat chunks) = list_sum counts * wbs /\
     Forall (fun ch => exists c, length ch = c * wbs) chunks) /\
    (pads_fit sizes pads = false ->
     length (concat chunks) < list_sum counts * wbs).
Proof.
  induction sizes as [|sz sizes IH]; intros pads counts idx chunks Hp Hc Hsz Hch.
  - inversion Hp; inversion Hc; subst. cbn in Hch. inversion Hch; subst. cbn.
    split; [lia|]. split; [intros _; split; [lia|constructor] | discriminate].
  - inversion Hp as [|? pad ? pads' Hpad Hp']; subst.
    inversion Hc as [|? c ? counts' Hcd Hc']; subst.
    cbn [combine live] in Hch.
    unfold pad_length in Hpad. rewrite Hcd in Hpad. injection Hpad as <-.
    apply np_ceil_div_inv in Hcd. destruct Hcd as (Hpos & Hle & Hlt).
    assert (Hsz0 := Hsz 0 ltac:(cbn; lia)). cbn [nth] in Hsz0.
    rewrite Nat.add_0_r in Hsz0.
    assert (Htl : forall i, i < length sizes ->
              nth i sizes 0 = length (where_eq flags (S idx + i))).
    { intros i Hi. specialize (Hsz (S i) ltac:(cbn; lia)). cbn [nth] in Hsz.
      now replace (S idx + i) with (idx + S i) by lia. }
    unfold pads_fit. cbn [combine forallb fst snd].
    fold (pads_fit sizes pads').
    change (list_sum (c :: counts')) with (c + list_sum counts').
    rewrite Nat.mul_add_distr_r.
    destruct (Nat.eqb_spec sz 0) as [Hz|Hnz].
    + assert (c = 0) by nia. subst c. cbn [orb andb Nat.mul Nat.add].
      exact (IH pads' counts' (S idx) chunks Hp' Hc' Htl Hch).
    + destruct chunks as [|ch chunks']; [inversion Hch|].
      apply Forall2_cons_iff in Hch. destruct Hch as (Hco & Hch').
      destruct Hco as (p & Hperm & ->). cbn [fst snd] in *.
      specialize (IH pads' counts' (S idx) chunks' Hp' Hc' Htl Hch').
      destruct IH as (I1 & I2 & I3).
      assert (Hlp : length p = sz).
      { rewrite <- (Permutation_length Hperm). now rewrite Hsz0. }
      assert (Hch0 : length (p ++ slice_to p (Z.of_nat (c * wbs) - Z.of_nat sz))
                     = sz + Nat.min (c * wbs - sz) sz).
      { rewrite length_app, slice_to_nonneg by lia.
        rewrite length_firstn, Hlp. lia. }
      cbn [concat]. rewrite length_app, Hch0. cbn [orb].
      destruct (Z.leb_spec (Z.of_nat (c * wbs) - Z.of_nat sz) (Z.of_nat sz)).
      * cbn [andb]. split; [lia|]. split.
        -- intros Hf. destruct (I2 Hf) as (E & F). split; [lia|].
           constructor; [|exact F]. exists c. rewrite Hch0. lia.
        -- intros Hf. specialize (I3 Hf). lia.
      * cbn [andb]. split; [lia|]. split; [discriminate|]. intros _. lia.
Qed.

(** Every bucket that is not empty holds at least as many items as its
    pad asks for. *)
Definition buckets_fit (whole_batch_size : nat) (flags : list nat) : bool :=
  match map_result (pad_length whole_batch_size) (bincount flags) with
  | Ok pads => pads_fit (bincount flags) pads
  | Raise _ => false
  end.

Section BucketedEpoch.

Context {G : RandomGen}.

(** The loop over a shard shorter than the schedule: it yields every
    row and ends in the [IndexError] of [self._shard[self._step]]. *)
Lemma next_loop_short (d : nat) : forall (w : World G) n shard,
  num_batches (self w) = Some n -> _shard (self w) = Some shard ->
  length shard < n -> _step (self w) + d = length shard ->
  next_loop (S d) w =
  Some (upd (set_step (length shard)) w,
        map (visible (pad_batch (self w))) (skipn (_step (self w)) shard),
        Raise IndexError).
Proof.
  induction d as [|d IH]; intros w n shard Hn Hs Hlen Hd.
  - rewrite next_loop_S.
    assert (Hnx : __next__ w = (w, Raise IndexError)).
    { unfold __next__, bind, get_self, getattr, lift, index, ret, raise.
      rewrite Hn. destruct (Nat.leb_spec n (_step (self w))); [lia|].
      rewrite Hs.
      rewrite (proj2 (nth_error_None shard (_step (self w)))) by lia.
      now destruct (pad_batch (self w)). }
    rewrite Hnx, skipn_all2 by lia. rewrite upd_step_same by lia. reflexivity.
  - destruct (nth_error shard (_step (self w))) as [row|] eqn:Er.
    2:{ apply nth_error_None in Er. lia. }
    rewrite next_loop_S, (next_yield w n shard row Hn ltac:(lia) Hs Er).
    specialize (IH (upd (set_step (_step (self w) + 1)) w) n shard Hn Hs Hlen).
    cbn [upd self set_step _step] in IH. rewrite IH by lia.
    rewrite (skipn_cons_nth _ _ _ Er), Nat.add_1_r. reflexivity.
Qed.

(** From a stream of [world_size * n] whole batches onwards
    [compute_shard] cannot fail on a rank below [world_size]. *)
Lemma compute_shard_from_stream (w w1 w2 w3 : World G) (src src' : perm_src)
    (stream : list Z) (n : nat) :
  ensure_setup w = (w1, Ok tt) ->
  choose_rand_perm w1 = (w2, Ok src) ->
  draw_indices src w2 = (w3, Ok (stream, src')) ->
  self w3 = self w2 ->
  0 < batch_size (self w2) ->
  length stream = (n * world_size (self w2)) * batch_size (self w2) ->
  rank (self w2) < world_size (self w2) ->
  exists w4 shard, compute_shard w = (w4, Ok shard) /\ length shard = n.
Proof.
  intros H1 H2 H3 Hs3 HB Hlen Hrk.
  pose proof (reshape_rows_ok _ _ _ HB Hlen) as Hb.
  set (batches := rows _ _ _) in Hb.
  destruct (rand_perm_ok src' batches w3) as (w4 & permuted & src4 & H4 & Hp4 & Hs4 & _).
  assert (Hpl : length permuted = world_size (self w2) * n).
  { rewrite <- (Permutation_length Hp4). subst batches. rewrite rows_length. lia. }
  assert (HW : 0 < world_size (self w2)) by lia.
  pose proof (reshape_shards_ok _ _ _ HW Hpl) as Hsh.
  assert (Hix : index (rows n (world_size (self w2)) permuted) (rank (self w2))
                = Ok (firstn n (skipn (rank (self w2) * n) permuted))).
  { unfold index. now rewrite rows_nth by assumption. }
  exists w4, (firstn n (skipn (rank (self w2) * n) permuted)).
  split; [|now apply (slice_length n _ (world_size (self w2)))].
  unfold compute_shard, shuffled_batches.
  rewrite (bind_ok _ _ _ _ _ H1).
  assert (Hsb : bind choose_rand_perm
                  (fun src0 =>
                     bind (draw_indices src0)
                       (fun x => let '(shuffled_indices, src1) := x in
                          bind get_self (fun s =>
                            bind (lift (reshape_rows (batch_size s) shuffled_indices))
                              (fun batches0 =>
                                 bind (rand_perm src1 batches0)
                                   (fun x0 => let '(permuted0, _) := x0 in
                                              ret permuted0))))) w1
                = (w4, Ok permuted)).
  { rewrite (bind_ok _ _ _ _ _ H2), (bind_ok _ _ _ _ _ H3).
    unfold bind at 1. unfold get_self at 1.
    rewrite Hs3. unfold bind at 1. unfold lift at 1. rewrite Hb.
    rewrite (bind_ok _ _ _ _ _ H4). reflexivity. }
  rewrite (bind_ok _ _ _ _ _ Hsb).
  unfold bind at 1. unfold get_self at 1.
  rewrite Hs4, Hs3.
  unfold bind, lift. now rewrite Hsh, Hix.
Qed.

(** What a successful [reset] leaves on the bucketed path. *)
Lemma bucket_reset_stages (s0 : Sampler) (flags : list nat) (w w' : World G) :
  bucket_inv s0 flags w ->
  truthy (aspect_ratio_thresholds s0) = true ->
  reset w = (w', Ok tt) ->
  let wbs := world_size s0 * batch_size s0 in
  exists pads counts chunks permuted k,
    map_result (pad_length wbs) (bincount flags) = Ok pads /\
    Forall2 (chunk_of flags) (live 0 (combine (bincount flags) pads)) chunks /\
    0 < batch_size s0 /\
    Permutation
      (rows (batch_size s0) (length (concat chunks) / batch_size s0)
         (concat chunks)) permuted /\
    length (concat chunks) = (k * world_size s0) * batch_size s0 /\
    length permuted = world_size s0 * k /\
    rank s0 < world_size s0 /\
    num_batches (self w') = Some (list_sum counts) /\
    _shard (self w') = Some (firstn k (skipn (rank s0 * k) permuted)) /\
    _step (self w') = 0 /\ pad_batch (self w') = pad_batch s0 /\
    snd (epoch_prefix w) = Ok permuted /\
    length (concat chunks) <= list_sum counts * wbs /\
    (buckets_fit wbs flags = true ->
     length (concat chunks) = list_sum counts * wbs /\
     Forall (fun ch => exists c, length ch = c * wbs) chunks) /\
    (buckets_fit wbs flags = false ->
     length (concat chunks) < list_sum counts * wbs).
Proof.
  intros HI Htr H wbs. rewrite reset_unfold in H.
  pose proof (bucket_inv_compute_shard s0 flags w HI) as HI'.
  destruct (compute_shard w) as [w1 [shard|e]] eqn:Ec; [|discriminate].
  injection H as <-. cbn [fst] in HI'.
  destruct (bucket_shard s0 flags w w1 shard HI Htr Ec)
    as (pads & counts & chunks & batches & permuted & k & Hn & Hpads & Hcounts
        & Hch & Hb & Hperm & Hlen & Hrk & -> & Hpre).
  pose proof Hb as Hb'. apply reshape_rows_inv in Hb'.
  destruct Hb' as (HB & Hl & _ & _).
  unfold reshape_rows in Hb.
  destruct (batch_size s0 =? 0); [discriminate|].
  destruct (length (concat chunks) mod batch_size s0 =? 0); [|discriminate].
  injection Hb as Hb.
  destruct HI' as ((_ & _ & _ & _ & Cpb & _) & _ & _).
  pose proof (Permutation_length Hperm) as Hbl.
  assert (Hsz : forall i, i < length (bincount flags) ->
            nth i (bincount flags) 0 = length (where_eq flags (0 + i))).
  { intros i Hi. now apply bincount_nth. }
  pose proof (chunks_total wbs flags (bincount flags) pads counts 0 chunks
                (map_result_inv _ _ _ Hpads) (map_result_inv _ _ _ Hcounts)
                Hsz Hch) as Htot.
  exists pads, counts, chunks, permuted, k.
  split; [exact Hpads|]. split; [exact Hch|]. split; [exact HB|].
  split; [now rewrite Hb|]. split; [rewrite Hl, Hbl, Hlen; lia|].
  split; [exact Hlen|]. split; [exact Hrk|]. split; [exact Hn|].
  split; [reflexivity|]. split; [reflexivity|]. split; [exact Cpb|].
  split; [now rewrite Hpre|].
  unfold buckets_fit. fold wbs in Hpads. rewrite Hpads. exact Htot.
Qed.

(** X9.  One epoch of a sampler with thresholds drops no item either,
    and its indices range over the list of aspect ratios (the length of
    the dataset is never read on this path): when [reset] returns, every
    position of [aspect_ratios] is held by the shard of some rank below
    [world_size], and the batches hold nothing else. *)
Theorem bucketed_epoch_covers (ds : Dataset) (B W rk : nat) (sh sy : bool)
    (seed : Z) (g : rng) (cs : list call) (ths ratios : list Q)
    (flags : list nat) :
  truthy (Some ths) = true ->
  aspect_ratios ds = Some ratios -> digitize ratios ths = Ok flags ->
  let s0 := fresh ds B sh (Some ths) true sy rk W seed in
  let w := fst (run cs {| np_random := g; self := s0 |}) in
  forall w',
    reset w = (w', Ok tt) ->
    exists permuted k,
      snd (epoch_prefix w) = Ok permuted /\
      length permuted = W * k /\
      _shard (self w') = Some (firstn k (skipn (rk * k) permuted)) /\
      (forall i, i < length ratios ->
         exists r, r < W /\
           In (Z.of_nat i) (concat (firstn k (skipn (r * k) permuted)))) /\
      (forall x, In x (concat permuted) ->
         exists i, x = Z.of_nat i /\ i < length ratios).
Proof.
  intros Htr Hr Hd s0 w w' H.
  assert (HI : bucket_inv s0 flags w).
  { apply run_preserves; [apply bucket_invariant|].
    now apply (bucket_inv_fresh _ _ _ _ _ _ _ _ _ _ ratios). }
  destruct (bucket_reset_stages s0 flags w w' HI Htr H)
    as (pads & counts & chunks & permuted & k & Hpads & Hch & HB & Hperm & Hl
        & Hlen & Hrk & _ & Hshard & _ & _ & Hpre & _).
  cbn [s0 fresh batch_size world_size rank] in *.
  pose proof (digitize_length _ _ _ Hd) as Hfl.
  assert (Hcat : Permutation (concat chunks) (concat permuted)).
  { rewrite <- (rows_concat B (length (concat chunks) / B) (concat chunks)) at 1.
    - now apply Permutation_concat.
    - rewrite Hl, Nat.div_mul by lia. reflexivity. }
  exists permuted, k.
  split; [exact Hpre|]. split; [exact Hlen|]. split; [exact Hshard|]. split.
  - intros i Hi. apply (In_slices k W permuted _ Hlen).
    eapply Permutation_in; [exact Hcat|].
    rewrite <- Hfl in Hi.
    set (b := nth i flags 0).
    assert (Hin : In (Z.of_nat i) (where_eq flags b))
      by (apply where_eq_in; now split).
    assert (Hb : b < length (bincount flags))
      by (apply bincount_bound, nth_In, Hi).
    pose proof (bincount_nth flags b Hb) as Hsz.
    pose proof (Forall2_length (map_result_inv _ _ _ Hpads)) as Hpl.
    assert (Hnth : nth_error (combine (bincount flags) pads) b
                   = Some (nth b (bincount flags) 0, nth b pads 0%Z)).
    { rewrite <- (combine_nth _ _ _ _ _ Hpl).
      apply nth_error_nth'. rewrite length_combine. lia. }
    assert (Hne : nth b (bincount flags) 0 <> 0).
    { rewrite Hsz. destruct (where_eq flags b); [contradiction|discriminate]. }
    pose proof (live_in _ 0 b _ _ Hnth Hne) as Hlive. cbn [Nat.add] in Hlive.
    destruct (Forall2_In_l _ _ _ _ Hch Hlive) as (ch & Hchin & (p & Hp & ->)).
    cbn [fst snd] in Hp.
    apply in_concat. eexists. split; [exact Hchin|].
    apply in_or_app. left. eapply Permutation_in; eauto.
  - intros x Hx. apply (Permutation_in _ (Permutation_sym Hcat)) in Hx.
    apply in_concat in Hx. destruct Hx as (ch & Hchin & Hx).
    destruct (Forall2_In_r _ _ _ _ Hch Hchin) as (bp & _ & Hco).
    destruct (where_eq_range _ _ _ (chunk_of_in _ _ _ _ Hco Hx)) as (i & -> & Hi & _).
    exists i. split; [reflexivity|]. now rewrite <- Hfl.
Qed.

(** X10.  When every bucket that is not empty holds at least as many
    items as its pad, each batch is drawn from one bucket: after a
    [reset] that returned, all indices of a row of the shard carry the
    same bucket flag. *)
Theorem batches_from_one_bucket (ds : Dataset) (B W rk : nat) (sh sy : bool)
    (seed : Z) (g : rng) (cs : list call) (ths ratios : list Q)
    (flags : list nat) :
  truthy (Some ths) = true ->
  aspect_ratios ds = Some ratios -> digitize ratios ths = Ok flags ->
  buckets_fit (W * B) flags = true ->
  let s0 := fresh ds B sh (Some ths) true sy rk W seed in
  let w := fst (run cs {| np_random := g; self := s0 |}) in
  forall w',
    reset w = (w', Ok tt) ->
    exists shard,
      _shard (self w') = Some shard /\
      Forall (fun row =>
                exists b, forall x, In x row ->
                  exists i, x = Z.of_nat i /\ i < length ratios /\
                            nth i flags 0 = b) shard.
Proof.
  intros Htr Hr Hd Hfit s0 w w' H.
  assert (HI : bucket_inv s0 flags w).
  { apply run_preserves; [apply bucket_invariant|].
    now apply (bucket_inv_fresh _ _ _ _ _ _ _ _ _ _ ratios). }
  destruct (bucket_reset_stages s0 flags w w' HI Htr H)
    as (pads & counts & chunks & permuted & k & _ & Hch & HB & Hperm & _
        & _ & _ & _ & Hshard & _ & _ & _ & _ & Hfits & _).
  cbn [s0 fresh batch_size world_size rank] in *.
  destruct (Hfits Hfit) as (_ & Hmult).
  pose proof (digitize_length _ _ _ Hd) as Hfl.
  assert (Hmult' : Forall (fun ch : list Z => exists c, length ch = c * B) chunks).
  { eapply Forall_impl; [|exact Hmult]. intros ch (c & Hc).
    exists (c * W). rewrite Hc. lia. }
  eexists. split; [exact Hshard|].
  apply Forall_forall. intros row Hrow. apply in_slice in Hrow.
  apply (Permutation_in _ (Permutation_sym Hperm)) in Hrow.
  destruct (rows_of_chunks B chunks HB Hmult' row Hrow) as (ch & Hchin & Hincl).
  destruct (Forall2_In_r _ _ _ _ Hch Hchin) as (bp & _ & Hco).
  exists (fst bp). intros x Hx.
  destruct (where_eq_range _ _ _ (chunk_of_in _ _ _ _ Hco (Hincl x Hx)))
    as (i & -> & Hi & Hb).
  exists i. split; [reflexivity|]. split; [now rewrite <- Hfl|exact Hb].
Qed.

Lemma bucket_ensure_setup_returns (s0 : Sampler) (flags : list nat)
    (w : World G) :
  bucket_inv s0 flags w -> 0 < world_size s0 * batch_size s0 ->
  exists w1, ensure_setup w = (w1, Ok tt).
Proof.
  intros HI Hpos.
  destruct (has (num_batches (self w))) eqn:E.
  - exists w. now apply ensure_setup_ready.
  - rewrite (ensure_setup_fresh w E).
    destruct HI as (Hc & (ths & ratios & Ht & Hr & Hd) & _).
    pose proof Hc as (Cd & CB & _ & Cth & _ & _ & _ & CW & _).
    rewrite <- Cth in Ht. rewrite <- Cd in Hr.
    rewrite (setup_bucketed w ths ratios flags Ht Hr Hd). cbv zeta.
    rewrite CW, CB.
    destruct (map_result_ok (pad_length (world_size s0 * batch_size s0))
                (bincount flags)) as (pads & ->).
    { apply Forall_forall. intros sz _. unfold pad_length.
      destruct (np_ceil_div_ok sz _ Hpos) as (c & -> & _). eauto. }
    destruct (map_result_ok (fun sz => np_ceil_div sz (world_size s0 * batch_size s0))
                (bincount flags)) as (counts & ->).
    { apply Forall_forall. intros sz _.
      destruct (np_ceil_div_ok sz _ Hpos) as (c & -> & _). eauto. }
    eauto.
Qed.

(** X11.  With thresholds, when every bucket that is not empty holds at
    least as many items as its pad, [reset] returns on every rank below
    [world_size] (the seed being one [RandomState] accepts), the shard
    has exactly [num_batches] rows, and the loop yields them all and
    ends normally. *)
Theorem bucketed_reset_returns (ds : Dataset) (B W rk : nat) (sh sy : bool)
    (seed : Z) (g : rng) (cs : list call) (ths ratios : list Q)
    (flags : list nat) :
  truthy (Some ths) = true ->
  aspect_ratios ds = Some ratios -> digitize ratios ths = Ok flags ->
  buckets_fit (W * B) flags = true ->
  0 < W * B -> rk < W ->
  let s0 := fresh ds B sh (Some ths) true sy rk W seed in
  let w := fst (run cs {| np_random := g; self := s0 |}) in
  (sh && sy = true ->
   is_ok (RandomState (Z.of_nat (epoch (self w)) + seed)%Z) = true) ->
  exists w' n shard,
    reset w = (w', Ok tt) /\
    num_batches (self w') = Some n /\ _shard (self w') = Some shard /\
    length shard = n /\
    for_loop (S n) w' = Some (upd (set_step n) w', shard, Ok tt).
Proof.
  intros Htr Hr Hd Hfit Hpos Hrk s0 w Hseed.
  assert (HI : bucket_inv s0 flags w).
  { apply run_preserves; [apply bucket_invariant|].
    now apply (bucket_inv_fresh _ _ _ _ _ _ _ _ _ _ ratios). }
  destruct (bucket_ensure_setup_returns s0 flags w HI Hpos) as (w1 & H1).
  destruct (ensure_setup_ok_has _ _ H1) as (n & Hn1).
  pose proof (ensure_setup_preserves _ (bucket_inv_setup s0 flags) w HI) as HI1.
  rewrite H1 in HI1. cbn [fst] in HI1.
  pose proof (ensure_setup_preserves _ (epoch_setup (epoch (self w))) w eq_refl)
    as He1.
  rewrite H1 in He1. cbn [fst] in He1. unfold epoch_is in He1.
  pose proof HI1 as (Hc1 & _ & _).
  pose proof Hc1 as (_ & _ & Csh & _ & _ & Csy & _ & _ & Cis).
  assert (H2 : exists w2 src, choose_rand_perm w1 = (w2, Ok src)).
  { rewrite choose_rand_perm_unfold, Csh, Csy, Cis, He1.
    cbn [s0 fresh shuffle sync_seed_schedule init_seed].
    destruct sh; simpl; [|eauto].
    destruct sy; [|eauto].
    specialize (Hseed eq_refl). destruct (RandomState _); [eauto|discriminate]. }
  destruct H2 as (w2 & src & H2).
  assert (HI2 : bucket_inv s0 flags w2).
  { pose proof (choose_rand_perm_preserves (bucket_inv s0 flags)
                  ltac:(intros v u Hu; exact Hu) w1 HI1) as K.
    now rewrite H2 in K. }
  destruct (choose_rand_perm_fields _ _ _ H2) as (_ & Hn2 & _).
  rewrite Hn1 in Hn2.
  destruct HI2 as (Hc2 & _ & Hf2).
  destruct (Hf2 n Hn2) as (Hfl & Hsz & pads & counts & Hpl & Hpads & Hcounts & ->).
  pose proof Hc2 as (_ & CB2 & _ & Cth2 & Cpb2 & _ & Crk2 & CW2 & _).
  destruct (bucket_loop_chunks flags (combine (bincount flags) pads) 0 src [] w2 Hfl)
    as (w3 & chunks & src3 & Hloop & Hs3 & Hch & _).
  assert (H3 : draw_indices src w2 = (w3, Ok (concat chunks, src3))).
  { unfold draw_indices, bind, get_self, getattr.
    rewrite Cth2. cbn [s0 fresh aspect_ratio_thresholds]. rewrite Htr, Hsz.
    cbn [self]. rewrite Hpl. unfold ret. now rewrite Hloop. }
  cbn [s0 fresh batch_size world_size rank pad_batch] in *.
  assert (Hbn : forall i, i < length (bincount flags) ->
            nth i (bincount flags) 0 = length (where_eq flags (0 + i))).
  { intros i Hi. now apply bincount_nth. }
  pose proof (chunks_total (W * B) flags (bincount flags) pads counts 0 chunks
                (map_result_inv _ _ _ Hpads) (map_result_inv _ _ _ Hcounts)
                Hbn Hch) as (_ & Htot & _).
  unfold buckets_fit in Hfit. rewrite Hpads in Hfit.
  destruct (Htot Hfit) as (Hlen & _).
  destruct (compute_shard_from_stream w w1 w2 w3 src src3 (concat chunks)
              (list_sum counts) H1 H2 H3 Hs3)
    as (w4 & shard & Hcs & Hls).
  { rewrite CB2. nia. }
  { rewrite CB2, CW2, Hlen. lia. }
  { now rewrite Crk2, CW2. }
  assert (HI4 : bucket_inv s0 flags w4).
  { pose proof (bucket_inv_compute_shard s0 flags w HI) as K.
    now rewrite Hcs in K. }
  assert (Hn4 : num_batches (self w4) = Some (list_sum counts)).
  { destruct (compute_shard_scheduled _ _ _ Hcs) as (m & Hm).
    destruct HI4 as (_ & _ & Hf4).
    destruct (Hf4 m Hm) as (_ & _ & ps & cs' & _ & _ & Hcs' & ->).
    cbn [s0 fresh batch_size world_size] in Hcs'.
    rewrite Hm. congruence. }
  destruct HI4 as ((_ & _ & _ & _ & Cpb4 & _) & _ & _).
  cbn [s0 fresh pad_batch] in Cpb4.
  exists (upd (set_step 0) (upd (set_shard shard) w4)), (list_sum counts), shard.
  split; [now rewrite reset_unfold, Hcs|].
  split; [exact Hn4|]. split; [reflexivity|]. split; [exact Hls|].
  rewrite (for_loop_full (upd (set_step 0) (upd (set_shard shard) w4))
             (list_sum counts) shard Hn4 eq_refl Hls eq_refl).
  cbn [upd self pad_batch set_step set_shard]. rewrite Cpb4.
  cbn [visible]. now rewrite map_id.
Qed.

(** X12.  With thresholds, when some bucket that is not empty is
    smaller than its pad, the slice cannot fill the pad and the shard
    comes out shorter than the schedule: if [reset] returns at all,
    the shard has fewer rows than [num_batches], and the loop yields
    them and then ends in the [IndexError] of
    [self._shard[self._step]]. *)
Theorem short_bucket_short_shard (ds : Dataset) (B W rk : nat) (sh sy : bool)
    (seed : Z) (g : rng) (cs : list call) (ths ratios : list Q)
    (flags : list nat) :
  truthy (Some ths) = true ->
  aspect_ratios ds = Some ratios -> digitize ratios ths = Ok flags ->
  buckets_fit (W * B) flags = false ->
  let s0 := fresh ds B sh (Some ths) true sy rk W seed in
  let w := fst (run cs {| np_random := g; self := s0 |}) in
  forall w',
    reset w = (w', Ok tt) ->
    exists n shard,
      num_batches (self w') = Some n /\ _shard (self w') = Some shard /\
      length shard < n /\
      for_loop (S (length shard)) w'
      = Some (upd (set_step (length shard)) w', shard, Raise IndexError).
Proof.
  intros Htr Hr Hd Hfit s0 w w' H.
  assert (HI : bucket_inv s0 flags w).
  { apply run_preserves; [apply bucket_invariant|].
    now apply (bucket_inv_fresh _ _ _ _ _ _ _ _ _ _ ratios). }
  destruct (bucket_reset_stages s0 flags w w' HI Htr H)
    as (pads & counts & chunks & permuted & k & _ & _ & HB & _ & Hl
        & Hlen & Hrk & Hn & Hshard & Hstep & Hpb & _ & _ & _ & Hshort).
  cbn [s0 fresh batch_size world_size rank pad_batch] in *.
  specialize (Hshort Hfit). rewrite Hl in Hshort.
  assert (Hk : k < list_sum counts).
  { destruct (Nat.lt_ge_cases k (list_sum counts)) as [Hlt|Hge]; [exact Hlt|].
    pose proof (Nat.mul_le_mono_r _ _ (W * B) Hge). lia. }
  pose proof (slice_length k rk W permuted Hlen Hrk) as Hls.
  eexists _, _. split; [exact Hn|]. split; [exact Hshard|].
  split; [now rewrite Hls|].
  unfold for_loop.
  rewrite iter_ready by (rewrite ?Hn, ?Hshard; reflexivity).
  rewrite (next_loop_short _ w' _ _ Hn Hshard) by (rewrite ?Hls, ?Hstep; lia).
  rewrite Hstep, Hpb. cbn [visible skipn]. now rewrite map_id.
Qed.

End BucketedEpoch.

(** A run of X9 on the bucketed sampler of five items: flags
    [0; 1; 1; 2; 0]. *)
Lemma bucketed_epoch_covers_witness :
  exists permuted k,
    snd (epoch_prefix bucketed_world) = Ok permuted /\
    length permuted = 1 * k /\
    _shard (self (fst (reset bucketed_world)))
    = Some (firstn k (skipn (0 * k) permuted)) /\
    (forall i, i < 5 ->
       exists r, r < 1 /\
         In (Z.of_nat i) (concat (firstn k (skipn (r * k) permuted)))) /\
    (forall x, In x (concat permuted) -> exists i, x = Z.of_nat i /\ i < 5).
Proof.
  exact (bucketed_epoch_covers (G := RotGen)
           {| dataset_len := 5;
              aspect_ratios := Some [1 # 2; 3 # 2; 1 # 1; 5 # 2; 4 # 5]%Q |}
           2 1 0 true true 1%Z 0 [] [1 # 1; 2 # 1]%Q
           [1 # 2; 3 # 2; 1 # 1; 5 # 2; 4 # 5]%Q [0; 1; 1; 2; 0]
           eq_refl eq_refl eq_refl (fst (reset bucketed_world)) eq_refl).
Defined.

(** A run of X10: buckets of 2, 2 and 1 items, pads 0, 0 and 1. *)
Lemma batches_from_one_bucket_witness :
  exists shard,
    _shard (self (fst (reset bucketed_world))) = Some shard /\
    Forall (fun row =>
              exists b, forall x, In x row ->
                exists i, x = Z.of_nat i /\ i < 5 /\
                          nth i [0; 1; 1; 2; 0] 0 = b) shard.
Proof.
  exact (batches_from_one_bucket (G := RotGen)
           {| dataset_len := 5;
              aspect_ratios := Some [1 # 2; 3 # 2; 1 # 1; 5 # 2; 4 # 5]%Q |}
           2 1 0 true true 1%Z 0 [] [1 # 1; 2 # 1]%Q
           [1 # 2; 3 # 2; 1 # 1; 5 # 2; 4 # 5]%Q [0; 1; 1; 2; 0]
           eq_refl eq_refl eq_refl eq_refl (fst (reset bucketed_world)) eq_refl).
Defined.

(** A run of X11 on the same sampler. *)
Lemma bucketed_reset_returns_witness :
  exists w' n shard,
    reset bucketed_world = (w', Ok tt) /\
    num_batches (self w') = Some n /\ _shard (self w') = Some shard /\
    length shard = n /\
    for_loop (S n) w' = Some (upd (set_step n) w', shard, Ok tt).
Proof.
  apply (bucketed_reset_returns (G := RotGen)
           {| dataset_len := 5;
              aspect_ratios := Some [1 # 2; 3 # 2; 1 # 1; 5 # 2; 4 # 5]%Q |}
           2 1 0 true true 1%Z 0 [] [1 # 1; 2 # 1]%Q
           [1 # 2; 3 # 2; 1 # 1; 5 # 2; 4 # 5]%Q [0; 1; 1; 2; 0]);
    try reflexivity; simpl; lia.
Defined.

(** Two buckets of one item each, batches of four: each pad is 3. *)
Definition small_buckets_world : World RotGen :=
  {| np_random := 0;
     self := fresh {| dataset_len := 2;
                      aspect_ratios := Some [1 # 2; 3 # 2]%Q |}
                   4 false (Some [1 # 1]%Q) true true 0 1 1%Z |}.

(** A run of X12. *)
Lemma short_bucket_short_shard_witness :
  exists n shard,
    num_batches (self (fst (reset small_buckets_world))) = Some n /\
    _shard (self (fst (reset small_buckets_world))) = Some shard /\
    length shard < n /\
    for_loop (S (length shard)) (fst (reset small_buckets_world))
    = Some (upd (set_step (length shard)) (fst (reset small_buckets_world)),
            shard, Raise IndexError).
Proof.
  exact (short_bucket_short_shard (G := RotGen)
           {| dataset_len := 2; aspect_ratios := Some [1 # 2; 3 # 2]%Q |}
           4 1 0 false true 1%Z 0 [] [1 # 1]%Q [1 # 2; 3 # 2]%Q [0; 1]
           eq_refl eq_refl eq_refl eq_refl
           (fst (reset small_buckets_world)) eq_refl).
Defined.

(* ------------------------------------------------------------------ *)
(** * Batch transforms ([ppdet/data/transforms.py])

    [PadToStride]: a batch of images, each an array of shape
    [(channels, height, width)], is copied into one zero-filled
    [float32] array whose height and width are rounded up to the
    stride.  Element types are kept abstract: [px] for the inputs,
    [f32] with its [zero] for the output, [astype] for the conversion
    the assignment performs. *)

Module PadToStride.

Section Arrays.

Variables (px f32 : Type) (zero : f32) (astype : px -> f32).

(** An [np.ndarray] of three dimensions with its [shape]. *)
Record image : Type :=
  { chan : nat; height : nat; width : nat;
    pixel : nat -> nat -> nat -> px }.

(** The four-dimensional array [padded]. *)
Record stacked : Type :=
  { shape : nat * nat * nat * nat;
    item : nat -> nat -> nat -> nat -> f32 }.

(** The keys [__call__] writes: [batch['image']],
    [batch['padded_height']], [batch['padded_width']]. *)
Record padded_batch : Type :=
  { image_ : stacked;
    padded_height : list nat;
    padded_width : list nat }.

Record self_ : Type := { stride : Z }.

(** [PadToStride.__init__]. *)
Definition __init__ (stride : Z) : result self_ :=
  if (0 <? stride)%Z then Ok {| stride := stride |} else Raise AssertionError.

(** [((x + stride - 1) // stride) * stride]. *)
Definition round_up (stride : Z) (x : nat) : Z :=
  ((Z.of_nat x + stride - 1) / stride * stride)%Z.

(** [padded[idx, :, :h, :w] = img]: the image is broadcast over the
    channel axis when it has one channel, and refused when its channels
    are neither one nor those of the target. *)
Definition assign (padded : nat -> nat -> nat -> nat -> f32) (channels idx : nat)
    (img : image) : result (nat -> nat -> nat -> nat -> f32) :=
  if (chan img =? channels) || (chan img =? 1) then
    Ok (fun i c y x =>
          if (i =? idx) && (y <? height img) && (x <? width img)
          then astype (pixel img (if chan img =? channels then c else 0) y x)
          else padded i c y x)
  else Raise ValueError.

(** [for idx, img in enumerate(images): ...]. *)
Fixpoint fill (padded : nat -> nat -> nat -> nat -> f32) (channels idx : nat)
    (images : list image) : result (nat -> nat -> nat -> nat -> f32) :=
  match images with
  | [] => Ok padded
  | img :: rest =>
      match assign padded channels idx img with
      | Ok padded' => fill padded' channels (S idx) rest
      | Raise e => Raise e
      end
  end.

(** [PadToStride.__call__] on [batch['image'] = images]. *)
Definition __call__ (self : self_) (images : list image) : result padded_batch :=
  match images with
  | [] => Raise IndexError
  | first :: _ =>
      let batch_size := length images in
      let hs := map height images in
      let ws := map width images in
      if (stride self =? 0)%Z then Raise ZeroDivisionError
      else
        let pad_h := round_up (stride self) (list_max hs) in
        let pad_w := round_up (stride self) (list_max ws) in
        let chan := chan first in
        if (pad_h <? 0)%Z || (pad_w <? 0)%Z then Raise ValueError
        else
          match fill (fun _ _ _ _ => zero) chan 0 images with
          | Ok padded =>
              Ok {| image_ := {| shape := (batch_size, chan,
                                           Z.to_nat pad_h, Z.to_nat pad_w);
                                 item := padded |};
                    padded_height := repeat (Z.to_nat pad_h) batch_size;
                    padded_width := repeat (Z.to_nat pad_w) batch_size |}
          | Raise e => Raise e
          end
  end.

End Arrays.

End PadToStride.

Lemma round_up_spec (s : Z) (x : nat) :
  (0 < s)%Z ->
  (Z.of_nat x <= PadToStride.round_up s x < Z.of_nat x + s)%Z /\
  (PadToStride.round_up s x mod s = 0)%Z /\
  (forall m, (m mod s = 0)%Z -> (Z.of_nat x <= m)%Z ->
             (PadToStride.round_up s x <= m)%Z).
Proof.
  intros Hs. unfold PadToStride.round_up.
  pose proof (Z.div_mod (Z.of_nat x + s - 1) s ltac:(lia)) as Hdm.
  pose proof (Z.mod_pos_bound (Z.of_nat x + s - 1) s Hs) as Hb.
  set (q := ((Z.of_nat x + s - 1) / s)%Z) in *.
  split; [lia|]. split; [apply Z_mod_mult|].
  intros m Hm Hx.
  pose proof (Z.div_mod m s ltac:(lia)) as Hm'. rewrite Hm in Hm'.
  set (k := (m / s)%Z) in *.
  assert (q <= k)%Z by nia. nia.
Qed.

Section PadToStrideFacts.

Variables (px f32 : Type) (zero : f32) (astype : px -> f32).

Local Abbreviation image := (PadToStride.image px).
Local Abbreviation fill := (PadToStride.fill px f32 astype).
Local Abbreviation pad_call := (PadToStride.__call__ px f32 zero astype).

(** The channels [padded[idx, :, :h, :w] = img] accepts. *)
Definition fits_channels (channels : nat) (img : image) : Prop :=
  PadToStride.chan px img = channels \/ PadToStride.chan px img = 1.

Lemma fill_inv (channels : nat) : forall (images : list image) padded idx q,
  fill padded channels idx images = Ok q ->
  Forall (fits_channels channels) images /\
  forall i c y x,
    q i c y x
    = match nth_error images (i - idx) with
      | Some img =>
          if (idx <=? i) && (y <? PadToStride.height px img)
             && (x <? PadToStride.width px img)
          then astype (PadToStride.pixel px img
                         (if PadToStride.chan px img =? channels then c else 0)
                         y x)
          else padded i c y x
      | None => padded i c y x
      end.
Proof.
  induction images as [|img rest IH]; intros padded idx q H; cbn [PadToStride.fill] in H.
  - injection H as <-. split; [constructor|]. intros i c y x.
    now destruct (i - idx).
  - unfold PadToStride.assign in H.
    destruct ((PadToStride.chan px img =? channels)
              || (PadToStride.chan px img =? 1)) eqn:Ech; [|discriminate].
    destruct (IH _ _ _ H) as (Hall & Hq). split.
    + constructor; [|exact Hall]. unfold fits_channels.
      apply orb_true_iff in Ech. rewrite !Nat.eqb_eq in Ech. exact Ech.
    + intros i c y x. rewrite Hq.
      destruct (Nat.lt_trichotomy i idx) as [Hlt|[->|Hgt]].
      * replace (i - S idx) with 0 by lia. replace (i - idx) with 0 by lia.
        cbn [nth_error].
        destruct (Nat.leb_spec (S idx) i); [lia|].
        destruct (Nat.leb_spec idx i); [lia|].
        destruct (Nat.eqb_spec i idx); [lia|]. cbn [andb].
        now destruct rest.
      * replace (idx - S idx) with 0 by lia. rewrite Nat.sub_diag.
        cbn [nth_error].
        destruct (Nat.leb_spec (S idx) idx); [lia|].
        rewrite Nat.leb_refl, Nat.eqb_refl. cbn [andb].
        now destruct rest.
      * replace (i - idx) with (S (i - S idx)) by lia. cbn [nth_error].
        destruct (Nat.leb_spec (S idx) i); [|lia].
        destruct (Nat.leb_spec idx i); [|lia].
        destruct (Nat.eqb_spec i idx); [lia|]. cbn [andb].
        reflexivity.
Qed.

Lemma fill_total (channels : nat) : forall (images : list image) padded idx,
  (Forall (fits_channels channels) images ->
   exists q, fill padded channels idx images = Ok q) /\
  (~ Forall (fits_channels channels) images ->
   fill padded channels idx images = Raise ValueError).
Proof.
  induction images as [|img rest IH]; intros padded idx; cbn [PadToStride.fill].
  - split; [eauto|]. intros H. exfalso. apply H. constructor.
  - unfold PadToStride.assign.
    destruct ((PadToStride.chan px img =? channels)
              || (PadToStride.chan px img =? 1)) eqn:Ech.
    + split.
      * intros H. inversion H; subst. now apply IH.
      * intros H. apply IH. intros Hr. apply H. constructor; [|exact Hr].
        apply orb_true_iff in Ech. rewrite !Nat.eqb_eq in Ech. exact Ech.
    + split; [|reflexivity]. intros H. inversion H as [|? ? Hf _]; subst.
      apply orb_false_iff in Ech. rewrite !Nat.eqb_neq in Ech.
      destruct Hf; lia.
Qed.

Lemma list_max_bound (l : list nat) (x : nat) : In x l -> x <= list_max l.
Proof.
  intros H. pose proof (proj1 (list_max_le l (list_max l)) (Nat.le_refl _)) as Hall.
  rewrite Forall_forall in Hall. now apply Hall.
Qed.

(** The result of a call that returns, taken apart. *)
Lemma pad_call_inv (s : Z) (self : PadToStride.self_) (images : list image)
    (out : PadToStride.padded_batch f32) :
  PadToStride.__init__ s = Ok self -> pad_call self images = Ok out ->
  (0 < s)%Z /\
  exists first rest padded,
    images = first :: rest /\
    fill (fun _ _ _ _ => zero) (PadToStride.chan px first) 0 images = Ok padded /\
    out = {| PadToStride.image_ :=
               {| PadToStride.shape :=
                    (length images, PadToStride.chan px first,
                     Z.to_nat (PadToStride.round_up s
                                 (list_max (map (PadToStride.height px) images))),
                     Z.to_nat (PadToStride.round_up s
                                 (list_max (map (PadToStride.width px) images))));
                  PadToStride.item := padded |};
             PadToStride.padded_height :=
               repeat (Z.to_nat (PadToStride.round_up s
                                   (list_max (map (PadToStride.height px) images))))
                      (length images);
             PadToStride.padded_width :=
               repeat (Z.to_nat (PadToStride.round_up s
                                   (list_max (map (PadToStride.width px) images))))
                      (length images) |}.
Proof.
  unfold PadToStride.__init__. destruct (Z.ltb_spec 0 s) as [Hs|]; [|discriminate].
  intros Hi. injection Hi as <-. intros H. split; [exact Hs|].
  unfold PadToStride.__call__ in H. cbn [PadToStride.stride] in H.
  destruct images as [|first rest]; [discriminate|].
  destruct (Z.eqb_spec s 0); [lia|].
  destruct (_ || _)%bool; [discriminate|].
  destruct (PadToStride.fill _ _ _ _ _ _ _) as [padded|e] eqn:Ef; [|discriminate].
  injection H as <-. exists first, rest, padded. now repeat split.
Qed.

(** X13.  A call of [PadToStride] that returns gives the stacked array
    the shape [(batch, channels of the first image, pad_h, pad_w)]
    where [pad_h] is the least multiple of the stride that no image's
    height exceeds, and [pad_w] likewise for the widths; the two
    recorded lists repeat them once per image. *)
Theorem pad_to_stride_shape (s : Z) (self : PadToStride.self_)
    (images : list image) (out : PadToStride.padded_batch f32) :
  PadToStride.__init__ s = Ok self -> pad_call self images = Ok out ->
  exists first rest pad_h pad_w,
    images = first :: rest /\
    PadToStride.shape f32 (PadToStride.image_ f32 out)
    = (length images, PadToStride.chan px first, pad_h, pad_w) /\
    PadToStride.padded_height f32 out = repeat pad_h (length images) /\
    PadToStride.padded_width f32 out = repeat pad_w (length images) /\
    (Z.of_nat pad_h mod s = 0)%Z /\ (Z.of_nat pad_w mod s = 0)%Z /\
    Forall (fun img => PadToStride.height px img <= pad_h /\
                       PadToStride.width px img <= pad_w) images /\
    (forall m : nat, (Z.of_nat m mod s = 0)%Z ->
       Forall (fun img => PadToStride.height px img <= m) images -> pad_h <= m) /\
    (forall m : nat, (Z.of_nat m mod s = 0)%Z ->
       Forall (fun img => PadToStride.width px img <= m) images -> pad_w <= m).
Proof.
  intros Hi H.
  destruct (pad_call_inv s self images out Hi H)
    as (Hs & first & rest & padded & Himg & _ & ->).
  set (H0 := list_max (map (PadToStride.height px) images)).
  set (W0 := list_max (map (PadToStride.width px) images)).
  destruct (round_up_spec s H0 Hs) as ((Hh1 & Hh2) & Hh3 & Hh4).
  destruct (round_up_spec s W0 Hs) as ((Hw1 & Hw2) & Hw3 & Hw4).
  exists first, rest, (Z.to_nat (PadToStride.round_up s H0)),
    (Z.to_nat (PadToStride.round_up s W0)).
  cbn [PadToStride.shape PadToStride.image_ PadToStride.padded_height
         PadToStride.padded_width].
  split; [exact Himg|]. split; [reflexivity|]. split; [reflexivity|].
  split; [reflexivity|].
  rewrite !Z2Nat.id by lia.
  split; [exact Hh3|]. split; [exact Hw3|]. split; [|split].
  - apply Forall_forall. intros img Hin.
    assert (PadToStride.height px img <= H0)
      by (apply list_max_bound, in_map, Hin).
    assert (PadToStride.width px img <= W0)
      by (apply list_max_bound, in_map, Hin).
    lia.
  - intros m Hm Hall.
    assert (H0 <= m).
    { apply list_max_le. apply Forall_map. exact Hall. }
    specialize (Hh4 (Z.of_nat m) Hm ltac:(lia)). lia.
  - intros m Hm Hall.
    assert (W0 <= m).
    { apply list_max_le. apply Forall_map. exact Hall. }
    specialize (Hw4 (Z.of_nat m) Hm ltac:(lia)). lia.
Qed.

(** X14.  What the stacked array holds: image [idx] sits in the top
    left corner of slice [idx], converted element by element (one
    channel being repeated over all channels of the stack), and every
    position of the slice to the right of the image or below it is
    zero. *)
Theorem pad_to_stride_pixels (s : Z) (self : PadToStride.self_)
    (images : list image) (out : PadToStride.padded_batch f32) :
  PadToStride.__init__ s = Ok self -> pad_call self images = Ok out ->
  forall idx img,
    nth_error images idx = Some img ->
    let channels := snd (fst (fst (PadToStride.shape f32 (PadToStride.image_ f32 out)))) in
    fits_channels channels img /\
    forall c y x,
      PadToStride.item f32 (PadToStride.image_ f32 out) idx c y x
      = if (y <? PadToStride.height px img) && (x <? PadToStride.width px img)
        then astype (PadToStride.pixel px img
                       (if PadToStride.chan px img =? channels then c else 0) y x)
        else zero.
Proof.
  intros Hi H idx img Hn.
  destruct (pad_call_inv s self images out Hi H)
    as (Hs & first & rest & padded & Himg & Hf & ->).
  cbn [PadToStride.shape PadToStride.image_ PadToStride.item fst snd].
  destruct (fill_inv _ _ _ _ _ Hf) as (Hall & Hq). split.
  - rewrite Forall_forall in Hall. apply Hall. eapply nth_error_In; eauto.
  - intros c y x. rewrite Hq, Nat.sub_0_r, Hn. reflexivity.
Qed.

(** X15.  When [PadToStride] fails: the constructor refuses a stride
    that is not positive; on an empty batch the call raises
    [IndexError]; on a batch that is not empty it returns exactly when
    every image has the channels of the first one or a single channel,
    and raises [ValueError] otherwise. *)
Theorem pad_to_stride_errors (s : Z) :
  ((s <= 0)%Z -> PadToStride.__init__ s = Raise AssertionError) /\
  forall self,
    PadToStride.__init__ s = Ok self ->
    pad_call self [] = Raise IndexError /\
    forall first rest,
      (Forall (fits_channels (PadToStride.chan px first)) rest ->
       exists out, pad_call self (first :: rest) = Ok out) /\
      (~ Forall (fits_channels (PadToStride.chan px first)) rest ->
       pad_call self (first :: rest) = Raise ValueError).
Proof.
  split.
  - intros Hs. unfold PadToStride.__init__.
    destruct (Z.ltb_spec 0 s); [lia|reflexivity].
  - intros self Hi. split; [reflexivity|]. intros first rest.
    unfold PadToStride.__init__ in Hi.
    destruct (Z.ltb_spec 0 s) as [Hs|]; [|discriminate]. injection Hi as <-.
    unfold PadToStride.__call__. cbn [PadToStride.stride].
    destruct (Z.eqb_spec s 0); [lia|].
    set (hs := map _ (first :: rest)). set (ws := map _ (first :: rest)).
    destruct (round_up_spec s (list_max hs) Hs) as ((Hh & _) & _).
    destruct (round_up_spec s (list_max ws) Hs) as ((Hw & _) & _).
    destruct (Z.ltb_spec (PadToStride.round_up s (list_max hs)) 0); [lia|].
    destruct (Z.ltb_spec (PadToStride.round_up s (list_max ws)) 0); [lia|].
    cbn [orb].
    destruct (fill_total (PadToStride.chan px first) (first :: rest)
                (fun _ _ _ _ => zero) 0) as (Hok & Hbad).
    split.
    + intros Hall. destruct Hok as (q & ->); [|eauto].
      constructor; [now left|exact Hall].
    + intros Hall. rewrite Hbad; [reflexivity|].
      intros Hf. apply Hall. now inversion Hf.
Qed.

End PadToStrideFacts.

(** Two one-channel images of 2 x 3 and 3 x 2 elements, and one of
    three channels. *)
Definition wide_image : PadToStride.image nat :=
  {| PadToStride.chan := 1; PadToStride.height := 2; PadToStride.width := 3;
     PadToStride.pixel := fun c y x => 100 * c + 10 * y + x |}.

Definition tall_image : PadToStride.image nat :=
  {| PadToStride.chan := 1; PadToStride.height := 3; PadToStride.width := 2;
     PadToStride.pixel := fun c y x => 100 * c + 10 * y + x |}.

Definition colour_image : PadToStride.image nat :=
  {| PadToStride.chan := 3; PadToStride.height := 1; PadToStride.width := 1;
     PadToStride.pixel := fun c y x => c |}.

(** The batch of the first two under a stride of 4. *)
Definition two_images_padded : PadToStride.padded_batch Z :=
  match PadToStride.__call__ nat Z 0%Z Z.of_nat {| PadToStride.stride := 4 |}
          [wide_image; tall_image] with
  | Ok out => out
  | Raise _ =>
      {| PadToStride.image_ := {| PadToStride.shape := (0, 0, 0, 0);
                                  PadToStride.item := fun _ _ _ _ => 0%Z |};
         PadToStride.padded_height := []; PadToStride.padded_width := [] |}
  end.

(** A run of X13: both dimensions are padded to 4. *)
Lemma pad_to_stride_shape_witness :
  exists first rest pad_h pad_w,
    [wide_image; tall_image] = first :: rest /\
    PadToStride.shape Z (PadToStride.image_ Z two_images_padded)
    = (2, PadToStride.chan nat first, pad_h, pad_w) /\
    PadToStride.padded_height Z two_images_padded = repeat pad_h 2 /\
    PadToStride.padded_width Z two_images_padded = repeat pad_w 2 /\
    (Z.of_nat pad_h mod 4 = 0)%Z /\ (Z.of_nat pad_w mod 4 = 0)%Z /\
    Forall (fun img => PadToStride.height nat img <= pad_h /\
                       PadToStride.width nat img <= pad_w)
           [wide_image; tall_image] /\
    (forall m : nat, (Z.of_nat m mod 4 = 0)%Z ->
       Forall (fun img => PadToStride.height nat img <= m)
              [wide_image; tall_image] -> pad_h <= m) /\
    (forall m : nat, (Z.of_nat m mod 4 = 0)%Z ->
       Forall (fun img => PadToStride.width nat img <= m)
              [wide_image; tall_image] -> pad_w <= m).
Proof.
  exact (pad_to_stride_shape nat Z 0%Z Z.of_nat 4 {| PadToStride.stride := 4 |}
           [wide_image; tall_image] two_images_padded eq_refl eq_refl).
Defined.

(** A run of X14 on the second image of the batch: one element of the
    image, and one to the right of it. *)
Lemma pad_to_stride_pixels_witness :
  PadToStride.item Z (PadToStride.image_ Z two_images_padded) 1 0 2 1
  = Z.of_nat (PadToStride.pixel nat tall_image 0 2 1) /\
  PadToStride.item Z (PadToStride.image_ Z two_images_padded) 1 0 1 3 = 0%Z.
Proof.
  pose proof (proj2 (pad_to_stride_pixels nat Z 0%Z Z.of_nat 4
                       {| PadToStride.stride := 4 |}
                       [wide_image; tall_image] two_images_padded eq_refl eq_refl
                       1 tall_image eq_refl)) as H.
  split; [exact (H 0 2 1) | exact (H 0 1 3)].
Defined.

(** A run of X15: a stride of 0, an empty batch, and an image of three
    channels after one of one channel. *)
Lemma pad_to_stride_errors_witness :
  PadToStride.__init__ 0 = Raise AssertionError /\
  PadToStride.__call__ nat Z 0%Z Z.of_nat {| PadToStride.stride := 4 |} []
  = Raise IndexError /\
  PadToStride.__call__ nat Z 0%Z Z.of_nat {| PadToStride.stride := 4 |}
    [wide_image; colour_image]
  = Raise ValueError.
Proof.
  split.
  - apply (proj1 (pad_to_stride_errors nat Z 0%Z Z.of_nat 0)). lia.
  - destruct (proj2 (pad_to_stride_errors nat Z 0%Z Z.of_nat 4)
                {| PadToStride.stride := 4 |} eq_refl) as (Hempty & Hrest).
    split; [exact Hempty|].
    apply (proj2 (Hrest wide_image [colour_image])).
    intros Hf. inversion Hf as [|? ? Hc _]; subst.
    destruct Hc as [Hc|Hc]; discriminate Hc.
Defined.

(* ------------------------------------------------------------------ *)
(** [NormalizeLabels]: the boxes of a sample are divided by the image
    size, then boxes, labels and scores are cut to [num_instances]
    entries and padded with zeros.  The element types are abstract:
    [num] for the boxes and scores with the division of [/=], [size]
    for [width] and [height], [lbl] for the labels. *)

Module NormalizeLabels.

Section Labels.

Variables (num size lbl : Type) (zero : num) (lzero : lbl)
          (divide : num -> size -> num).

(** The keys of [sample] the transform reads; [gt_score] is optional. *)
Record sample : Type :=
  { width : size; height : size;
    gt_box : list (num * num * num * num);
    gt_label : list lbl;
    gt_score : option (list num) }.

Record self_ : Type := { num_instances : option Z; normalize_box : bool }.

(** [NormalizeLabels.__init__]. *)
Definition __init__ (num_instances : option Z) (normalize_box : bool) : self_ :=
  {| num_instances := num_instances; normalize_box := normalize_box |}.

(** [sample['gt_box'] /= np.array([w, h] * 2, dtype=np.float32)]. *)
Definition divide_boxes (w h : size) (boxes : list (num * num * num * num))
  : list (num * num * num * num) :=
  map (fun b => match b with
                | (x1, y1, x2, y2) =>
                    (divide x1 w, divide y1 h, divide x2 w, divide y2 h)
                end) boxes.

Definition set_gt_box (v : list (num * num * num * num)) (s : sample) : sample :=
  {| width := width s; height := height s; gt_box := v;
     gt_label := gt_label s; gt_score := gt_score s |}.

(** [np.pad(a, [(0, pad)])] with [pad >= 0]. *)
Definition pad_with {A} (z : A) (a : list A) (pad : Z) : list A :=
  a ++ repeat z (Z.to_nat pad).

(** [NormalizeLabels.__call__]: the sample as the call leaves it (it is
    updated in place) and the outcome. *)
Definition __call__ (self : self_) (sample0 : sample) : sample * result unit :=
  let sample1 :=
    if normalize_box self then
      let w := width sample0 in
      let h := height sample0 in
      set_gt_box (divide_boxes w h (gt_box sample0)) sample0
    else sample0 in
  match num_instances self with
  | None => (sample1, Ok tt)
  | Some n =>
      let gt_box := slice_to (gt_box sample1) n in
      let gt_label := slice_to (gt_label sample1) n in
      let pad := (n - Z.of_nat (length gt_label))%Z in
      if (pad <? 0)%Z then (sample1, Raise ValueError)
      else
        let gt_box_padded := pad_with (zero, zero, zero, zero) gt_box pad in
        let gt_label_padded := pad_with lzero gt_label pad in
        ({| width := width sample1; height := height sample1;
            gt_box := gt_box_padded;
            gt_label := gt_label_padded;
            gt_score :=
              match gt_score sample1 with
              | Some score => Some (pad_with zero (slice_to score n) pad)
              | None => None
              end |}, Ok tt)
  end.

End Labels.

End NormalizeLabels.

Lemma firstn_repeat_le {A} (z : A) (k n : nat) :
  k <= n -> firstn k (repeat z n) = repeat z k.
Proof.
  revert n. induction k as [|k IH]; intros [|n] H; cbn; try reflexivity; try lia.
  f_equal. apply IH. lia.
Qed.

(** Cutting to [n] entries and padding with as many zeros as the cut
    labels lack: the first [n] entries of the list continued by zeros
    when the list is no longer than the labels. *)
Lemma cap_then_pad {A} (z : A) (l : list A) (n m : nat) :
  Nat.min n m = Nat.min n (length l) ->
  firstn n l ++ repeat z (n - Nat.min n m) = firstn n (l ++ repeat z n).
Proof.
  intros Hm. rewrite Hm, firstn_app.
  destruct (Nat.le_gt_cases n (length l)) as [Hle|Hgt].
  - replace (n - Nat.min n (length l)) with 0 by lia.
    replace (n - length l) with 0 by lia. reflexivity.
  - rewrite Nat.min_r by lia. now rewrite firstn_repeat_le by lia.
Qed.

Section NormalizeLabelsFacts.

Variables (num size lbl : Type) (zero : num) (lzero : lbl)
          (divide : num -> size -> num).

Local Abbreviation sample := (NormalizeLabels.sample num size lbl).
Local Abbreviation label_call :=
  (NormalizeLabels.__call__ num size lbl zero lzero divide).
Local Abbreviation boxes_of := (NormalizeLabels.gt_box num size lbl).
Local Abbreviation labels_of := (NormalizeLabels.gt_label num size lbl).
Local Abbreviation scores_of := (NormalizeLabels.gt_score num size lbl).

(** The boxes after the optional division. *)
Definition boxes_divided (normalize_box : bool) (s : sample)
  : list (num * num * num * num) :=
  if normalize_box
  then NormalizeLabels.divide_boxes num size divide
         (NormalizeLabels.width num size lbl s)
         (NormalizeLabels.height num size lbl s) (boxes_of s)
  else boxes_of s.

Lemma boxes_divided_length (nb : bool) (s : sample) :
  length (boxes_divided nb s) = length (boxes_of s).
Proof.
  unfold boxes_divided, NormalizeLabels.divide_boxes.
  destruct nb; [apply length_map|reflexivity].
Qed.

(** The sample a call with [num_instances = n >= 0] leaves. *)
Lemma label_call_capped (nb : bool) (n : Z) (s : sample) :
  (0 <= n)%Z ->
  let k := Z.to_nat n in
  let pad := k - Nat.min k (length (labels_of s)) in
  label_call (NormalizeLabels.__init__ (Some n) nb) s
  = ({| NormalizeLabels.width := NormalizeLabels.width num size lbl s;
        NormalizeLabels.height := NormalizeLabels.height num size lbl s;
        NormalizeLabels.gt_box :=
          firstn k (boxes_divided nb s)
          ++ repeat (zero, zero, zero, zero) pad;
        NormalizeLabels.gt_label := firstn k (labels_of s) ++ repeat lzero pad;
        NormalizeLabels.gt_score :=
          match scores_of s with
          | Some score => Some (firstn k score ++ repeat zero pad)
          | None => None
          end |}, Ok tt).
Proof.
  intros Hn k pad.
  unfold NormalizeLabels.__call__, NormalizeLabels.__init__.
  cbn [NormalizeLabels.num_instances NormalizeLabels.normalize_box].
  assert (Hl : labels_of (if nb
                          then NormalizeLabels.set_gt_box num size lbl
                                 (NormalizeLabels.divide_boxes num size divide
                                    (NormalizeLabels.width num size lbl s)
                                    (NormalizeLabels.height num size lbl s)
                                    (boxes_of s)) s
                          else s) = labels_of s) by now destruct nb.
  cbv zeta. rewrite Hl. rewrite !slice_to_nonneg by exact Hn.
  rewrite length_firstn. fold k.
  destruct (Z.ltb_spec (n - Z.of_nat (Nat.min k (length (labels_of s)))) 0);
    [lia|].
  assert (Hpad : Z.to_nat (n - Z.of_nat (Nat.min k (length (labels_of s))))
                 = pad) by lia.
  unfold NormalizeLabels.pad_with, boxes_divided. rewrite Hpad.
  destruct nb;
    cbn [NormalizeLabels.set_gt_box NormalizeLabels.width NormalizeLabels.height
           NormalizeLabels.gt_box NormalizeLabels.gt_label
           NormalizeLabels.gt_score];
    (destruct (scores_of s) as [score|];
     [rewrite (slice_to_nonneg score n Hn)|]; reflexivity).
Qed.

(** X16.  With [num_instances = n >= 0] the call returns, and the
    labels come out as exactly [n] entries: the first [n] of the input
    continued by zeros.  Boxes and scores are padded by what the labels
    lack, so they have [n] entries too when the sample holds as many of
    them as labels, and [min(n, boxes) + n - min(n, labels)] in
    general. *)
Theorem normalize_labels_length (nb : bool) (n : Z) (s : sample) :
  (0 <= n)%Z ->
  let k := Z.to_nat n in
  let out := label_call (NormalizeLabels.__init__ (Some n) nb) s in
  snd out = Ok tt /\
  labels_of (fst out) = firstn k (labels_of s ++ repeat lzero k) /\
  length (labels_of (fst out)) = k /\
  length (boxes_of (fst out)) + Nat.min k (length (labels_of s))
  = Nat.min k (length (boxes_of s)) + k /\
  (length (boxes_of s) = length (labels_of s) ->
   boxes_of (fst out)
   = firstn k (boxes_divided nb s ++ repeat (zero, zero, zero, zero) k)) /\
  (forall score, scores_of s = Some score ->
     exists score',
       scores_of (fst out) = Some score' /\
       length score' + Nat.min k (length (labels_of s))
       = Nat.min k (length score) + k /\
       (length score = length (labels_of s) ->
        score' = firstn k (score ++ repeat zero k))) /\
  (scores_of s = None -> scores_of (fst out) = None).
Proof.
  intros Hn k out. subst out. rewrite (label_call_capped nb n s Hn).
  cbv zeta. fold k.
  cbn [fst snd NormalizeLabels.gt_box NormalizeLabels.gt_label
         NormalizeLabels.gt_score].
  split; [reflexivity|]. split; [now apply cap_then_pad|].
  split; [rewrite length_app, length_firstn, repeat_length; lia|].
  split; [rewrite length_app, length_firstn, repeat_length,
            boxes_divided_length; lia|].
  split; [|split].
  - intros Hb. apply cap_then_pad. now rewrite boxes_divided_length, Hb.
  - intros score Hs. rewrite Hs. eexists. split; [reflexivity|].
    split; [rewrite length_app, length_firstn, repeat_length; lia|].
    intros Hl. apply cap_then_pad. now rewrite Hl.
  - intros Hs. now rewrite Hs.
Qed.

(** X17.  A negative [num_instances] makes the call raise the
    [ValueError] of [np.pad], after the boxes of the sample were
    divided in place when [normalize_box] is set; with
    [num_instances = None] the call only divides the boxes. *)
Theorem normalize_labels_no_cap (nb : bool) (s : sample) :
  (forall n, (n < 0)%Z ->
     snd (label_call (NormalizeLabels.__init__ (Some n) nb) s) = Raise ValueError /\
     fst (label_call (NormalizeLabels.__init__ (Some n) nb) s)
     = fst (label_call (NormalizeLabels.__init__ None nb) s)) /\
  snd (label_call (NormalizeLabels.__init__ None nb) s) = Ok tt /\
  boxes_of (fst (label_call (NormalizeLabels.__init__ None nb) s))
  = boxes_divided nb s /\
  labels_of (fst (label_call (NormalizeLabels.__init__ None nb) s)) = labels_of s /\
  scores_of (fst (label_call (NormalizeLabels.__init__ None nb) s)) = scores_of s /\
  label_call (NormalizeLabels.__init__ None false) s = (s, Ok tt).
Proof.
  unfold NormalizeLabels.__call__, NormalizeLabels.__init__, boxes_divided.
  cbn [NormalizeLabels.num_instances NormalizeLabels.normalize_box].
  split.
  - intros n Hn.
    set (s1 := if nb then _ else s).
    destruct (Z.ltb_spec (n - Z.of_nat (length (slice_to (labels_of s1) n))) 0);
      [now split|lia].
  - destruct nb; now repeat split.
Qed.

(** X18.  Without box division the transform is idempotent on a sample
    that holds one box and one score per label: a second call with the
    same [num_instances >= 0] changes nothing. *)
Theorem normalize_labels_twice (n : Z) (s : sample) :
  (0 <= n)%Z ->
  length (boxes_of s) = length (labels_of s) ->
  (forall score, scores_of s = Some score ->
                 length score = length (labels_of s)) ->
  let self := NormalizeLabels.__init__ (Some n) false in
  label_call self (fst (label_call self s)) = label_call self s.
Proof.
  intros Hn Hb Hs self. subst self.
  rewrite (label_call_capped false n s Hn). cbv zeta. cbn [fst].
  rewrite (label_call_capped false n _ Hn). cbv zeta.
  cbn [NormalizeLabels.width NormalizeLabels.height NormalizeLabels.gt_box
         NormalizeLabels.gt_label NormalizeLabels.gt_score boxes_divided].
  set (k := Z.to_nat n).
  set (pad := k - Nat.min k (length (labels_of s))).
  assert (Hl : length (firstn k (labels_of s) ++ repeat lzero pad) = k)
    by (rewrite length_app, length_firstn, repeat_length; lia).
  rewrite Hl. replace (k - Nat.min k k) with 0 by lia. cbn [repeat].
  rewrite !app_nil_r.
  assert (Hcut : forall (A : Type) (z : A) (l : list A),
            length l = length (labels_of s) ->
            firstn k (firstn k l ++ repeat z pad) = firstn k l ++ repeat z pad).
  { intros A z l Hlen. apply firstn_all2.
    rewrite length_app, length_firstn, repeat_length. lia. }
  rewrite (Hcut _ _ _ Hb), (Hcut _ _ _ eq_refl).
  destruct (scores_of s) as [score|] eqn:Es; [|reflexivity].
  now rewrite (Hcut _ zero score (Hs score eq_refl)), app_nil_r.
Qed.

End NormalizeLabelsFacts.

(** One box with its label and score in an image of 4 x 2. *)
Definition one_box : NormalizeLabels.sample Q Z nat :=
  {| NormalizeLabels.width := 4%Z; NormalizeLabels.height := 2%Z;
     NormalizeLabels.gt_box := [(1, 1, 3, 2)%Q];
     NormalizeLabels.gt_label := [7];
     NormalizeLabels.gt_score := Some [1%Q] |}.

(** The runs below keep [normalize_box] off: no division takes place,
    and the division given to the model is never applied. *)
Definition no_division (x : Q) (w : Z) : Q := x.

(** A run of X16: three instances asked for. *)
Lemma normalize_labels_length_witness :
  NormalizeLabels.gt_label Q Z nat
    (fst (NormalizeLabels.__call__ Q Z nat 0%Q 0 no_division
            (NormalizeLabels.__init__ (Some 3%Z) false) one_box))
  = firstn 3 ([7] ++ repeat 0 3).
Proof.
  exact (proj1 (proj2 (normalize_labels_length Q Z nat 0%Q 0 no_division
                         false 3%Z one_box ltac:(lia)))).
Defined.

(** A run of X17: [num_instances = -1]. *)
Lemma normalize_labels_no_cap_witness :
  snd (NormalizeLabels.__call__ Q Z nat 0%Q 0 no_division
         (NormalizeLabels.__init__ (Some (-1)%Z) false) one_box)
  = Raise ValueError.
Proof.
  exact (proj1 (proj1 (normalize_labels_no_cap Q Z nat 0%Q 0 no_division
                         false one_box) (-1)%Z ltac:(lia))).
Defined.

(** A run of X18. *)
Lemma normalize_labels_twice_witness :
  let self := NormalizeLabels.__init__ (Some 3%Z) false in
  NormalizeLabels.__call__ Q Z nat 0%Q 0 no_division self
    (fst (NormalizeLabels.__call__ Q Z nat 0%Q 0 no_division self one_box))
  = NormalizeLabels.__call__ Q Z nat 0%Q 0 no_division self one_box.
Proof.
  apply (normalize_labels_twice Q Z nat 0%Q 0 no_division 3%Z one_box).
  - lia.
  - reflexivity.
  - intros score H. injection H as <-. reflexivity.
Defined.

(* ------------------------------------------------------------------ *)
(** [ToFeedDict.__init__]: every feed variable, a name or a mapping,
    is brought to the form [{'name', 'fields', 'lod_level'}]. *)

From Stdlib Require String.

Module ToFeedDict.

Import String.

(** The Python values a feed variable is made of. *)
#[warnings="-register-all"]
Inductive value : Type :=
| VNone
| VBool (b : bool)
| VInt (z : Z)
| VStr (s : string)
| VList (l : list value).

(** [bool(v)], as [and] and [or] test it. *)
Definition truth (v : value) : bool :=
  match v with
  | VNone => false
  | VBool b => b
  | VInt z => negb (z =? 0)%Z
  | VStr s => negb (String.eqb s "")
  | VList l => match l with [] => false | _ :: _ => true end
  end.

(** An element of [feed_vars]: a plain value ([str] or not), or a
    [Mapping], of which the entries under ['name'], ['fields'] and
    ['lod_level'] are kept ([None] for a key that is absent). *)
Inductive feed_var : Type :=
| Plain (v : value)
| Mapping (name fields lod_level : option value).

(** An element of [self._normalized_vars]. *)
Record normalized_var : Type :=
  { name : value; fields : value; lod_level : value }.

Inductive error : Type :=
| AssertionError
| KeyError (key : string).

(** The key whose absence [var['name']] reports. *)
Definition name_key : string := "name".

Inductive outcome (A : Type) : Type :=
| Return (a : A)
| Throw (e : error).

Arguments Return {A} a.
Arguments Throw {A} e.

(** The body of the loop for one [var]. *)
Definition normalize (var : feed_var) : outcome normalized_var :=
  match var with
  | Plain (VStr s) =>
      Return {| name := VStr s; fields := VList [VStr s]; lod_level := VInt 0 |}
  | Plain _ => Throw AssertionError
  | Mapping None _ _ => Throw (KeyError name_key)
  | Mapping (Some name) fields lod_level =>
      Return {| name := name;
                fields := match fields with
                          | Some f => f
                          | None => VList [name]
                          end;
                lod_level := match lod_level with
                             | Some l => if truth l then l else VInt 0
                             | None => VInt 0
                             end |}
  end.

(** [for var in self.feed_vars: ... self._normalized_vars.append(...)]. *)
Fixpoint loop (feed_vars : list feed_var) (_normalized_vars : list normalized_var)
  : outcome (list normalized_var) :=
  match feed_vars with
  | [] => Return _normalized_vars
  | var :: rest =>
      match normalize var with
      | Return n => loop rest (_normalized_vars ++ [n])
      | Throw e => Throw e
      end
  end.

(** [ToFeedDict.__init__]: the value of [self._normalized_vars]. *)
Definition __init__ (feed_vars : list feed_var) : outcome (list normalized_var) :=
  loop feed_vars [].

(** The dict [__init__] appended, read as a feed variable again. *)
Definition as_mapping (n : normalized_var) : feed_var :=
  Mapping (Some (name n)) (Some (fields n)) (Some (lod_level n)).

(** The variables the loop accepts. *)
Definition accepted (var : feed_var) : bool :=
  match var with
  | Plain (VStr _) => true
  | Plain _ => false
  | Mapping (Some _) _ _ => true
  | Mapping None _ _ => false
  end.

End ToFeedDict.

Lemma feed_loop_inv (feed_vars : list ToFeedDict.feed_var) :
  forall acc r,
    ToFeedDict.loop feed_vars acc = ToFeedDict.Return r ->
    exists nvs,
      r = acc ++ nvs /\
      Forall2 (fun v n => ToFeedDict.normalize v = ToFeedDict.Return n)
              feed_vars nvs.
Proof.
  induction feed_vars as [|v rest IH]; intros acc r H; cbn [ToFeedDict.loop] in H.
  - injection H as <-. exists []. rewrite app_nil_r. split; [reflexivity|constructor].
  - destruct (ToFeedDict.normalize v) as [n|e] eqn:En; [|discriminate].
    destruct (IH _ _ H) as (nvs & -> & Hall).
    exists (n :: nvs). rewrite <- app_assoc. split; [reflexivity|].
    now constructor.
Qed.

Lemma feed_loop_ok (feed_vars : list ToFeedDict.feed_var) :
  forall acc nvs,
    Forall2 (fun v n => ToFeedDict.normalize v = ToFeedDict.Return n)
            feed_vars nvs ->
    ToFeedDict.loop feed_vars acc = ToFeedDict.Return (acc ++ nvs).
Proof.
  induction feed_vars as [|v rest IH]; intros acc nvs H; inversion H; subst;
    cbn [ToFeedDict.loop].
  - now rewrite app_nil_r.
  - match goal with Hn : ToFeedDict.normalize v = _ |- _ => rewrite Hn end.
    rewrite IH with (nvs := l') by assumption.
    now rewrite <- app_assoc.
Qed.

Lemma normalize_normal (v : ToFeedDict.feed_var) (n : ToFeedDict.normalized_var) :
  ToFeedDict.normalize v = ToFeedDict.Return n ->
  ToFeedDict.accepted v = true /\
  (ToFeedDict.lod_level n = ToFeedDict.VInt 0 \/
   ToFeedDict.truth (ToFeedDict.lod_level n) = true) /\
  ToFeedDict.normalize (ToFeedDict.as_mapping n) = ToFeedDict.Return n.
Proof.
  destruct v as [[| | |s|]|[nm|] fs ll]; cbn; try discriminate.
  - intros H. injection H as <-. cbn. repeat split. now left.
  - intros H. injection H as <-. cbn. split; [reflexivity|].
    destruct ll as [l|]; cbn.
    + destruct (ToFeedDict.truth l) eqn:El; cbn.
      * split; [now right|]. now rewrite El.
      * split; [now left|reflexivity].
    + split; [now left|reflexivity].
Qed.

(** X19.  The normal form is stable: when [ToFeedDict.__init__]
    returns, there is one normalized variable per feed variable, each
    has a [lod_level] that is [0] or a true value, and giving the
    normalized variables to [__init__] again, as mappings, returns the
    same list. *)
Theorem feed_vars_normal_form (feed_vars : list ToFeedDict.feed_var)
    (nvs : list ToFeedDict.normalized_var) :
  ToFeedDict.__init__ feed_vars = ToFeedDict.Return nvs ->
  length nvs = length feed_vars /\
  Forall (fun n => ToFeedDict.lod_level n = ToFeedDict.VInt 0 \/
                   ToFeedDict.truth (ToFeedDict.lod_level n) = true) nvs /\
  ToFeedDict.__init__ (map ToFeedDict.as_mapping nvs) = ToFeedDict.Return nvs.
Proof.
  unfold ToFeedDict.__init__. intros H.
  destruct (feed_loop_inv _ _ _ H) as (nvs' & -> & Hall). cbn [app].
  split; [symmetry; eapply Forall2_length; eauto|].
  split.
  - clear H. induction Hall as [|v n vs ns Hn _ IH]; constructor; [|exact IH].
    now destruct (normalize_normal v n Hn) as (_ & Hl & _).
  - rewrite (feed_loop_ok _ [] nvs'); [reflexivity|].
    clear H. induction Hall as [|v n vs ns Hn _ IH]; cbn [map]; constructor;
      [|exact IH].
    now destruct (normalize_normal v n Hn) as (_ & _ & Hm).
Qed.

(** X20.  [ToFeedDict.__init__] returns exactly when every feed
    variable is a string or a mapping with a ['name'].  The first
    variable that is neither decides the exception: [AssertionError]
    for a value that is no string and no mapping, [KeyError('name')]
    for a mapping without a name. *)
Theorem feed_vars_errors (feed_vars : list ToFeedDict.feed_var) :
  (forallb ToFeedDict.accepted feed_vars = true ->
   exists nvs, ToFeedDict.__init__ feed_vars = ToFeedDict.Return nvs) /\
  (forall good bad rest,
     feed_vars = good ++ bad :: rest ->
     forallb ToFeedDict.accepted good = true ->
     ToFeedDict.accepted bad = false ->
     ToFeedDict.__init__ feed_vars
     = ToFeedDict.Throw
         (match bad with
          | ToFeedDict.Plain _ => ToFeedDict.AssertionError
          | ToFeedDict.Mapping _ _ _ => ToFeedDict.KeyError ToFeedDict.name_key
          end)).
Proof.
  unfold ToFeedDict.__init__. generalize (@nil ToFeedDict.normalized_var).
  split.
  - revert l. induction feed_vars as [|v vs IH]; intros acc H; cbn in *; [eauto|].
    apply andb_true_iff in H. destruct H as (Hv & Hvs).
    destruct v as [[| | |s|]|[nm|] fs ll]; try discriminate; cbn; now apply IH.
  - intros good bad rest -> Hg Hb. revert l.
    induction good as [|v vs IH]; intros acc; cbn in *.
    + destruct bad as [[| | |s|]|[nm|] fs ll]; try discriminate; reflexivity.
    + apply andb_true_iff in Hg. destruct Hg as (Hv & Hvs).
      destruct v as [[| | |s|]|[nm|] fs ll]; try discriminate; cbn; now apply IH.
Qed.

(** A name, and a mapping with a name, fields and a level of 1. *)
Definition two_feed_vars : list ToFeedDict.feed_var :=
  [ToFeedDict.Plain (ToFeedDict.VStr ToFeedDict.name_key);
   ToFeedDict.Mapping (Some (ToFeedDict.VStr ToFeedDict.name_key))
     (Some (ToFeedDict.VList [ToFeedDict.VStr ToFeedDict.name_key;
                              ToFeedDict.VStr ToFeedDict.name_key]))
     (Some (ToFeedDict.VInt 1))].

(** A run of X19. *)
Lemma feed_vars_normal_form_witness :
  exists nvs,
    ToFeedDict.__init__ two_feed_vars = ToFeedDict.Return nvs /\
    length nvs = 2 /\
    ToFeedDict.__init__ (map ToFeedDict.as_mapping nvs) = ToFeedDict.Return nvs.
Proof.
  eexists. split; [reflexivity|].
  match goal with
  | |- length ?n = _ /\ _ =>
      destruct (feed_vars_normal_form two_feed_vars n eq_refl) as (Hl & _ & Hi)
  end.
  split; [exact Hl|exact Hi].
Defined.

(** A run of X20: a number after a name, and a mapping without a name
    after it. *)
Lemma feed_vars_errors_witness :
  ToFeedDict.__init__
    (two_feed_vars ++ [ToFeedDict.Plain (ToFeedDict.VInt 3);
                       ToFeedDict.Mapping None None None])
  = ToFeedDict.Throw ToFeedDict.AssertionError.
Proof.
  exact (proj2 (feed_vars_errors _) two_feed_vars
           (ToFeedDict.Plain (ToFeedDict.VInt 3))
           [ToFeedDict.Mapping None None None] eq_refl eq_refl eq_refl).
Defined.
